(** * ember-resources: the [trackedFunction] utility and its [State] container

    A shallow embedding of [src/util/function.ts].  JavaScript objects live in
    an explicit store and are named by reference, so that the aliasing between
    a [State], the [TrackedAsyncData] it currently points at and the
    then-callbacks still queued for an older [TrackedAsyncData] is visible.
    The [async] arrow function [retry] is split at its single [await] into a
    synchronous part and a continuation that the host runs from the microtask
    queue.  What happens around the wrapper (calls, promises being settled,
    teardown, microtasks running) is a list of host events, and the
    properties that speak of "never" are proved over all such lists. *)

From Stdlib Require Import ZArith String Lia.
From stdpp Require Import base option list gmap.

Open Scope Z_scope.
Open Scope nat_scope.

(** ** Object identity and values *)

(** Every object the wrapper touches is one of four kinds; identity is the
    kind together with an allocation index. *)
Inductive Ref :=
| RefState (n : nat)             (* an instance of [class State] *)
| RefTrackedAsyncData (n : nat)  (* an instance of [TrackedAsyncData] *)
| RefResource (n : nat)          (* what [resource(context, fn)] returns *)
| RefObject (n : nat).           (* any other object, e.g. a component *)

#[global] Instance Ref_eq_dec : EqDecision Ref.
Proof. solve_decision. Defined.

#[global] Instance Ref_countable : Countable Ref.
Proof.
  refine (inj_countable'
    (λ r, match r with
          | RefState n => (0, n) | RefTrackedAsyncData n => (1, n)
          | RefResource n => (2, n) | RefObject n => (3, n)
          end)
    (λ p, match p with
          | (0, n) => RefState n | (1, n) => RefTrackedAsyncData n
          | (2, n) => RefResource n | (_, n) => RefObject n
          end) _).
  by intros [].
Defined.

Inductive JsVal :=
| JNull
| JUndefined
| JBool (b : bool)
| JNum (z : Z)
| JStr (s : string)
| JPromise (p : nat)   (* a native promise, by identity *)
| JObj (r : Ref).

#[global] Instance JsVal_eq_dec : EqDecision JsVal.
Proof. solve_decision. Defined.

(** How a call ends: with a value, or with a thrown exception. *)
Inductive Completion (A : Type) :=
| Normal (v : A)
| Throw (e : JsVal).
Arguments Normal {A} v.
Arguments Throw {A} e.

(** [a ?? b] *)
Definition nullish (a b : JsVal) : JsVal :=
  match a with
  | JNull | JUndefined => b
  | _ => a
  end.

(** ** The destroyable graph ([@ember/destroyable])

    The package is a dependency, not part of the repository.  Its four
    functions used by [function.ts] are modelled on its documented behaviour:
    an object is live until [destroy] marks it (and, first, its children) as
    destroying; a later flush of the host's destroy queue marks it destroyed;
    [isDestroying] also holds of a destroyed object; [destroy] returns at once
    on an object that is not live.  An object without an entry is live and has
    no children.  When an object becomes destroyed the package unregisters it
    from each of its parents that is still live; the links from child to
    parent that it follows for this are the child lists read the other way
    round, so they are not stored a second time. *)
Module Destroyable.

Inductive Lifecycle := LIVE | DESTROYING | DESTROYED.

#[global] Instance Lifecycle_eq_dec : EqDecision Lifecycle.
Proof. solve_decision. Defined.

Record Meta := { mstate : Lifecycle; children : list Ref }.

Definition lifecycle (g : gmap Ref Meta) (o : Ref) : Lifecycle :=
  match g !! o with Some m => mstate m | None => LIVE end.

Definition children_of (g : gmap Ref Meta) (o : Ref) : list Ref :=
  match g !! o with Some m => children m | None => [] end.

Definition isDestroying (g : gmap Ref Meta) (o : Ref) : bool :=
  match lifecycle g o with LIVE => false | _ => true end.

Definition isDestroyed (g : gmap Ref Meta) (o : Ref) : bool :=
  match lifecycle g o with DESTROYED => true | _ => false end.

Definition mark (st : Lifecycle) (o : Ref) (g : gmap Ref Meta) : gmap Ref Meta :=
  <[o := {| mstate := st; children := children_of g o |}]> g.

(** [destroy]: return when not live; otherwise set the state to destroying
    and destroy every child.  The recursion follows child links, so it is
    bounded by a fuel counter; [destroy] supplies one more than the number of
    entries, which is always enough ([destroy_fuel_enough] below). *)
Fixpoint destroy_from (fuel : nat) (o : Ref) (g : gmap Ref Meta) : gmap Ref Meta :=
  match fuel with
  | 0 => g
  | S k =>
      if isDestroying g o then g
      else foldl (λ acc c, destroy_from k c acc) (mark DESTROYING o g) (children_of g o)
  end.

Definition destroy (o : Ref) (g : gmap Ref Meta) : gmap Ref Meta :=
  destroy_from (S (size g)) o g.

(** The number of entries that are live: what bounds the recursion. *)
Definition live_entries (g : gmap Ref Meta) : nat :=
  size (filter (λ kv : Ref * Meta, mstate kv.2 = LIVE) g).

Definition associateDestroyableChild (parent child : Ref) (g : gmap Ref Meta)
  : gmap Ref Meta :=
  <[parent := {| mstate := lifecycle g parent;
                 children := children_of g parent ++ [child] |}]> g.

(** The host's destroy queue runs: every object that is being destroyed
    becomes destroyed, and is removed from the children of every parent
    that is live. *)
Definition finalize (g : gmap Ref Meta) : gmap Ref Meta :=
  (λ m, {| mstate := match mstate m with LIVE => LIVE | _ => DESTROYED end;
           children := match mstate m with
                       | LIVE => filter (λ c, lifecycle g c ≠ DESTROYING) (children m)
                       | _ => children m
                       end |}) <$> g.

End Destroyable.

(** ** Promises and the microtask queue

    Native promises as ECMAScript defines them: a promise is pending until
    it is settled once; then-callbacks registered while it is pending wait in
    its reaction list; settling it, or registering on a settled promise,
    appends one job per callback to the microtask queue, which the host runs
    oldest first.  [await Promise.resolve()] registers the rest of the
    function on a promise that is already fulfilled, so the continuation is
    one job appended to the queue. *)

Inductive Settlement :=
| Fulfilled (v : JsVal)
| Rejected (e : JsVal).

(** A promise absent from the store is pending and has no reactions. *)
Record PromiseObj := {
  settled : option Settlement;
  reactions : list nat          (* TrackedAsyncData instances waiting on it *)
}.

Inductive Job :=
| JobRetryResume (this : nat)               (* the rest of [retry] after its [await] *)
| JobSettled (d : nat) (o : Settlement).    (* a then-callback of TrackedAsyncData [d] *)

(** ** Objects of the wrapper *)

(** [TrackedAsyncData]'s private state: ['PENDING'], ['RESOLVED', value] or
    ['REJECTED', error]. *)
Inductive AsyncData :=
| IsPending
| IsResolved (v : JsVal)
| IsRejected (e : JsVal).

Record TrackedAsyncDataObj := {
  tdata : AsyncData;
  tsource : JsVal      (* the constructor's argument, kept for specification *)
}.

(** The type of [State.state]: [TrackedAsyncData['state'] | 'UNSTARTED']. *)
Inductive StateName := UNSTARTED | PENDING | RESOLVED | REJECTED.

#[global] Instance StateName_eq_dec : EqDecision StateName.
Proof. solve_decision. Defined.

(** One invocation of the function passed to [trackedFunction], as far as
    the wrapper can tell: while it runs it may settle promises it has a
    handle on (aborting an earlier request, say), and then it throws or
    returns a value (a promise, by identity, or anything else). *)
Record Invocation := {
  settles : list (nat * Settlement);
  outcome : Completion JsVal
}.

Definition returning (v : JsVal) : Invocation := {| settles := []; outcome := Normal v |}.
Definition throwing (e : JsVal) : Invocation := {| settles := []; outcome := Throw e |}.

(** The function itself: what its [n]-th invocation by this [State] does.
    Whatever else it sets in motion is an event of the host, before or after
    the call. *)
Definition SourceFn := nat → Invocation.

Record StateObj := {
  data : option nat;     (* [@tracked data: TrackedAsyncData | null = null] *)
  promise : JsVal;       (* [@tracked declare promise]: undefined until assigned *)
  fn : SourceFn;         (* [#fn] *)
  calls : nat            (* how often [#fn] has been invoked so far *)
}.

(** The callback [trackedFunction] passes to [resource]: the closure
    [() => { state.retry(); return state; }] over the local [state]. *)
Inductive ResourceFunction :=
| RetryAndReturn (state : nat).

Record ResourceObj := {
  owner : Ref;
  setup : ResourceFunction;
  cache : option JsVal
}.

(** What the wrapper does that something else can observe, in program
    order: calls out of the module, the suspension, and writes to tracked
    fields. *)
Inductive Effect :=
| CallFn (this : nat) (n : nat)                 (* [this.#fn()], its [n]-th call *)
| SetPromise (this : nat) (v : JsVal)           (* [this.promise = ...] *)
| Await (this : nat)                            (* [await Promise.resolve()] *)
| CallDestroy (d : nat)                         (* [destroy(this.data)] *)
| SetData (this : nat) (d : option nat)         (* [this.data = ...] *)
| Construct (d : nat) (arg : JsVal).            (* [new TrackedAsyncData(arg)] *)

Record World := {
  states : gmap nat StateObj;
  results : gmap nat TrackedAsyncDataObj;
  resources : gmap nat ResourceObj;
  promises : gmap nat PromiseObj;
  destroyables : gmap Ref Destroyable.Meta;
  microtasks : list Job;
  trace : list Effect;
  next : nat;                (* allocation counter *)
  DEBUG : bool               (* development build: deprecations are logged *)
}.

Definition with_states (f : gmap nat StateObj → gmap nat StateObj) (w : World) : World :=
  {| states := f (states w); results := results w; resources := resources w;
     promises := promises w; destroyables := destroyables w;
     microtasks := microtasks w; trace := trace w; next := next w; DEBUG := DEBUG w |}.

Definition with_results (f : gmap nat TrackedAsyncDataObj → gmap nat TrackedAsyncDataObj)
    (w : World) : World :=
  {| states := states w; results := f (results w); resources := resources w;
     promises := promises w; destroyables := destroyables w;
     microtasks := microtasks w; trace := trace w; next := next w; DEBUG := DEBUG w |}.

Definition with_resources (f : gmap nat ResourceObj → gmap nat ResourceObj)
    (w : World) : World :=
  {| states := states w; results := results w; resources := f (resources w);
     promises := promises w; destroyables := destroyables w;
     microtasks := microtasks w; trace := trace w; next := next w; DEBUG := DEBUG w |}.

Definition with_promises (f : gmap nat PromiseObj → gmap nat PromiseObj) (w : World) : World :=
  {| states := states w; results := results w; resources := resources w;
     promises := f (promises w); destroyables := destroyables w;
     microtasks := microtasks w; trace := trace w; next := next w; DEBUG := DEBUG w |}.

Definition with_destroyables
    (f : gmap Ref Destroyable.Meta → gmap Ref Destroyable.Meta) (w : World) : World :=
  {| states := states w; results := results w; resources := resources w;
     promises := promises w; destroyables := f (destroyables w);
     microtasks := microtasks w; trace := trace w; next := next w; DEBUG := DEBUG w |}.

Definition with_microtasks (f : list Job → list Job) (w : World) : World :=
  {| states := states w; results := results w; resources := resources w;
     promises := promises w; destroyables := destroyables w;
     microtasks := f (microtasks w); trace := trace w; next := next w; DEBUG := DEBUG w |}.

Definition emit (e : Effect) (w : World) : World :=
  {| states := states w; results := results w; resources := resources w;
     promises := promises w; destroyables := destroyables w;
     microtasks := microtasks w; trace := trace w ++ [e]; next := next w; DEBUG := DEBUG w |}.

Definition bump (w : World) : World :=
  {| states := states w; results := results w; resources := resources w;
     promises := promises w; destroyables := destroyables w;
     microtasks := microtasks w; trace := trace w; next := S (next w); DEBUG := DEBUG w |}.

Definition enqueue (j : Job) : World → World := with_microtasks (λ q, q ++ [j]).

Definition isDestroyed (w : World) (o : Ref) : bool :=
  Destroyable.isDestroyed (destroyables w) o.
Definition isDestroying (w : World) (o : Ref) : bool :=
  Destroyable.isDestroying (destroyables w) o.
Definition destroy (o : Ref) : World → World :=
  with_destroyables (Destroyable.destroy o).
Definition associateDestroyableChild (parent child : Ref) : World → World :=
  with_destroyables (Destroyable.associateDestroyableChild parent child).

(** *** Promise operations *)

Definition promise_settled (w : World) (p : nat) : option Settlement :=
  match promises w !! p with Some o => settled o | None => None end.

Definition promise_reactions (w : World) (p : nat) : list nat :=
  match promises w !! p with Some o => reactions o | None => [] end.

(** [p.then(onFulfilled, onRejected)] with the two callbacks of
    TrackedAsyncData [d]. *)
Definition promise_then (p d : nat) (w : World) : World :=
  match promise_settled w p with
  | Some o => enqueue (JobSettled d o) w
  | None =>
      with_promises
        <[p := {| settled := None; reactions := promise_reactions w p ++ [d] |}]> w
  end.

(** The producer of [p] resolves or rejects it; a second settlement is
    ignored. *)
Definition promise_settle (p : nat) (o : Settlement) (w : World) : World :=
  match promise_settled w p with
  | Some _ => w
  | None =>
      with_microtasks (λ q, q ++ ((λ d, JobSettled d o) <$> promise_reactions w p))
        (with_promises <[p := {| settled := Some o; reactions := [] |}]> w)
  end.

Definition settle_all (l : list (nat * Settlement)) (w : World) : World :=
  foldl (λ w s, promise_settle s.1 s.2 w) w l.

(** ** [TrackedAsyncData] ([ember-async-data])

    The package is a dependency, not part of the repository; this is the part
    of its class that [State] uses.  The constructor takes the resolved
    branch at once for an argument that is not a promise (no other object is
    taken to have a [then] method), and otherwise registers two callbacks on
    the promise, which store the outcome when they run.  Read in another
    state than the matching one, its [value] and [error] accessors answer
    null: version 1 of the package, which [package.json] asks for, logs a
    deprecation there in a development build and throws in neither build.
    The class takes no part in the destroyable graph. *)
Module TrackedAsyncData.

Definition state (t : TrackedAsyncDataObj) : StateName :=
  match tdata t with
  | IsPending => PENDING
  | IsResolved _ => RESOLVED
  | IsRejected _ => REJECTED
  end.

Definition isPending (t : TrackedAsyncDataObj) : bool := bool_decide (state t = PENDING).
Definition isResolved (t : TrackedAsyncDataObj) : bool := bool_decide (state t = RESOLVED).
Definition isRejected (t : TrackedAsyncDataObj) : bool := bool_decide (state t = REJECTED).

(** The build decides only whether the deprecation is logged. *)
Definition value (debug : bool) (t : TrackedAsyncDataObj) : Completion JsVal :=
  match tdata t with
  | IsResolved v => Normal v
  | _ => Normal JNull
  end.

Definition error (debug : bool) (t : TrackedAsyncDataObj) : Completion JsVal :=
  match tdata t with
  | IsRejected e => Normal e
  | _ => Normal JNull
  end.

(** [new TrackedAsyncData(arg)] *)
Definition new (arg : JsVal) (w : World) : nat * World :=
  let d := next w in
  let w := emit (Construct d arg) (bump w) in
  match arg with
  | JPromise p =>
      (d, promise_then p d
            (with_results <[d := {| tdata := IsPending; tsource := arg |}]> w))
  | _ =>
      (d, with_results <[d := {| tdata := IsResolved arg; tsource := arg |}]> w)
  end.

(** The two callbacks handed to [then]: each stores its outcome, whatever
    the instance's state or lifecycle. *)
Definition on_settled (d : nat) (o : Settlement) : World → World :=
  with_results
    (alter (λ t, {| tdata := match o with
                             | Fulfilled v => IsResolved v
                             | Rejected e => IsRejected e
                             end;
                    tsource := tsource t |}) d).

End TrackedAsyncData.

(** ** [class State] *)
Module State.

(** [new State(fn)] *)
Definition new (f : SourceFn) (w : World) : nat * World :=
  let this := next w in
  (this, with_states
           <[this := {| data := None; promise := JUndefined; fn := f; calls := 0 |}]>
           (bump w)).

(** Reading [this.data]: [Some None] is null, [Some (Some t)] the instance
    the field points at; [None] only when [this] or that instance is not in
    the store. *)
Definition get_data (w : World) (this : nat) : option (option TrackedAsyncDataObj) :=
  st ← states w !! this;
  match data st with
  | None => Some None
  | Some d => Some <$> results w !! d
  end.

(** [this.data?.state ?? 'UNSTARTED'] *)
Definition state (w : World) (this : nat) : option StateName :=
  o ← get_data w this;
  Some (default UNSTARTED (TrackedAsyncData.state <$> o)).

(** [if (!this.data) return true; return this.data.isPending ?? false] *)
Definition isPending (w : World) (this : nat) : option bool :=
  o ← get_data w this;
  Some (match o with
        | None => true
        | Some t => TrackedAsyncData.isPending t
        end).

(** [this.data?.isResolved ?? false] *)
Definition isResolved (w : World) (this : nat) : option bool :=
  o ← get_data w this;
  Some (default false (TrackedAsyncData.isResolved <$> o)).

(** [this.data?.isRejected ?? false] *)
Definition isRejected (w : World) (this : nat) : option bool :=
  o ← get_data w this;
  Some (default false (TrackedAsyncData.isRejected <$> o)).

(** [this.isResolved || this.isRejected] *)
Definition isFinished (w : World) (this : nat) : option bool :=
  a ← isResolved w this;
  (if a : bool then Some true else isRejected w this).

Definition isSettled (w : World) (this : nat) : option bool := isFinished w this.
Definition isLoading (w : World) (this : nat) : option bool := isPending w this.
Definition isError (w : World) (this : nat) : option bool := isRejected w this.

(** [if (this.data?.isResolved) return this.data.value; return null] *)
Definition value (w : World) (this : nat) : option (Completion JsVal) :=
  o ← get_data w this;
  Some (match o with
        | Some t =>
            if TrackedAsyncData.isResolved t
            then TrackedAsyncData.value (DEBUG w) t
            else Normal JNull
        | None => Normal JNull
        end).

(** [this.data?.error ?? null] *)
Definition error (w : World) (this : nat) : option (Completion JsVal) :=
  o ← get_data w this;
  Some (match o with
        | Some t =>
            match TrackedAsyncData.error (DEBUG w) t with
            | Normal e => Normal (nullish e JNull)
            | Throw x => Throw x
            end
        | None => Normal JNull
        end).

Definition set_data (this : nat) (d : option nat) (w : World) : World :=
  emit (SetData this d)
    (with_states
       (alter (λ st, {| data := d; promise := promise st; fn := fn st; calls := calls st |})
              this) w).

Definition set_promise (this : nat) (v : JsVal) (w : World) : World :=
  emit (SetPromise this v)
    (with_states
       (alter (λ st, {| data := data st; promise := v; fn := fn st; calls := calls st |})
              this) w).

(** [this.#fn()]: the call is counted, the function does what it does to
    promises, and its completion is handed back. *)
Definition call_fn (this : nat) (st : StateObj) (w : World) : Completion JsVal * World :=
  (outcome (fn st (calls st)),
   settle_all (settles (fn st (calls st)))
     (emit (CallFn this (calls st))
        (with_states
           (alter (λ st, {| data := data st; promise := promise st; fn := fn st;
                            calls := S (calls st) |}) this) w))).

(** How a call of an [async] function comes back to its caller: the promise
    it returns is already settled (the body ran to a [return] or a [throw]
    without suspending), or the body is suspended at an [await]. *)
Inductive AsyncCall :=
| Finished (c : Completion JsVal)
| Suspended.

(** [retry], up to and including [await Promise.resolve()]. *)
Definition retry (this : nat) (w : World) : option (AsyncCall * World) :=
  st ← states w !! this;
  if isDestroyed w (RefState this) || isDestroying w (RefState this)
  then Some (Finished (Normal JUndefined), w)
  else
    let '(c, w) := call_fn this st w in
    match c with
    | Throw e => Some (Finished (Throw e), w)
    | Normal v =>
        let w := set_promise this v w in
        Some (Suspended, enqueue (JobRetryResume this) (emit (Await this) w))
    end.

(** Lines 189 to 196: the previous [TrackedAsyncData], if there is one and
    it is safe to do so, is destroyed and the field set to null. *)
Definition discard_previous (this : nat) (st : StateObj) (w : World) : World :=
  match data st with
  | Some d =>
      let isUnsafe := isDestroyed w (RefTrackedAsyncData d)
                      || isDestroying w (RefTrackedAsyncData d) in
      if negb isUnsafe
      then set_data this None (destroy (RefTrackedAsyncData d) (emit (CallDestroy d) w))
      else w
  | None => w
  end.

(** [retry], from the [await] to the end; the completion is what the
    promise returned by [retry] is resolved with. *)
Definition retry_resume (this : nat) (w : World) : option (Completion JsVal * World) :=
  st ← states w !! this;
  let w := discard_previous this st w in
  if isDestroyed w (RefState this) || isDestroying w (RefState this)
  then Some (Normal JUndefined, w)
  else
    let '(d, w) := TrackedAsyncData.new (promise st) w in
    let w := set_data this (Some d) w in
    Some (Normal (promise st), w).

End State.

(** ** [trackedFunction] and the resource it returns *)

(** Running the callback that [trackedFunction] hands to [resource]:
    [state.retry()] is called, the promise it returns is dropped, and
    [state] is the result. *)
Definition run_setup (f : ResourceFunction) (w : World) : JsVal * World :=
  match f with
  | RetryAndReturn state =>
      (JObj (RefState state),
       match State.retry state w with
       | Some (_, w') => w'
       | None => w
       end)
  end.

(** Modelled from the spec: [resource] of [core/function-based], which is
    not among the sources.  Section 4.1 has [createResource(owner, fn)]
    return a handle owned by [owner], with nothing evaluated yet. *)
Definition resource (context : Ref) (f : ResourceFunction) (w : World) : nat * World :=
  let h := next w in
  (h, associateDestroyableChild context (RefResource h)
        (with_resources <[h := {| owner := context; setup := f; cache := None |}]>
           (bump w))).

(** Modelled from the spec: reading the handle's current value, section 4.1
    steps 1, 3 and 4.  With no cached value, or when a dependency changed
    ([stale]), the function runs, its result is stored as current and, when
    it is an object, associated as a destroyable child of the handle;
    otherwise the cached value is returned.  Step 2 has nothing to do here:
    the callback of [trackedFunction] registers no cleanup. *)
Definition current (stale : bool) (h : nat) (w : World) : option (JsVal * World) :=
  r ← resources w !! h;
  let evaluate :=
    let '(v, w) := run_setup (setup r) w in
    let w := with_resources
               <[h := {| owner := owner r; setup := setup r; cache := Some v |}]> w in
    (v, match v with
        | JObj o => associateDestroyableChild (RefResource h) o w
        | _ => w
        end) in
  match cache r with
  | Some v => if stale then Some evaluate else Some (v, w)
  | None => Some evaluate
  end.

(** [trackedFunction(context, fn)] *)
Definition trackedFunction (context : Ref) (f : SourceFn) (w : World) : nat * World :=
  let '(state, w) := State.new f w in
  let '(destroyable, w) := resource context (RetryAndReturn state) w in
  let w := associateDestroyableChild (RefResource destroyable) (RefState state) w in
  (destroyable, w).

(** ** The host

    Everything that happens to the wrapper from outside, one event at a
    time: JavaScript runs to completion, so each event is atomic. *)
Inductive Event :=
| CallRetry (this : nat)                   (* [state.retry()] *)
| RunMicrotask                             (* the oldest microtask runs *)
| Settle (p : nat) (o : Settlement)        (* the producer of [p] settles it *)
| Destroy (o : Ref)                        (* [destroy(o)], e.g. owner teardown *)
| FlushDestroyQueue                        (* objects being destroyed become destroyed *)
| CallTrackedFunction (context : Ref) (f : SourceFn)
| ReadCurrent (h : nat) (stale : bool).    (* a consumer reads the resource *)

Definition run_job (j : Job) (w : World) : World :=
  match j with
  | JobRetryResume this =>
      match State.retry_resume this w with
      | Some (_, w') => w'
      | None => w
      end
  | JobSettled d o => TrackedAsyncData.on_settled d o w
  end.

Definition run_microtask (w : World) : World :=
  match microtasks w with
  | [] => w
  | j :: q => run_job j (with_microtasks (λ _, q) w)
  end.

Definition step (e : Event) (w : World) : World :=
  match e with
  | CallRetry this =>
      match State.retry this w with
      | Some (_, w') => w'
      | None => w
      end
  | RunMicrotask => run_microtask w
  | Settle p o => promise_settle p o w
  | Destroy o => destroy o w
  | FlushDestroyQueue => with_destroyables Destroyable.finalize w
  | CallTrackedFunction context f => (trackedFunction context f w).2
  | ReadCurrent h stale =>
      match current stale h w with
      | Some (_, w') => w'
      | None => w
      end
  end.

Definition run (es : list Event) (w : World) : World :=
  foldl (λ w e, step e w) w es.

(** Running microtasks until none is left, for at most [fuel] jobs. *)
Fixpoint drain (fuel : nat) (w : World) : World :=
  match fuel with
  | 0 => w
  | S k =>
      match microtasks w with
      | [] => w
      | _ => drain k (run_microtask w)
      end
  end.

(** Nothing allocated, nothing queued. *)
Definition empty_world (debug : bool) : World :=
  {| states := ∅; results := ∅; resources := ∅; promises := ∅; destroyables := ∅;
     microtasks := []; trace := []; next := 0; DEBUG := debug |}.

(** ** Vocabulary of the statements *)

(** What lines 189 to 196 add to the trace when [retry] resumes in [w]. *)
Definition discard_effects (w : World) (this : nat) (st : StateObj) : list Effect :=
  match data st with
  | Some d =>
      if isDestroying w (RefTrackedAsyncData d) then []
      else [CallDestroy d; SetData this None]
  | None => []
  end.

(** What [new TrackedAsyncData(arg)] appends to the microtask queue of [w]:
    a callback at once when [arg] is a promise that is already settled. *)
Definition jobs_on_construct (w : World) (arg : JsVal) : list Job :=
  match arg with
  | JPromise p =>
      match promise_settled w p with
      | Some o => [JobSettled (next w) o]
      | None => []
      end
  | _ => []
  end.

(** And the promise store it leaves: the new instance waits on [arg] when
    that is a pending promise. *)
Definition promises_on_construct (w : World) (arg : JsVal) : gmap nat PromiseObj :=
  match arg with
  | JPromise p =>
      match promise_settled w p with
      | Some _ => promises w
      | None =>
          <[p := {| settled := None;
                    reactions := promise_reactions w p ++ [next w] |}]> (promises w)
      end
  | _ => promises w
  end.

(** The effects [w'] has added since [w]. *)
Definition effects_since (w w' : World) : list Effect :=
  drop (length (trace w)) (trace w').

(** [TrackedAsyncData] instances are private to their [State]: the host
    never calls [destroy] on one directly. *)
Definition host_event (e : Event) : Prop :=
  match e with
  | Destroy (RefTrackedAsyncData _) => False
  | _ => True
  end.

#[global] Instance host_event_dec e : Decision (host_event e).
Proof. destruct e as [| | |[]| | |]; simpl; apply _. Defined.

(** The [data] field of [State] [i], when that exists. *)
Definition data_at (w : World) (i : nat) : option (option nat) :=
  data <$> states w !! i.

(** What every world reached by host events satisfies. *)
Record wf (w : World) : Prop := {
  wf_states : ∀ i, is_Some (states w !! i) → i < next w;
  wf_results : ∀ d, is_Some (results w !! d) → d < next w;
  wf_data : ∀ i d, data_at w i = Some (Some d) →
      is_Some (results w !! d) ∧ isDestroying w (RefTrackedAsyncData d) = false;
  wf_unshared : ∀ i j d,
      data_at w i = Some (Some d) → data_at w j = Some (Some d) → i = j;
  wf_children : ∀ k d,
      RefTrackedAsyncData d ∉ Destroyable.children_of (destroyables w) k;
  wf_fresh : ∀ d, next w ≤ d → isDestroying w (RefTrackedAsyncData d) = false;
  wf_jobs : ∀ d o, JobSettled d o ∈ microtasks w → d < next w;
  wf_reactions : ∀ p d, d ∈ promise_reactions w p →
      ∃ t, results w !! d = Some t ∧ tsource t = JPromise p;
  wf_pending : ∀ d t p,
      results w !! d = Some t → tsource t = JPromise p → promise_settled w p = None →
      tdata t = IsPending ∧ ∀ o, JobSettled d o ∉ microtasks w
}.

(** [State] [this] shows the settlement of promise [p]: its current result
    was constructed from [p] and is no longer pending. *)
Definition reflects (w : World) (this p : nat) : Prop :=
  ∃ st d t, states w !! this = Some st ∧ data st = Some d
            ∧ results w !! d = Some t
            ∧ tsource t = JPromise p ∧ tdata t ≠ IsPending.

(** [p] is superseded for [State] [this]: the field [promise] holds something
    else, no later invocation returns [p], and if [data] still points at a
    result constructed from [p], that result is pending and a continuation of
    [retry] is queued ahead of every callback for it. *)
Definition superseded (w : World) (this p : nat) : Prop :=
  ∃ st, states w !! this = Some st
    ∧ promise st ≠ JPromise p
    ∧ (∀ n, calls st ≤ n → outcome (fn st n) ≠ Normal (JPromise p))
    ∧ ∀ d t, data st = Some d → results w !! d = Some t → tsource t = JPromise p →
        tdata t = IsPending
        ∧ ∃ q1 q2, microtasks w = q1 ++ JobRetryResume this :: q2
                   ∧ ∀ o, JobSettled d o ∉ q1.

(** Resource [h] is the one [trackedFunction] made for [State] [s], and
    whatever it has cached is that [State]. *)
Definition serves (w : World) (h s : nat) : Prop :=
  h < next w
  ∧ ∃ r, resources w !! h = Some r
    ∧ setup r = RetryAndReturn s
    ∧ (cache r = None ∨ cache r = Some (JObj (RefState s))).

(** ** Worlds used to exercise the statements below *)

(** A source function that hands out a new pending promise at each call:
    promise 10, then 11, and so on. *)
Definition new_promise_each_call : SourceFn := λ n, returning (JPromise (10 + n)).

(** Invocation A: component 0 calls [trackedFunction] ([State] 0, resource
    1), the resource is read, and the continuation of [retry] constructs
    result 2 from promise 10. *)
Definition invocation_A : list Event :=
  [CallTrackedFunction (RefObject 0) new_promise_each_call;
   ReadCurrent 1 false;
   RunMicrotask].

(** After invocation B has started: promise 10 is fulfilled, then the queue
    drains, then promise 11 is fulfilled and the queue drains again. *)
Definition settlements : list Event :=
  [Settle 10 (Fulfilled (JNum 1)); RunMicrotask; RunMicrotask;
   Settle 11 (Fulfilled (JNum 2)); RunMicrotask].

(** A source function that, like one that cancels its previous request,
    first resolves the promise it returned last time, and then hands out a
    new pending promise: promise 10, then 11, and so on. *)
Definition cancels_previous : SourceFn :=
  λ n, {| settles := match n with
                     | 0 => []
                     | S k => [(10 + k, Fulfilled (JStr "cancelled"))]
                     end;
          outcome := Normal (JPromise (10 + n)) |}.

(** Invocation A with that function: [State] 0, resource 1, and result 2
    constructed from promise 10. *)
Definition cancelling_A : list Event :=
  [CallTrackedFunction (RefObject 0) cancels_previous;
   ReadCurrent 1 false;
   RunMicrotask].

(** Invocation B starts, and while its continuation is queued the previous
    result and then the [State] are destroyed from outside; promise 10 is
    fulfilled after the continuation has run. *)
Definition destroyed_from_outside : list Event :=
  invocation_A
  ++ [CallRetry 0;
      Destroy (RefTrackedAsyncData 2); Destroy (RefState 0);
      RunMicrotask;
      Settle 10 (Fulfilled (JNum 1)); RunMicrotask].

(** [retry] called twice before any microtask runs, then both
    continuations. *)
Definition overlapping_calls : list Event :=
  [CallTrackedFunction (RefObject 0) new_promise_each_call;
   CallRetry 0; CallRetry 0; RunMicrotask; RunMicrotask].

(** A source function in the style of [() => Promise.resolve(42)]: promise
    7 is fulfilled with 42 before it is handed out. *)
Definition returns_promise_7 : SourceFn := λ _, returning (JPromise 7).

Definition throws_boom : SourceFn := λ _, throwing (JStr "boom").

(** Promise 7 fulfilled with 42, nothing else. *)
Definition world_with_42 : World :=
  promise_settle 7 (Fulfilled (JNum 42)) (empty_world true).

(** A [State] (index 0) freshly made for [returns_promise_7]. *)
Definition fresh_state_world : World := (State.new returns_promise_7 world_with_42).2.

(** The same [State] after [retry] ran and the microtask queue drained. *)
Definition resolved_world : World :=
  drain 5 (step (CallRetry 0) fresh_state_world).

(** Promise 8 is still pending when the [State] (index 0) wraps it. *)
Definition pending_world : World :=
  drain 5 (step (CallRetry 0) (State.new (λ _, returning (JPromise 8)) (empty_world true)).2).

(** Promise 8 is then rejected and the callback has run. *)
Definition rejected_world : World :=
  drain 5 (step (Settle 8 (Rejected (JStr "no"))) pending_world).

(** A second [State] (index 2), whose source function throws. *)
Definition throwing_world : World := (State.new throws_boom resolved_world).2.

(** [retry] is called again on the resolved [State] 0, and the [State] is
    destroyed before the continuation runs. *)
Definition destroyed_during_yield : World :=
  step (Destroy (RefState 0)) (step (CallRetry 0) resolved_world).

(** [retry] is called again on the resolved [State] 0; its previous result
    (index 1) is live and the continuation is still queued. *)
Definition retried_world : World := step (CallRetry 0) resolved_world.


(** [trackedFunction] called by component 0: the [State] has index 0, the
    resource index 1. *)
Definition tracked_world : World :=
  (trackedFunction (RefObject 0) returns_promise_7 world_with_42).2.

(** The component is destroyed after the resource has been read once and
    the queue has drained. *)
Definition torn_down_world : World :=
  step (Destroy (RefObject 0)) (drain 5 (step (ReadCurrent 1 false) tracked_world)).

(** ** Vocabulary of the further properties *)

(** The value returned by the latest of the first [k] invocations of [f]
    that returned at all; undefined when every one of them threw. *)
Fixpoint last_returned (f : SourceFn) (k : nat) : JsVal :=
  match k with
  | 0 => JUndefined
  | S n =>
      match outcome (f n) with
      | Normal v => v
      | Throw _ => last_returned f n
      end
  end.

(** One of the first [k] invocations of [f] returned [v]. *)
Definition returned (f : SourceFn) (k : nat) (v : JsVal) : Prop :=
  ∃ n, n < k ∧ outcome (f n) = Normal v.

(** Each of the first [k] invocations of [f] threw. *)
Definition never_returned (f : SourceFn) (k : nat) : Prop :=
  ∀ n, n < k → ∃ e, outcome (f n) = Throw e.

(** What a [TrackedAsyncData] constructed from [src] holds once every
    callback registered on [src] has run. *)
Definition mirror (w : World) (src : JsVal) : AsyncData :=
  match src with
  | JPromise p =>
      match promise_settled w p with
      | None => IsPending
      | Some (Fulfilled v) => IsResolved v
      | Some (Rejected e) => IsRejected e
      end
  | v => IsResolved v
  end.

(** Result [d] shows what its constructor's argument has come to, or is
    still pending with the callback that will store the outcome queued. *)
Definition shows_source (w : World) (d : nat) (t : TrackedAsyncDataObj) : Prop :=
  tdata t = mirror w (tsource t)
  ∨ (tdata t = IsPending
     ∧ ∃ p o, tsource t = JPromise p ∧ promise_settled w p = Some o
              ∧ JobSettled d o ∈ microtasks w).

(** Results, promises and queued callbacks agree with each other. *)
Record results_coherent (w : World) : Prop := {
  rc_subscribed : ∀ d t p,
      results w !! d = Some t → tsource t = JPromise p → promise_settled w p = None →
      d ∈ promise_reactions w p;
  rc_jobs : ∀ d o, JobSettled d o ∈ microtasks w →
      ∃ t p, results w !! d = Some t ∧ tsource t = JPromise p
             ∧ promise_settled w p = Some o;
  rc_shown : ∀ d t, results w !! d = Some t → shows_source w d t
}.

(** The fields of [State] [i] agree with the history of its source
    function and with the queue. *)
Record state_coherent_at (w : World) (i : nat) (st : StateObj) : Prop := {
  sc_promise : promise st = last_returned (fn st) (calls st);
  sc_queued : JobRetryResume i ∈ microtasks w → returned (fn st) (calls st) (promise st);
  sc_origin : ∀ d t, data st = Some d → results w !! d = Some t →
      returned (fn st) (calls st) (tsource t);
  sc_current : ∀ d t, data st = Some d → results w !! d = Some t →
      tsource t = promise st ∨ JobRetryResume i ∈ microtasks w;
  sc_unstarted : data st = None →
      isDestroying w (RefState i) = true
      ∨ JobRetryResume i ∈ microtasks w
      ∨ never_returned (fn st) (calls st)
}.

Record state_coherent (w : World) : Prop := {
  sc_scoped : ∀ i, JobRetryResume i ∈ microtasks w → is_Some (states w !! i);
  sc_states : ∀ i st, states w !! i = Some st → state_coherent_at w i st
}.

(** [child] is in destruction whenever [parent] is, and until it is in
    destruction itself it is registered as a destroyable child of
    [parent]. *)
Definition tied (w : World) (parent child : Ref) : Prop :=
  (isDestroying w parent = true → isDestroying w child = true)
  ∧ (isDestroying w child = false →
     child ∈ Destroyable.children_of (destroyables w) parent).

(** An upper bound on the number of jobs that run before the queue is
    empty: a continuation of [retry] queues at most one callback, a callback
    queues nothing. *)
Definition job_weight (j : Job) : nat :=
  match j with
  | JobRetryResume _ => 2
  | JobSettled _ _ => 1
  end.

Fixpoint jobs_weight (q : list Job) : nat :=
  match q with
  | [] => 0
  | j :: q => job_weight j + jobs_weight q
  end.

Definition queue_weight (w : World) : nat := jobs_weight (microtasks w).

(** Effect [x] is [State] [i] doing something of its own accord: calling
    its source function, assigning [promise], suspending, or storing a new
    result.  Dropping the previous result is not among these. *)
Definition acts_on (x : Effect) (i : nat) : Prop :=
  match x with
  | CallFn j _ | SetPromise j _ | Await j | SetData j (Some _) => j = i
  | _ => False
  end.

(** ** Further worlds and runs of the host *)

(** Component 0 calls [trackedFunction] with a source function that throws
    ([State] 0, resource 1), and [retry] is called twice. *)
Definition throwing_twice : list Event :=
  [CallTrackedFunction (RefObject 0) throws_boom; CallRetry 0; CallRetry 0].

(** After invocation A, [retry] is called again, and the promise it
    returns this time (promise 11) is fulfilled at once; the continuation
    has not run yet. *)
Definition second_call_fulfilled : list Event :=
  invocation_A ++ [CallRetry 0; Settle 11 (Fulfilled (JNum 9))].

(** After invocation A, promise 10 is fulfilled and its callback has
    run. *)
Definition first_call_fulfilled : list Event :=
  invocation_A ++ [Settle 10 (Fulfilled (JNum 5)); RunMicrotask].

(** * Properties *)

(** ** The accessors *)

Lemma get_data_null w this st :
  states w !! this = Some st → data st = None → State.get_data w this = Some None.
Proof. intros Hs Hd. unfold State.get_data. rewrite Hs. simpl. by rewrite Hd. Qed.

Lemma get_data_some w this st d t :
  states w !! this = Some st → data st = Some d → results w !! d = Some t →
  State.get_data w this = Some (Some t).
Proof.
  intros Hs Hd Ht. unfold State.get_data. rewrite Hs. simpl. rewrite Hd, Ht. done.
Qed.

(** C9. Before any invocation has produced a [TrackedAsyncData] ([data] is
    null), [isPending] answers true although [state] reads UNSTARTED; and in
    every world [isPending] is true exactly when [state] is UNSTARTED or
    PENDING, so it is false only once the current result is RESOLVED or
    REJECTED. *)
Theorem isPending_covers_unstarted (w : World) (this : nat) :
  (∀ st, states w !! this = Some st → data st = None →
     State.isPending w this = Some true ∧ State.state w this = Some UNSTARTED)
  ∧ State.isPending w this
    = (λ s, bool_decide (s = UNSTARTED ∨ s = PENDING)) <$> State.state w this
  ∧ (∀ s, State.state w this = Some s →
       (State.isPending w this = Some false ↔ s = RESOLVED ∨ s = REJECTED)).
Proof.
  assert (Heq : State.isPending w this
    = (λ s, bool_decide (s = UNSTARTED ∨ s = PENDING)) <$> State.state w this).
  { unfold State.isPending, State.state.
    destruct (State.get_data w this) as [[t|]|]; simpl; try done.
    unfold TrackedAsyncData.isPending, TrackedAsyncData.state.
    by destruct (tdata t). }
  split; [|split; [exact Heq|]].
  - intros st Hs Hd. unfold State.isPending, State.state.
    by rewrite (get_data_null _ _ _ Hs Hd).
  - intros s Hs. rewrite Heq, Hs. destruct s; vm_compute; split; intros H;
      try done; try (by left); try (by right); by destruct H.
Qed.

Lemma isPending_covers_unstarted_witness :
  (State.isPending fresh_state_world 0 = Some true
   ∧ State.state fresh_state_world 0 = Some UNSTARTED)
  ∧ (State.isPending resolved_world 0 = Some false
     ↔ RESOLVED = RESOLVED ∨ RESOLVED = REJECTED).
Proof.
  destruct (isPending_covers_unstarted fresh_state_world 0) as (H1 & _ & _).
  destruct (isPending_covers_unstarted resolved_world 0) as (_ & _ & H3).
  split.
  - apply (H1 {| data := None; promise := JUndefined; fn := returns_promise_7;
                 calls := 0 |}); vm_compute; reflexivity.
  - apply H3. vm_compute. reflexivity.
Defined.

(** C10. [value] and [error] are total at the public interface: [value]
    never fails, even in a build where [TrackedAsyncData] asserts on a read
    in the wrong state, and is null whenever the current result is absent or
    not resolved (UNSTARTED, PENDING, REJECTED); [error] is null whenever no
    async result exists. *)
Theorem value_and_error_total (w : World) (this : nat) :
  (∀ c, State.value w this = Some c → ∃ v, c = Normal v)
  ∧ (∀ s, State.state w this = Some s → s ≠ RESOLVED →
       State.value w this = Some (Normal JNull))
  ∧ (∀ st, states w !! this = Some st → data st = None →
       State.value w this = Some (Normal JNull)
       ∧ State.error w this = Some (Normal JNull)).
Proof.
  split; [|split].
  - unfold State.value. intros c.
    destruct (State.get_data w this) as [[t|]|]; simpl; intros [= <-]; eauto.
    unfold TrackedAsyncData.isResolved, TrackedAsyncData.state, TrackedAsyncData.value.
    destruct (tdata t); simpl; eauto.
  - unfold State.value, State.state. intros s.
    destruct (State.get_data w this) as [[t|]|]; simpl; intros [= <-] Hne; try done.
    unfold TrackedAsyncData.isResolved, TrackedAsyncData.state in *.
    by destruct (tdata t).
  - intros st Hs Hd. unfold State.value, State.error.
    by rewrite (get_data_null _ _ _ Hs Hd).
Qed.

Lemma value_and_error_total_witness :
  (∃ v, Normal (JNum 42) = Normal v)
  ∧ State.value pending_world 0 = Some (Normal JNull)
  ∧ State.value rejected_world 0 = Some (Normal JNull)
  ∧ State.value fresh_state_world 0 = Some (Normal JNull)
  ∧ State.error fresh_state_world 0 = Some (Normal JNull).
Proof.
  destruct (value_and_error_total resolved_world 0) as (H1 & _ & _).
  destruct (value_and_error_total pending_world 0) as (_ & H2 & _).
  destruct (value_and_error_total rejected_world 0) as (_ & H3 & _).
  destruct (value_and_error_total fresh_state_world 0) as (_ & _ & H4).
  split; [apply H1; vm_compute; reflexivity|].
  split; [apply (H2 PENDING); [vm_compute; reflexivity | discriminate]|].
  split; [apply (H3 REJECTED); [vm_compute; reflexivity | discriminate]|].
  apply (H4 {| data := None; promise := JUndefined; fn := returns_promise_7;
               calls := 0 |}); vm_compute; reflexivity.
Defined.

(** ** The destroyable graph *)

Lemma isDestroyed_isDestroying w o : isDestroyed w o = true → isDestroying w o = true.
Proof.
  unfold isDestroyed, isDestroying, Destroyable.isDestroyed, Destroyable.isDestroying.
  by destruct (Destroyable.lifecycle _ _).
Qed.

Lemma destroyed_check w o :
  isDestroyed w o || isDestroying w o = isDestroying w o.
Proof.
  destruct (isDestroyed w o) eqn:E; [|done].
  by rewrite (isDestroyed_isDestroying _ _ E).
Qed.

(** ** [retry], the synchronous part *)

Lemma get_data_ext w w' this st :
  states w !! this = Some st →
  data <$> states w' !! this = Some (data st) →
  results w' = results w →
  State.get_data w' this = State.get_data w this.
Proof.
  intros Hs Hs' Hr. unfold State.get_data. rewrite Hs, Hr.
  destruct (states w' !! this) as [st'|]; simpl in *; [|done].
  by injection Hs' as ->.
Qed.

Lemma promise_settle_frame p o w :
  states (promise_settle p o w) = states w
  ∧ results (promise_settle p o w) = results w
  ∧ resources (promise_settle p o w) = resources w
  ∧ destroyables (promise_settle p o w) = destroyables w
  ∧ trace (promise_settle p o w) = trace w
  ∧ next (promise_settle p o w) = next w
  ∧ DEBUG (promise_settle p o w) = DEBUG w
  ∧ ∃ q, microtasks (promise_settle p o w) = microtasks w ++ q
         ∧ ∀ j, j ∈ q → ∃ d, j = JobSettled d o.
Proof.
  unfold promise_settle. destruct (promise_settled w p); simpl.
  - repeat split; try done. exists []. split; [by rewrite app_nil_r|].
    by intros j ?%elem_of_nil.
  - repeat split; try done. eexists. split; [done|].
    intros j (d & -> & _)%list_elem_of_fmap. eauto.
Qed.

(** What the source function does to promises touches nothing of the
    wrapper; it only queues callbacks. *)
Lemma settle_all_frame l w :
  states (settle_all l w) = states w
  ∧ results (settle_all l w) = results w
  ∧ resources (settle_all l w) = resources w
  ∧ destroyables (settle_all l w) = destroyables w
  ∧ trace (settle_all l w) = trace w
  ∧ next (settle_all l w) = next w
  ∧ DEBUG (settle_all l w) = DEBUG w
  ∧ ∃ q, microtasks (settle_all l w) = microtasks w ++ q
         ∧ ∀ j, j ∈ q → ∃ d o, j = JobSettled d o.
Proof.
  revert w. induction l as [|[p o] l IH]; intros w.
  - repeat split; try done. exists []. split; [by rewrite app_nil_r|].
    by intros j ?%elem_of_nil.
  - change (settle_all ((p, o) :: l) w) with (settle_all l (promise_settle p o w)).
    destruct (IH (promise_settle p o w))
      as (-> & -> & -> & -> & -> & -> & -> & q2 & -> & Hq2).
    destruct (promise_settle_frame p o w)
      as (-> & -> & -> & -> & -> & -> & -> & q1 & -> & Hq1).
    repeat split; try done. exists (q1 ++ q2). split; [by rewrite app_assoc|].
    intros j [Hj|Hj]%elem_of_app; [|by apply Hq2].
    destruct (Hq1 j Hj) as [d ->]. eauto.
Qed.

(** And what it does to promises and to the queue depends on nothing
    else. *)
Lemma settle_all_ext l w1 w2 :
  promises w1 = promises w2 → microtasks w1 = microtasks w2 →
  promises (settle_all l w1) = promises (settle_all l w2)
  ∧ microtasks (settle_all l w1) = microtasks (settle_all l w2).
Proof.
  revert w1 w2. induction l as [|[p o] l IH]; intros w1 w2 Hp Hq; [done|].
  change (settle_all ((p, o) :: l) ?w) with (settle_all l (promise_settle p o w)).
  apply IH; unfold promise_settle, promise_settled, promise_reactions; rewrite Hp;
    destruct (promises w2 !! p) as [[[?|] ?]|]; simpl; by rewrite ?Hp, ?Hq.
Qed.

(** The world in which the source function has run, seen from [w]. *)
Lemma call_fn_frame this st w :
  let w' := (State.call_fn this st w).2 in
  (State.call_fn this st w).1 = outcome (fn st (calls st))
  ∧ states w'
    = alter (λ st, {| data := data st; promise := promise st; fn := fn st;
                      calls := S (calls st) |}) this (states w)
  ∧ results w' = results w
  ∧ resources w' = resources w
  ∧ destroyables w' = destroyables w
  ∧ trace w' = trace w ++ [CallFn this (calls st)]
  ∧ next w' = next w
  ∧ DEBUG w' = DEBUG w
  ∧ promises w' = promises (settle_all (settles (fn st (calls st))) w)
  ∧ microtasks w' = microtasks (settle_all (settles (fn st (calls st))) w).
Proof.
  unfold State.call_fn. simpl.
  set (w0 := emit _ _).
  destruct (settle_all_frame (settles (fn st (calls st))) w0)
    as (-> & -> & -> & -> & -> & -> & -> & _).
  destruct (settle_all_ext (settles (fn st (calls st))) w0 w) as [-> ->]; [done..|].
  repeat split.
Qed.

(** C3. When the source function throws before returning anything,
    [retry] completes at once with that throw (the promise it hands to its
    caller is rejected with it, nothing is suspended), and [state], [value],
    [error] and [data] are what they were before the call: the field
    [promise] is not assigned, no result is touched, and the only jobs queued
    are callbacks of promises that the function itself settled. *)
Theorem retry_throw_commits_nothing (w : World) (this : nat) (st : StateObj) (e : JsVal) :
  states w !! this = Some st →
  isDestroying w (RefState this) = false →
  outcome (fn st (calls st)) = Throw e →
  ∃ w', State.retry this w = Some (State.Finished (Throw e), w')
        ∧ State.state w' this = State.state w this
        ∧ State.value w' this = State.value w this
        ∧ State.error w' this = State.error w this
        ∧ data <$> states w' !! this = Some (data st)
        ∧ promise <$> states w' !! this = Some (promise st)
        ∧ results w' = results w
        ∧ destroyables w' = destroyables w
        ∧ effects_since w w' = [CallFn this (calls st)]
        ∧ ∃ q, microtasks w' = microtasks w ++ q
               ∧ ∀ j, j ∈ q → ∃ d o, j = JobSettled d o.
Proof.
  intros Hs Hlive Hthrow. unfold State.retry. rewrite Hs. cbn -[State.call_fn].
  rewrite destroyed_check, Hlive.
  destruct (call_fn_frame this st w)
    as (Hc & Hst & Hr & _ & Hg & Ht & _ & Hd & _ & Hq).
  destruct (State.call_fn this st w) as [c w']. simpl in *. subst c.
  rewrite Hthrow. exists w'. split; [done|].
  assert (Hdata : data <$> states w' !! this = Some (data st)).
  { by rewrite Hst, lookup_alter_eq, Hs. }
  pose proof (get_data_ext w w' this st Hs Hdata Hr) as Hget.
  unfold State.state, State.value, State.error. rewrite Hget, Hd.
  split; [done|]. split; [done|]. split; [done|]. split; [done|].
  split; [by rewrite Hst, lookup_alter_eq, Hs|].
  split; [done|]. split; [done|].
  split; [unfold effects_since; by rewrite Ht, drop_app_length|].
  rewrite Hq.
  by destruct (settle_all_frame (settles (fn st (calls st))) w) as (_ & _ & _ & _ & _ & _ & _ & H).
Qed.

Lemma retry_throw_commits_nothing_witness :
  ∃ w', State.retry 2 throwing_world = Some (State.Finished (Throw (JStr "boom")), w')
        ∧ State.state w' 2 = State.state throwing_world 2
        ∧ State.value w' 2 = State.value throwing_world 2
        ∧ State.error w' 2 = State.error throwing_world 2
        ∧ data <$> states w' !! 2 = Some None
        ∧ promise <$> states w' !! 2 = Some JUndefined.
Proof.
  destruct (retry_throw_commits_nothing throwing_world 2
              {| data := None; promise := JUndefined; fn := throws_boom; calls := 0 |}
              (JStr "boom"))
    as (w' & H1 & H2 & H3 & H4 & H5 & H6 & _); [vm_compute; reflexivity ..|].
  exists w'. repeat split; assumption.
Defined.

(** ** Lemmas on [destroy] *)

Section destroy_facts.
Import Destroyable.
Implicit Types (g : gmap Ref Meta) (o x : Ref).

Lemma foldl_invariant {A B} (P : A → Prop) (f : A → B → A) (l : list B) (a : A) :
  P a → (∀ a b, b ∈ l → P a → P (f a b)) → P (foldl f a l).
Proof.
  revert a. induction l as [|b l IH]; intros a Ha Hf; simpl; [done|].
  apply IH.
  - apply Hf; [left | done].
  - intros a' b' Hb'. apply Hf. by right.
Qed.

Lemma children_of_mark st o g k : children_of (mark st o g) k = children_of g k.
Proof.
  unfold children_of at 1, mark. destruct (decide (o = k)) as [->|Hne].
  - by rewrite lookup_insert_eq.
  - by rewrite lookup_insert_ne.
Qed.

Lemma lifecycle_mark_eq st o g : lifecycle (mark st o g) o = st.
Proof. unfold lifecycle, mark. by rewrite lookup_insert_eq. Qed.

Lemma lifecycle_mark_ne st o g x : o ≠ x → lifecycle (mark st o g) x = lifecycle g x.
Proof. intros Hne. unfold lifecycle, mark. by rewrite lookup_insert_ne. Qed.

(** [destroy] never changes who is a child of whom. *)
Lemma destroy_from_children n o g k :
  children_of (destroy_from n o g) k = children_of g k.
Proof.
  revert o g. induction n as [|n IH]; intros o g; simpl; [done|].
  destruct (isDestroying g o); [done|].
  apply (foldl_invariant (λ a, children_of a k = children_of g k)).
  - apply children_of_mark.
  - intros a c _ Ha. by rewrite IH.
Qed.

(** It only ever moves live objects to destroying. *)
Lemma destroy_from_lifecycle n o g x :
  lifecycle (destroy_from n o g) x = lifecycle g x
  ∨ (lifecycle g x = LIVE ∧ lifecycle (destroy_from n o g) x = DESTROYING).
Proof.
  revert o g. induction n as [|n IH]; intros o g; simpl; [by left|].
  destruct (isDestroying g o) eqn:Ho; [by left|].
  apply (foldl_invariant (λ a, lifecycle a x = lifecycle g x
                               ∨ (lifecycle g x = LIVE ∧ lifecycle a x = DESTROYING))).
  - destruct (decide (o = x)) as [->|Hne].
    + right. rewrite lifecycle_mark_eq. split; [|done].
      unfold isDestroying in Ho. by destruct (lifecycle g x).
    + left. by apply lifecycle_mark_ne.
  - intros a c _ [Ha|[Hg Ha]].
    + destruct (IH c a) as [H|[H1 H2]]; [left; congruence|right].
      split; congruence.
    + destruct (IH c a) as [H|[H1 H2]]; [right; split; congruence|].
      congruence.
Qed.

Lemma destroy_from_monotone n o g x :
  isDestroying g x = true → isDestroying (destroy_from n o g) x = true.
Proof.
  unfold isDestroying. intros H.
  destruct (destroy_from_lifecycle n o g x) as [->|[Hl _]]; [done|].
  by rewrite Hl in H.
Qed.

(** The object itself is being destroyed afterwards. *)
Lemma destroy_from_self n o g : isDestroying (destroy_from (S n) o g) o = true.
Proof.
  simpl. destruct (isDestroying g o) eqn:Ho; [done|].
  apply (foldl_invariant (λ a, isDestroying a o = true)).
  - unfold isDestroying. by rewrite lifecycle_mark_eq.
  - intros a c _ Ha. by apply destroy_from_monotone.
Qed.

(** An object that is nobody's child is touched only by its own
    [destroy]. *)
Lemma destroy_from_frame n o g x :
  o ≠ x → (∀ k, x ∉ children_of g k) →
  lifecycle (destroy_from n o g) x = lifecycle g x.
Proof.
  revert o g. induction n as [|n IH]; intros o g Hne Hx; simpl; [done|].
  destruct (isDestroying g o); [done|].
  apply (foldl_invariant (λ a, lifecycle a x = lifecycle g x
                               ∧ ∀ k, children_of a k = children_of g k)).
  - split; [by apply lifecycle_mark_ne | intros k; apply children_of_mark].
  - intros a c Hc [Ha Hk]. split.
    + rewrite IH; [done| |].
      * intros ->. by apply (Hx o).
      * intros k. rewrite Hk. apply Hx.
    + intros k. by rewrite destroy_from_children.
Qed.

Lemma destroy_not_live o g : isDestroying g o = true → destroy o g = g.
Proof. intros H. unfold destroy. simpl. by rewrite H. Qed.

Lemma live_entries_le_size g : live_entries g ≤ size g.
Proof. apply map_subseteq_size, map_filter_subseteq. Qed.

Lemma live_entries_mark g o :
  live_entries (mark DESTROYING o g) ≤ live_entries g
  ∧ (is_Some (g !! o) → lifecycle g o = LIVE →
     S (live_entries (mark DESTROYING o g)) = live_entries g).
Proof.
  unfold live_entries, mark.
  rewrite map_filter_insert_False by done.
  rewrite map_filter_delete, map_size_delete.
  destruct (filter _ g !! o) as [m|] eqn:Hm; simpl.
  - split; [lia|]. intros _ _.
    assert (0 < size (filter (λ kv : Ref * Meta, mstate kv.2 = LIVE) g)); [|lia].
    destruct (decide (size (filter (λ kv : Ref * Meta, mstate kv.2 = LIVE) g) = 0))
      as [E|]; [|lia].
    apply map_size_empty_iff in E. rewrite E in Hm. by rewrite lookup_empty in Hm.
  - split; [done|]. intros [m Ho] Hlive. exfalso.
    apply map_lookup_filter_None in Hm as [Hm|Hm]; [congruence|].
    apply (Hm m Ho). unfold lifecycle in Hlive. by rewrite Ho in Hlive.
Qed.

Lemma destroy_from_fuel n :
  ∀ o g, live_entries g < n →
    (∀ m, live_entries g < m → destroy_from m o g = destroy_from n o g)
    ∧ live_entries (destroy_from n o g) ≤ live_entries g.
Proof.
  induction n as [|k IH]; intros o g Hn; [lia|].
  assert (Hfold : ∀ cs acc m, live_entries acc < k → live_entries acc < m →
            foldl (λ a c, destroy_from m c a) acc cs
            = foldl (λ a c, destroy_from k c a) acc cs
            ∧ live_entries (foldl (λ a c, destroy_from k c a) acc cs)
              ≤ live_entries acc).
  { induction cs as [|c cs IHcs]; intros acc m Hk Hm; simpl; [done|].
    destruct (IH c acc Hk) as [Heq Hle]. rewrite (Heq m Hm).
    destruct (IHcs (destroy_from k c acc) m) as [Heq' Hle']; [lia..|].
    split; [done|lia]. }
  split.
  - intros [|m] Hm; [lia|]. simpl.
    destruct (isDestroying g o) eqn:Ho; [done|].
    destruct (live_entries_mark g o) as [Hle Hdec].
    destruct (g !! o) as [mt|] eqn:Hg.
    + apply Hfold; rewrite <- Hdec in *; eauto; try lia;
        unfold isDestroying in Ho; by destruct (lifecycle g o).
    + unfold children_of. by rewrite Hg.
  - simpl. destruct (isDestroying g o) eqn:Ho; [done|].
    destruct (live_entries_mark g o) as [Hle Hdec].
    destruct (g !! o) as [mt|] eqn:Hg.
    + assert (Hlive : lifecycle g o = LIVE).
      { unfold isDestroying in Ho. by destruct (lifecycle g o). }
      specialize (Hdec (mk_is_Some _ _ eq_refl) Hlive).
      destruct (Hfold (children_of g o) (mark DESTROYING o g) k) as [_ H]; lia.
    + unfold children_of. rewrite Hg. simpl. done.
Qed.

(** More fuel than [destroy] supplies changes nothing: the cascade has
    always run to its end. *)
Lemma destroy_fuel_enough n o g : size g < n → destroy_from n o g = destroy o g.
Proof.
  intros Hn. pose proof (live_entries_le_size g).
  unfold destroy. apply (destroy_from_fuel (S (size g)) o g); lia.
Qed.

End destroy_facts.

Lemma destroy_world_not_live w o : isDestroying w o = true → destroy o w = w.
Proof.
  intros H. unfold destroy, with_destroyables.
  rewrite (destroy_not_live o (destroyables w) H). by destruct w.
Qed.

Lemma isDestroying_destroy_self w o : isDestroying (destroy o w) o = true.
Proof. apply destroy_from_self. Qed.

Lemma isDestroying_destroy_monotone w o x :
  isDestroying w x = true → isDestroying (destroy o w) x = true.
Proof. apply destroy_from_monotone. Qed.

(** ** [retry], the continuation *)

(** Closes [x ∉ [a; b; ...]] when [x] differs from each by its constructor. *)
Ltac not_listed :=
  let H := fresh in
  intros H;
  repeat (apply elem_of_cons in H as [H|H]; [discriminate H|]);
  by apply elem_of_nil in H.

Lemma new_fst arg w : (TrackedAsyncData.new arg w).1 = next w.
Proof. unfold TrackedAsyncData.new. by destruct arg. Qed.

Lemma promise_then_frame p d w :
  states (promise_then p d w) = states w
  ∧ results (promise_then p d w) = results w
  ∧ destroyables (promise_then p d w) = destroyables w
  ∧ trace (promise_then p d w) = trace w
  ∧ next (promise_then p d w) = next w
  ∧ DEBUG (promise_then p d w) = DEBUG w.
Proof. unfold promise_then. by destruct (promise_settled w p). Qed.

Lemma new_frame arg w :
  let w' := (TrackedAsyncData.new arg w).2 in
  states w' = states w
  ∧ destroyables w' = destroyables w
  ∧ trace w' = trace w ++ [Construct (next w) arg]
  ∧ next w' = S (next w)
  ∧ DEBUG w' = DEBUG w
  ∧ results w'
    = <[next w := {| tdata := match arg with JPromise _ => IsPending | _ => IsResolved arg end;
                     tsource := arg |}]> (results w).
Proof.
  unfold TrackedAsyncData.new.
  destruct arg; simpl; try done.
  destruct (promise_then_frame p (next w)
    (with_results <[next w := {| tdata := IsPending; tsource := JPromise p |}]>
       (emit (Construct (next w) (JPromise p)) (bump w)))) as (-> & -> & -> & -> & -> & ->).
  done.
Qed.

Lemma discard_previous_frame w this st :
  let w' := State.discard_previous this st w in
  results w' = results w
  ∧ promises w' = promises w
  ∧ microtasks w' = microtasks w
  ∧ next w' = next w
  ∧ DEBUG w' = DEBUG w
  ∧ trace w' = trace w ++ discard_effects w this st.
Proof.
  unfold State.discard_previous, discard_effects.
  destruct (data st) as [d|]; simpl; [|by rewrite app_nil_r].
  rewrite destroyed_check.
  destruct (isDestroying w (RefTrackedAsyncData d)); simpl;
    [by rewrite app_nil_r | by rewrite <- app_assoc].
Qed.

Lemma discard_previous_states w this st :
  states w !! this = Some st →
  states (State.discard_previous this st w) !! this
  = Some {| data := match data st with
                    | Some d => if isDestroying w (RefTrackedAsyncData d)
                                then Some d else None
                    | None => None
                    end;
            promise := promise st; fn := fn st; calls := calls st |}.
Proof.
  intros Hs. unfold State.discard_previous.
  destruct (data st) as [d|] eqn:Hd; simpl.
  - rewrite destroyed_check.
    destruct (isDestroying w (RefTrackedAsyncData d)); simpl.
    + rewrite Hs. destruct st; simpl in *. by subst.
    + by rewrite lookup_alter_eq, Hs.
  - rewrite Hs. destruct st; simpl in *. by subst.
Qed.

Lemma discard_previous_monotone w this st x :
  isDestroying w x = true → isDestroying (State.discard_previous this st w) x = true.
Proof.
  intros H. unfold State.discard_previous.
  destruct (data st) as [d|]; [|done].
  destruct (negb _); [|done].
  apply (isDestroying_destroy_monotone (emit (CallDestroy d) w)). exact H.
Qed.

Lemma retry_resume_unfold w this st :
  states w !! this = Some st →
  State.retry_resume this w =
    let w1 := State.discard_previous this st w in
    if isDestroying w1 (RefState this) then Some (Normal JUndefined, w1)
    else Some (Normal (promise st),
               State.set_data this (Some (next w1))
                 (TrackedAsyncData.new (promise st) w1).2).
Proof.
  intros Hs. unfold State.retry_resume. rewrite Hs. simpl.
  rewrite destroyed_check.
  destruct (isDestroying _ (RefState this)); [done|].
  pose proof (new_fst (promise st) (State.discard_previous this st w)) as Hn.
  destruct (TrackedAsyncData.new _ _) as [d w2]. simpl in Hn. by subst d.
Qed.

(** C4. If the [State] is destroyed or being destroyed when the
    continuation of [retry] runs, it returns without constructing anything:
    no [TrackedAsyncData] is allocated, nothing is queued, and the only
    effects are those of discarding the previous result, so [data] is null
    or what it was. *)
Theorem resume_aborts_when_destroyed (w : World) (this : nat) (st : StateObj) :
  states w !! this = Some st →
  isDestroying w (RefState this) = true →
  ∃ w', State.retry_resume this w = Some (Normal JUndefined, w')
        ∧ results w' = results w
        ∧ next w' = next w
        ∧ microtasks w' = microtasks w
        ∧ effects_since w w' = discard_effects w this st
        ∧ (∀ d arg, Construct d arg ∉ effects_since w w')
        ∧ (∀ d, SetData this (Some d) ∉ effects_since w w')
        ∧ (∃ st', states w' !! this = Some st'
                  ∧ (data st' = None ∨ data st' = data st)).
Proof.
  intros Hs Hdead. rewrite (retry_resume_unfold _ _ _ Hs). simpl.
  rewrite (discard_previous_monotone _ this st _ Hdead).
  eexists. split; [reflexivity|].
  destruct (discard_previous_frame w this st) as (Hr & _ & Hq & Hn & _ & Ht).
  assert (He : effects_since w (State.discard_previous this st w)
               = discard_effects w this st).
  { unfold effects_since. rewrite Ht. by rewrite drop_app_length. }
  rewrite He. repeat split; try done.
  - intros d arg. unfold discard_effects.
    destruct (data st) as [p|];
      [destruct (isDestroying w (RefTrackedAsyncData p))|]; not_listed.
  - intros d. unfold discard_effects.
    destruct (data st) as [p|];
      [destruct (isDestroying w (RefTrackedAsyncData p))|]; not_listed.
  - rewrite (discard_previous_states _ _ _ Hs). eexists. split; [done|]. simpl.
    destruct (data st) as [p|];
      [destruct (isDestroying w (RefTrackedAsyncData p))|]; auto.
Qed.

Lemma resume_aborts_when_destroyed_witness :
  isDestroying destroyed_during_yield (RefState 0) = true
  ∧ ∃ w', State.retry_resume 0 destroyed_during_yield = Some (Normal JUndefined, w')
          ∧ results w' = results destroyed_during_yield
          ∧ effects_since destroyed_during_yield w' = [CallDestroy 1; SetData 0 None].
Proof.
  split; [vm_compute; reflexivity|].
  destruct (resume_aborts_when_destroyed destroyed_during_yield 0
              {| data := Some 1; promise := JPromise 7; fn := returns_promise_7;
                 calls := 2 |})
    as (w' & H1 & H2 & _ & _ & H3 & _); [vm_compute; reflexivity ..|].
  exists w'. split; [exact H1|]. split; [exact H2|]. exact H3.
Defined.



(** The three ways the synchronous part can go. *)
Lemma retry_cases this w r w' st :
  states w !! this = Some st →
  State.retry this w = Some (r, w') →
  (isDestroying w (RefState this) = true
   ∧ r = State.Finished (Normal JUndefined) ∧ w' = w)
  ∨ (isDestroying w (RefState this) = false
     ∧ ∃ e, outcome (fn st (calls st)) = Throw e
       ∧ r = State.Finished (Throw e) ∧ w' = (State.call_fn this st w).2)
  ∨ (isDestroying w (RefState this) = false
     ∧ ∃ v, outcome (fn st (calls st)) = Normal v
       ∧ r = State.Suspended
       ∧ w' = enqueue (JobRetryResume this)
                (emit (Await this)
                   (State.set_promise this v (State.call_fn this st w).2))).
Proof.
  intros Hs. unfold State.retry. rewrite Hs. cbn -[State.call_fn].
  rewrite destroyed_check. destruct (isDestroying w (RefState this)).
  { intros [= <- <-]. by left. }
  destruct (call_fn_frame this st w) as (Hc & _).
  destruct (State.call_fn this st w) as [c w1]. simpl in *. subst c.
  destruct (outcome (fn st (calls st))) as [v|e]; intros [= <- <-].
  - right. right. eauto.
  - right. left. eauto.
Qed.

(** The effects of the synchronous part. *)
Lemma retry_trace this w r w' st :
  states w !! this = Some st →
  State.retry this w = Some (r, w') →
  effects_since w w' = []
  ∨ effects_since w w' = [CallFn this (calls st)]
  ∨ ∃ v, effects_since w w' = [CallFn this (calls st); SetPromise this v; Await this].
Proof.
  intros Hs Hretry.
  destruct (call_fn_frame this st w) as (_ & _ & _ & _ & _ & Ht & _).
  destruct (retry_cases _ _ _ _ _ Hs Hretry)
    as [(_ & _ & ->)|[(_ & e & _ & _ & ->)|(_ & v & _ & _ & ->)]];
    unfold effects_since.
  - left. by rewrite drop_all.
  - right. left. by rewrite Ht, drop_app_length.
  - right. right. exists v. cbn -[State.call_fn].
    rewrite Ht, <- !app_assoc. by rewrite drop_app_length.
Qed.

(** What the synchronous part leaves behind when the source function
    returns. *)
Lemma retry_suspends (w : World) (this : nat) (st : StateObj) (v : JsVal) :
  states w !! this = Some st →
  isDestroying w (RefState this) = false →
  outcome (fn st (calls st)) = Normal v →
  ∃ w1, State.retry this w = Some (State.Suspended, w1)
    ∧ trace w1 = trace w ++ [CallFn this (calls st); SetPromise this v; Await this]
    ∧ microtasks w1
      = microtasks (settle_all (settles (fn st (calls st))) w) ++ [JobRetryResume this]
    ∧ states w1
      = alter (λ _, {| data := data st; promise := v; fn := fn st;
                       calls := S (calls st) |}) this (states w)
    ∧ results w1 = results w
    ∧ promises w1 = promises (settle_all (settles (fn st (calls st))) w)
    ∧ resources w1 = resources w
    ∧ destroyables w1 = destroyables w
    ∧ next w1 = next w
    ∧ DEBUG w1 = DEBUG w.
Proof.
  intros Hs Hlive Hret. unfold State.retry. rewrite Hs. cbn -[State.call_fn].
  rewrite destroyed_check, Hlive.
  destruct (call_fn_frame this st w)
    as (Hc & Hst & Hr & Hrs & Hg & Ht & Hn & Hd & Hp & Hq).
  destruct (State.call_fn this st w) as [c w']. simpl in *. subst c.
  rewrite Hret. eexists. split; [reflexivity|]. simpl.
  rewrite Ht, Hq, Hst, Hr, Hp, Hrs, Hg, Hn, Hd.
  split; [by rewrite <- !app_assoc|].
  repeat split; try done.
  apply map_eq. intros i. destruct (decide (this = i)) as [<-|Hne].
  - by rewrite !lookup_alter_eq, Hs.
  - by rewrite !lookup_alter_ne.
Qed.

(** The continuation reads [promise] when it runs: of two calls made back
    to back, the first continuation already constructs from the second
    call's promise, and the second replaces that result with another one for
    the same promise. *)
Example overlapping_calls_trace :
  trace (run overlapping_calls (empty_world true))
  = [CallFn 0 0; SetPromise 0 (JPromise 10); Await 0;
     CallFn 0 1; SetPromise 0 (JPromise 11); Await 0;
     Construct 2 (JPromise 11); SetData 0 (Some 2);
     CallDestroy 2; SetData 0 None; Construct 3 (JPromise 11); SetData 0 (Some 3)].
Proof. vm_compute. reflexivity. Qed.

(** ** Teardown *)

(** C7. Destroying what is already destroyed or being destroyed changes
    nothing, so a second [destroy] is the same as one; [retry] on a [State]
    in destruction returns at once and changes nothing; and the wrapper calls
    [destroy] only from the continuation of [retry], only on the result that
    [data] points at, and only after finding it neither destroyed nor being
    destroyed. *)
Theorem teardown_idempotent (w : World) (o : Ref) :
  (isDestroying w o = true → destroy o w = w)
  ∧ destroy o (destroy o w) = destroy o w
  ∧ (∀ this st, states w !! this = Some st →
       isDestroying w (RefState this) = true →
       State.retry this w = Some (State.Finished (Normal JUndefined), w))
  ∧ (∀ this r w' d, State.retry this w = Some (r, w') →
       CallDestroy d ∉ effects_since w w')
  ∧ (∀ this c w' d, State.retry_resume this w = Some (c, w') →
       CallDestroy d ∈ effects_since w w' →
       data <$> states w !! this = Some (Some d)
       ∧ isDestroyed w (RefTrackedAsyncData d) = false
       ∧ isDestroying w (RefTrackedAsyncData d) = false).
Proof.
  split; [apply destroy_world_not_live|].
  split; [apply destroy_world_not_live, isDestroying_destroy_self|].
  split; [|split].
  - intros this st Hs Hdead. unfold State.retry. rewrite Hs. simpl.
    by rewrite destroyed_check, Hdead.
  - intros this r w' d Hretry.
    destruct (states w !! this) as [st|] eqn:Hs;
      [|by unfold State.retry in Hretry; rewrite Hs in Hretry].
    destruct (retry_trace _ _ _ _ _ Hs Hretry) as [->|[->|[v ->]]]; not_listed.
  - intros this c w' d Hres Hin.
    destruct (states w !! this) as [st|] eqn:Hs;
      [|by unfold State.retry_resume in Hres; rewrite Hs in Hres].
    rewrite (retry_resume_unfold _ _ _ Hs) in Hres. simpl in Hres.
    destruct (discard_previous_frame w this st) as (_ & _ & _ & Hn & _ & Ht).
    assert (Hd : CallDestroy d ∈ discard_effects w this st).
    { destruct (isDestroying _ (RefState this)); injection Hres as _ <-.
      - unfold effects_since in Hin. by rewrite Ht, drop_app_length in Hin.
      - destruct (new_frame (promise st) (State.discard_previous this st w))
          as (_ & _ & Ht2 & _).
        unfold effects_since in Hin. simpl in Hin.
        rewrite Ht2, Ht, <- !app_assoc, drop_app_length in Hin.
        apply elem_of_app in Hin as [Hin|Hin]; [done|].
        exfalso. revert Hin. not_listed. }
    unfold discard_effects in Hd. simpl.
    destruct (data st) as [p|]; [|by apply elem_of_nil in Hd].
    destruct (isDestroying w (RefTrackedAsyncData p)) eqn:Hp;
      [by apply elem_of_nil in Hd|].
    apply elem_of_cons in Hd as [[= ->]|Hd].
    + split; [done|]. split; [|done].
      destruct (isDestroyed w (RefTrackedAsyncData p)) eqn:E; [|done].
      by rewrite (isDestroyed_isDestroying _ _ E) in Hp.
    + exfalso. revert Hd. not_listed.
Qed.

Lemma teardown_idempotent_witness :
  isDestroying torn_down_world (RefResource 1) = true
  ∧ destroy (RefResource 1) torn_down_world = torn_down_world
  ∧ State.retry 0 torn_down_world
    = Some (State.Finished (Normal JUndefined), torn_down_world)
  ∧ isDestroying retried_world (RefTrackedAsyncData 1) = false.
Proof.
  destruct (teardown_idempotent torn_down_world (RefResource 1)) as (H1 & _ & H3 & _).
  destruct (teardown_idempotent retried_world (RefResource 1)) as (_ & _ & _ & _ & H5).
  split; [vm_compute; reflexivity|].
  split; [apply H1; vm_compute; reflexivity|].
  split.
  - apply (H3 0 {| data := Some 2; promise := JPromise 7; fn := returns_promise_7;
                   calls := 1 |}); vm_compute; reflexivity.
  - refine (proj2 (proj2 (H5 0 (Normal (JPromise 7))
              (default retried_world (snd <$> State.retry_resume 0 retried_world))
              1 _ _))).
    + vm_compute. reflexivity.
    + vm_compute. left.
Defined.

(** ** Microtasks *)

Lemma new_queue arg w :
  microtasks (TrackedAsyncData.new arg w).2 = microtasks w ++ jobs_on_construct w arg
  ∧ promises (TrackedAsyncData.new arg w).2 = promises_on_construct w arg
  ∧ resources (TrackedAsyncData.new arg w).2 = resources w.
Proof.
  unfold TrackedAsyncData.new, jobs_on_construct, promises_on_construct.
  destruct arg; simpl; try by rewrite app_nil_r.
  unfold promise_then, promise_settled, promise_reactions. simpl.
  destruct (promises w !! p) as [[[o|] rs]|]; simpl; by rewrite ?app_nil_r.
Qed.

(** What the continuation leaves behind when the [State] passes the check
    of line 198. *)
Lemma resume_constructs (w : World) (this : nat) (st : StateObj) :
  states w !! this = Some st →
  isDestroying (State.discard_previous this st w) (RefState this) = false →
  ∃ w2, State.retry_resume this w = Some (Normal (promise st), w2)
    ∧ states w2
      = alter (λ _, {| data := Some (next w); promise := promise st; fn := fn st;
                       calls := calls st |}) this (states w)
    ∧ results w2
      = <[next w := {| tdata := match promise st with
                                | JPromise _ => IsPending
                                | _ => IsResolved (promise st)
                                end;
                       tsource := promise st |}]> (results w)
    ∧ microtasks w2 = microtasks w ++ jobs_on_construct w (promise st)
    ∧ promises w2 = promises_on_construct w (promise st)
    ∧ resources w2 = resources w
    ∧ destroyables w2 = destroyables (State.discard_previous this st w)
    ∧ next w2 = S (next w)
    ∧ DEBUG w2 = DEBUG w.
Proof.
  intros Hs Hpass. rewrite (retry_resume_unfold _ _ _ Hs). simpl. rewrite Hpass.
  destruct (discard_previous_frame w this st) as (Hr & Hp & Hq & Hn & Hd & _).
  pose proof (discard_previous_states _ _ _ Hs) as Hst.
  set (w1 := State.discard_previous this st w) in *.
  destruct (new_frame (promise st) w1) as (Hs2 & Hg2 & _ & Hn2 & Hd2 & Hr2).
  destruct (new_queue (promise st) w1) as (Hq2 & Hp2 & Hrs2).
  eexists. split; [reflexivity|]. simpl.
  rewrite Hs2, Hg2, Hn2, Hd2, Hr2, Hq2, Hp2, Hrs2, Hn, Hr, Hq, Hd.
  repeat split; try done.
  - apply map_eq. intros i. destruct (decide (this = i)) as [<-|Hne].
    + rewrite !lookup_alter_eq, Hst, Hs. done.
    + rewrite !lookup_alter_ne by done.
      unfold w1, State.discard_previous.
      destruct (data st) as [d|]; [|done]. destruct (negb _); [|done].
      simpl. by rewrite lookup_alter_ne.
  - unfold jobs_on_construct, promise_settled. by rewrite Hp, Hn.
  - unfold promises_on_construct, promise_settled, promise_reactions.
    by rewrite Hp, Hn.
  - unfold w1, State.discard_previous.
    destruct (data st) as [d|]; [|done]. by destruct (negb _).
Qed.

Lemma discard_previous_null w this st :
  data st = None → State.discard_previous this st w = w.
Proof. intros H. unfold State.discard_previous. by rewrite H. Qed.

Lemma step_retry this w r w' :
  State.retry this w = Some (r, w') → step (CallRetry this) w = w'.
Proof. intros H. simpl. by rewrite H. Qed.

Lemma run_microtask_cons w j q :
  microtasks w = j :: q → run_microtask w = run_job j (with_microtasks (λ _, q) w).
Proof. intros H. unfold run_microtask. by rewrite H. Qed.

Lemma run_job_resume this w c w' :
  State.retry_resume this w = Some (c, w') → run_job (JobRetryResume this) w = w'.
Proof. intros H. simpl. by rewrite H. Qed.

Lemma drain_done k w : microtasks w = [] → drain k w = w.
Proof. intros H. destruct k; simpl; [done|]. by rewrite H. Qed.

Lemma drain_step k w j q :
  microtasks w = j :: q → drain (S k) w = drain k (run_microtask w).
Proof. intros H. simpl. by rewrite H. Qed.

(** ** The scenario of section 8 *)

(** C6. A [State] made for a function that returns a promise already
    fulfilled with 42, in a world with no microtask queued: [state] is
    UNSTARTED when the [State] is made and still after [retry] has been
    called, PENDING after the first microtask, and after the second the queue
    is empty, [state] is RESOLVED and [value] is 42.  Draining the queue,
    with fuel for two jobs or more, ends in that world.  So before the queue
    has drained [state] is UNSTARTED or PENDING, and afterwards RESOLVED with
    42. *)
Theorem resolves_to_42 (w : World) (f : SourceFn) (p : nat) :
  f 0 = returning (JPromise p) →
  promise_settled w p = Some (Fulfilled (JNum 42)) →
  microtasks w = [] →
  isDestroying w (RefState (next w)) = false →
  let this := (State.new f w).1 in
  let w0 := (State.new f w).2 in
  let w1 := step (CallRetry this) w0 in
  let w2 := run_microtask w1 in
  let w3 := run_microtask w2 in
  State.state w0 this = Some UNSTARTED
  ∧ State.state w1 this = Some UNSTARTED
  ∧ State.state w2 this = Some PENDING
  ∧ microtasks w1 ≠ [] ∧ microtasks w2 ≠ []
  ∧ (∀ n, 2 ≤ n → drain n w1 = w3)
  ∧ microtasks w3 = []
  ∧ State.state w3 this = Some RESOLVED
  ∧ State.value w3 this = Some (Normal (JNum 42)).
Proof.
  intros Hf Hp Hq Hlive this w0 w1 w2 w3.
  set (st0 := {| data := None; promise := JUndefined; fn := f; calls := 0 |}).
  assert (Hthis : this = next w) by done.
  assert (Hs0 : states w0 !! this = Some st0) by apply lookup_insert_eq.
  (* the synchronous part *)
  assert (Hf0 : fn st0 (calls st0) = returning (JPromise p)) by exact Hf.
  destruct (retry_suspends w0 this st0 (JPromise p) Hs0 Hlive)
    as (w1' & Hretry & _ & Hq1 & Hs1 & Hr1 & Hp1 & _ & Hg1 & Hn1 & Hd1);
    [by rewrite Hf0|].
  assert (Hw1 : w1 = w1') by exact (step_retry _ _ _ _ Hretry).
  clearbody w1. subst w1'.
  rewrite Hf0 in Hq1, Hp1.
  change (microtasks (settle_all _ w0)) with (microtasks w) in Hq1.
  change (promises (settle_all _ w0)) with (promises w0) in Hp1.
  rewrite Hq in Hq1. simpl in Hq1.
  (* first microtask: the continuation *)
  set (w1q := with_microtasks (λ _, []) w1).
  assert (Hs1q : states w1q !! this
                 = Some {| data := None; promise := JPromise p; fn := f; calls := 1 |}).
  { change (states w1q) with (states w1). by rewrite Hs1, lookup_alter_eq, Hs0. }
  destruct (resume_constructs w1q this _ Hs1q)
    as (w2' & Hresume & Hs2 & Hr2 & Hq2 & Hp2 & _ & Hg2 & Hn2 & Hd2).
  { rewrite discard_previous_null by done.
    change (isDestroying w1q (RefState this)) with
      (Destroyable.isDestroying (destroyables w1) (RefState this)).
    rewrite Hg1. exact Hlive. }
  assert (Hw2 : w2 = w2').
  { unfold w2. rewrite (run_microtask_cons _ _ _ Hq1).
    exact (run_job_resume _ _ _ _ Hresume). }
  clearbody w2. subst w2'.
  simpl in Hs2, Hr2, Hq2.
  assert (Hjobs : microtasks w2 = [JobSettled (next w1) (Fulfilled (JNum 42))]).
  { rewrite Hq2. unfold jobs_on_construct, promise_settled. simpl.
    rewrite Hp1. fold (promise_settled w0 p).
    change (promise_settled w0 p) with (promise_settled w p). by rewrite Hp. }
  (* second microtask: the callback *)
  assert (Hw3 : w3 = TrackedAsyncData.on_settled (next w1) (Fulfilled (JNum 42))
                       (with_microtasks (λ _, []) w2)).
  { unfold w3. by rewrite (run_microtask_cons _ _ _ Hjobs). }
  clearbody w3.
  assert (Hs1' : states w1 !! this
                 = Some {| data := None; promise := JPromise p; fn := f; calls := 1 |}).
  { by rewrite Hs1, lookup_alter_eq, Hs0. }
  assert (Hs2' : states w2 !! this
                 = Some {| data := Some (next w1); promise := JPromise p; fn := f;
                           calls := 1 |}).
  { by rewrite Hs2, lookup_alter_eq, Hs1'. }
  assert (Hr2' : results w2 !! next w1
                 = Some {| tdata := IsPending; tsource := JPromise p |}).
  { by rewrite Hr2, lookup_insert_eq. }
  assert (Hs3 : states w3 !! this
                = Some {| data := Some (next w1); promise := JPromise p; fn := f;
                          calls := 1 |}).
  { rewrite Hw3. exact Hs2'. }
  assert (Hr3 : results w3 !! next w1
                = Some {| tdata := IsResolved (JNum 42); tsource := JPromise p |}).
  { rewrite Hw3. simpl. by rewrite lookup_alter_eq, Hr2'. }
  unfold State.state, State.value.
  rewrite (get_data_null _ _ _ Hs0 eq_refl), (get_data_null _ _ _ Hs1' eq_refl),
    (get_data_some _ _ _ _ _ Hs2' eq_refl Hr2'),
    (get_data_some _ _ _ _ _ Hs3 eq_refl Hr3).
  split; [done|]. split; [done|]. split; [done|].
  split; [by rewrite Hq1|]. split; [by rewrite Hjobs|].
  assert (Hq3 : microtasks w3 = []) by (by rewrite Hw3).
  split; [|done].
  intros [|[|k]] Hk; [lia..|].
  rewrite (drain_step _ _ _ _ Hq1).
  fold w1q. rewrite (run_microtask_cons _ _ _ Hq1). fold w1q.
  rewrite (run_job_resume _ _ _ _ Hresume).
  rewrite (drain_step _ _ _ _ Hjobs). rewrite (run_microtask_cons _ _ _ Hjobs).
  change (run_job (JobSettled ?d ?o) ?x) with (TrackedAsyncData.on_settled d o x).
  rewrite <- Hw3. by apply drain_done.
Qed.

Lemma resolves_to_42_witness :
  let this := (State.new returns_promise_7 world_with_42).1 in
  let w1 := step (CallRetry this) (State.new returns_promise_7 world_with_42).2 in
  State.state w1 this = Some UNSTARTED
  ∧ State.state (run_microtask (run_microtask w1)) this = Some RESOLVED
  ∧ State.value (run_microtask (run_microtask w1)) this = Some (Normal (JNum 42)).
Proof.
  destruct (resolves_to_42 world_with_42 returns_promise_7 7)
    as (_ & H1 & _ & _ & _ & _ & _ & H7 & H8); [vm_compute; reflexivity ..|].
  split; [exact H1|]. split; [exact H7 | exact H8].
Defined.

(** ** Worlds reached by host events are well formed *)

Lemma wf_empty debug : wf (empty_world debug).
Proof.
  split; simpl; try (intros *; rewrite ?lookup_empty; by intros [? ?]).
  - intros i d. unfold data_at. simpl. by rewrite lookup_empty.
  - intros i j d. unfold data_at. simpl. by rewrite lookup_empty.
  - intros k d. unfold Destroyable.children_of. rewrite lookup_empty.
    apply not_elem_of_nil.
  - done.
  - intros d o H. by apply elem_of_nil in H.
  - intros p d. unfold promise_reactions. simpl. rewrite lookup_empty.
    intros H. by apply elem_of_nil in H.
  - intros d t p. by rewrite lookup_empty.
Qed.

(** Everything [wf] looks at, except the queue, is the same in [w'] as in
    [w], and the queue of [w'] has no callback that [w] does not have. *)
Lemma wf_same_heap w w' :
  wf w →
  (∀ i, data_at w' i = data_at w i) →
  results w' = results w →
  promises w' = promises w →
  destroyables w' = destroyables w →
  next w ≤ next w' →
  (∀ d o, JobSettled d o ∈ microtasks w' → JobSettled d o ∈ microtasks w) →
  wf w'.
Proof.
  intros Hwf Hd Hr Hp Hg Hn Hq.
  assert (Hdom : ∀ i, is_Some (states w' !! i) → is_Some (states w !! i)).
  { intros i. specialize (Hd i). unfold data_at in Hd.
    destruct (states w' !! i), (states w !! i); simpl in *; try done; eauto. }
  split; unfold isDestroying, promise_reactions, promise_settled;
    rewrite ?Hr, ?Hp, ?Hg; try setoid_rewrite Hd;
    fold (promise_reactions w); fold (promise_settled w).
  - intros i Hi. pose proof (wf_states _ Hwf i (Hdom i Hi)). lia.
  - intros d Hin. pose proof (wf_results _ Hwf d Hin). lia.
  - apply (wf_data _ Hwf).
  - apply (wf_unshared _ Hwf).
  - apply (wf_children _ Hwf).
  - intros d Hge. apply (wf_fresh _ Hwf). lia.
  - intros d o Hin. pose proof (wf_jobs _ Hwf d o (Hq _ _ Hin)). lia.
  - apply (wf_reactions _ Hwf).
  - intros d t p H1 H2 H3. destruct (wf_pending _ Hwf d t p H1 H2 H3) as [? Hno].
    split; [done|]. intros o Ho. by apply (Hno o), Hq.
Qed.

Lemma data_alter (f : StateObj → StateObj) this (m : gmap nat StateObj) i :
  (∀ x, data (f x) = data x) →
  data <$> alter f this m !! i = data <$> m !! i.
Proof.
  intros Hf. destruct (decide (this = i)) as [<-|Hne].
  - rewrite lookup_alter_eq. destruct (m !! this); simpl; [|done]. by rewrite Hf.
  - by rewrite lookup_alter_ne.
Qed.

Lemma retry_effect this w r w' :
  State.retry this w = Some (r, w') →
  (∀ i, data_at w' i = data_at w i)
  ∧ results w' = results w
  ∧ DEBUG w' = DEBUG w
  ∧ resources w' = resources w
  ∧ destroyables w' = destroyables w
  ∧ next w' = next w
  ∧ ∃ l, microtasks w' = microtasks w ++ l.
Proof.
  intros Hretry.
  destruct (states w !! this) as [st|] eqn:Hs;
    [|by unfold State.retry in Hretry; rewrite Hs in Hretry].
  destruct (call_fn_frame this st w)
    as (_ & Hst & Hr & Hrs & Hg & _ & Hn & Hd & _ & Hq).
  destruct (settle_all_frame (settles (fn st (calls st))) w)
    as (_ & _ & _ & _ & _ & _ & _ & q & Hq' & _).
  destruct (retry_cases _ _ _ _ _ Hs Hretry)
    as [(_ & _ & ->)|[(_ & e & _ & _ & ->)|(_ & v & _ & _ & ->)]].
  - repeat split; try done. exists []. by rewrite app_nil_r.
  - repeat split; try done; [|eexists; by rewrite Hq, Hq'].
    intros i. unfold data_at. rewrite Hst. by apply data_alter.
  - cbn -[State.call_fn]. repeat split; try done.
    + intros i. unfold data_at. cbn -[State.call_fn].
      rewrite data_alter by done. rewrite Hst. by apply data_alter.
    + eexists. by rewrite Hq, Hq', <- app_assoc.
Qed.

Lemma wf_settle w p o : wf w → wf (promise_settle p o w).
Proof.
  intros Hwf. unfold promise_settle.
  destruct (promise_settled w p) eqn:Hp; [done|].
  assert (Hnew : ∀ d o', JobSettled d o' ∈ (λ d, JobSettled d o) <$> promise_reactions w p →
            d ∈ promise_reactions w p).
  { intros d o' (d' & [= -> ->] & Hin)%list_elem_of_fmap. done. }
  split; unfold data_at, isDestroying, promise_reactions, promise_settled; simpl;
    fold (promise_reactions w); fold (promise_settled w); fold (data_at w).
  - apply (wf_states _ Hwf).
  - apply (wf_results _ Hwf).
  - apply (wf_data _ Hwf).
  - apply (wf_unshared _ Hwf).
  - apply (wf_children _ Hwf).
  - apply (wf_fresh _ Hwf).
  - intros d o'. rewrite elem_of_app. intros [Hin|Hin]; [by eapply wf_jobs|].
    destruct (wf_reactions _ Hwf p d (Hnew _ _ Hin)) as (t & Ht & _).
    apply (wf_results _ Hwf). eauto.
  - intros p' d. destruct (decide (p = p')) as [->|Hne].
    + rewrite lookup_insert_eq. simpl. by intros ?%elem_of_nil.
    + rewrite lookup_insert_ne by done. apply (wf_reactions _ Hwf).
  - intros d t p' Ht Hsrc. destruct (decide (p = p')) as [->|Hne].
    + by rewrite lookup_insert_eq.
    + rewrite lookup_insert_ne by done. intros Hpend.
      destruct (wf_pending _ Hwf d t p' Ht Hsrc Hpend) as [Hpe Hno].
      split; [done|]. intros o'. rewrite elem_of_app. intros [Hin|Hin].
      * by apply (Hno o').
      * destruct (wf_reactions _ Hwf p d (Hnew _ _ Hin)) as (t' & Ht' & Hsrc').
        congruence.
Qed.

Lemma wf_settle_all l w : wf w → wf (settle_all l w).
Proof.
  revert w. induction l as [|[p o] l IH]; intros w Hwf; [done|].
  apply (IH (promise_settle p o w)). by apply wf_settle.
Qed.

Lemma wf_call_fn this st w : wf w → wf (State.call_fn this st w).2.
Proof.
  intros Hwf. unfold State.call_fn. simpl. apply wf_settle_all.
  apply (wf_same_heap w); try done.
  intros i. unfold data_at. simpl. by apply data_alter.
Qed.

Lemma wf_retry this w r w' : wf w → State.retry this w = Some (r, w') → wf w'.
Proof.
  intros Hwf Hretry.
  destruct (states w !! this) as [st|] eqn:Hs;
    [|by unfold State.retry in Hretry; rewrite Hs in Hretry].
  pose proof (wf_call_fn this st w Hwf) as Hwf1.
  destruct (retry_cases _ _ _ _ _ Hs Hretry)
    as [(_ & _ & ->)|[(_ & e & _ & _ & ->)|(_ & v & _ & _ & ->)]]; try done.
  apply (wf_same_heap (State.call_fn this st w).2); try done.
  - intros i. unfold data_at. cbn -[State.call_fn]. by apply data_alter.
  - intros d o. cbn -[State.call_fn]. rewrite elem_of_app.
    intros [?|Hin%list_elem_of_singleton]; [done|discriminate].
Qed.

(** Destroying one result leaves every other result as it was. *)
Lemma destroy_other_result w d d' :
  wf w → d ≠ d' →
  Destroyable.isDestroying
    (Destroyable.destroy (RefTrackedAsyncData d) (destroyables w))
    (RefTrackedAsyncData d')
  = isDestroying w (RefTrackedAsyncData d').
Proof.
  intros Hwf Hne. unfold isDestroying, Destroyable.isDestroying, Destroyable.destroy.
  rewrite destroy_from_frame; [done|congruence|].
  intros k. apply (wf_children _ Hwf).
Qed.

Lemma wf_discard w this st :
  wf w → states w !! this = Some st → wf (State.discard_previous this st w).
Proof.
  intros Hwf Hs. unfold State.discard_previous.
  destruct (data st) as [d|] eqn:Hd; [|done].
  rewrite destroyed_check.
  destruct (isDestroying w (RefTrackedAsyncData d)) eqn:Hsafe; [done|]. simpl.
  assert (Hthis : data_at w this = Some (Some d)).
  { unfold data_at. by rewrite Hs, <- Hd. }
  assert (Hdata : ∀ i, i ≠ this →
            data <$> alter (λ st0, {| data := None; promise := promise st0;
                                      fn := fn st0; calls := calls st0 |}) this
                       (states w) !! i = data_at w i).
  { intros i Hne. by rewrite lookup_alter_ne. }
  assert (Hnone : data <$> alter (λ st0, {| data := None; promise := promise st0;
                                      fn := fn st0; calls := calls st0 |}) this
                       (states w) !! this = Some None).
  { by rewrite lookup_alter_eq, Hs. }
  destruct (wf_data _ Hwf _ _ Hthis) as [[t Ht] _].
  pose proof (wf_results _ Hwf d (mk_is_Some _ _ Ht)) as Hlt.
  split; simpl.
  - intros i. rewrite lookup_alter_is_Some. apply (wf_states _ Hwf).
  - apply (wf_results _ Hwf).
  - intros i d'. unfold data_at. simpl. destruct (decide (i = this)) as [->|Hne].
    + by rewrite Hnone.
    + rewrite (Hdata i Hne). intros Hi.
      destruct (wf_data _ Hwf _ _ Hi) as [Hin Hlive]. split; [done|].
      unfold isDestroying. simpl. rewrite destroy_other_result; [done..|].
      intros ->. apply Hne. by apply (wf_unshared _ Hwf _ _ _ Hi Hthis).
  - intros i j d'. unfold data_at. simpl.
    destruct (decide (i = this)) as [->|Hi]; [by rewrite Hnone|].
    destruct (decide (j = this)) as [->|Hj]; [by rewrite Hnone|].
    rewrite (Hdata i Hi), (Hdata j Hj). apply (wf_unshared _ Hwf).
  - intros k d'. unfold Destroyable.destroy. rewrite destroy_from_children.
    apply (wf_children _ Hwf).
  - intros d' Hge. unfold isDestroying. simpl.
    rewrite destroy_other_result; [|done|lia]. by apply (wf_fresh _ Hwf).
  - apply (wf_jobs _ Hwf).
  - apply (wf_reactions _ Hwf).
  - apply (wf_pending _ Hwf).
Qed.

Lemma wf_construct w this st arg :
  wf w → states w !! this = Some st →
  wf (State.set_data this (Some (next w)) (TrackedAsyncData.new arg w).2).
Proof.
  intros Hwf Hs.
  destruct (new_frame arg w) as (Hs2 & Hg2 & _ & Hn2 & _ & Hr2).
  destruct (new_queue arg w) as (Hq2 & Hp2 & _).
  set (w2 := (TrackedAsyncData.new arg w).2) in *.
  set (n := next w) in *.
  set (T := {| tdata := match arg with JPromise _ => IsPending | _ => IsResolved arg end;
               tsource := arg |}) in *.
  assert (Hfresh : results w !! n = None).
  { destruct (results w !! n) eqn:E; [|done].
    pose proof (wf_results _ Hwf n (mk_is_Some _ _ E)). unfold n in *. lia. }
  assert (Hdata : ∀ i, i ≠ this →
            data <$> alter (λ st0, {| data := Some n; promise := promise st0;
                                      fn := fn st0; calls := calls st0 |}) this
                       (states w) !! i = data_at w i).
  { intros i Hne. by rewrite lookup_alter_ne. }
  assert (Hnew : data <$> alter (λ st0, {| data := Some n; promise := promise st0;
                                      fn := fn st0; calls := calls st0 |}) this
                       (states w) !! this = Some (Some n)).
  { by rewrite lookup_alter_eq, Hs. }
  assert (Hold : ∀ i, data_at w i ≠ Some (Some n)).
  { intros i Hi. destruct (wf_data _ Hwf _ _ Hi) as [[t Ht] _]. congruence. }
  assert (Hjobs : ∀ d o, JobSettled d o ∈ jobs_on_construct w arg → d = n).
  { intros d o. unfold jobs_on_construct.
    destruct arg; try (by intros ?%elem_of_nil).
    destruct (promise_settled w p); [|by intros ?%elem_of_nil].
    by intros [= -> ->]%list_elem_of_singleton. }
  split; unfold data_at, isDestroying, promise_reactions, promise_settled; simpl;
    rewrite ?Hs2, ?Hg2, ?Hn2, ?Hr2, ?Hq2, ?Hp2;
    fold (promise_reactions w); fold (promise_settled w); fold (data_at w).
  - intros i. rewrite lookup_alter_is_Some. intros Hi.
    pose proof (wf_states _ Hwf i Hi). lia.
  - intros d. rewrite lookup_insert_is_Some. intros [<-|[_ Hd]]; [lia|].
    pose proof (wf_results _ Hwf d Hd). lia.
  - intros i d. fold (isDestroying w (RefTrackedAsyncData d)).
    destruct (decide (i = this)) as [->|Hne].
    + rewrite Hnew. intros [= <-]. rewrite lookup_insert_eq. split; [eauto|].
      by apply (wf_fresh _ Hwf).
    + rewrite (Hdata i Hne). intros Hi.
      destruct (wf_data _ Hwf _ _ Hi) as [Hin Hlive]. split; [|done].
      rewrite lookup_insert_is_Some. destruct (decide (n = d)); auto.
  - intros i j d.
    destruct (decide (i = this)) as [->|Hi], (decide (j = this)) as [->|Hj];
      rewrite ?Hnew, ?(Hdata i), ?(Hdata j) by done; try done.
    + intros [= <-] Hj'. by destruct (Hold j).
    + intros Hi' [= <-]. by destruct (Hold i).
    + apply (wf_unshared _ Hwf).
  - apply (wf_children _ Hwf).
  - intros d Hge. apply (wf_fresh _ Hwf). lia.
  - intros d o. rewrite elem_of_app. intros [Hin|Hin].
    + pose proof (wf_jobs _ Hwf d o Hin). lia.
    + rewrite (Hjobs _ _ Hin). lia.
  - intros p d. unfold promises_on_construct.
    assert (Hkeep : d ∈ promise_reactions w p →
              ∃ t, <[n:=T]> (results w) !! d = Some t ∧ tsource t = JPromise p).
    { intros Hin. destruct (wf_reactions _ Hwf p d Hin) as (t & Ht & Hsrc).
      exists t. split; [|done]. rewrite lookup_insert_ne; [done|]. congruence. }
    destruct arg; try exact Hkeep.
    destruct (promise_settled w p0) eqn:Hset; [exact Hkeep|].
    destruct (decide (p0 = p)) as [->|Hne].
    + rewrite lookup_insert_eq. simpl. rewrite elem_of_app.
      intros [Hin|Hin%list_elem_of_singleton]; [by apply Hkeep|].
      subst d. exists T. by rewrite lookup_insert_eq.
    + rewrite lookup_insert_ne by done. exact Hkeep.
  - intros d t p Ht Hsrc Hpend.
    assert (Hpend' : arg ≠ JPromise p → promise_settled w p = None).
    { intros Harg. revert Hpend.
      unfold promises_on_construct. destruct arg; try done.
      destruct (promise_settled w p0); [done|].
      rewrite lookup_insert_ne; [done|]. congruence. }
    destruct (decide (d = n)) as [->|Hne].
    + rewrite lookup_insert_eq in Ht. injection Ht as <-. simpl in Hsrc. subst arg.
      assert (Hp : promise_settled w p = None).
      { revert Hpend. unfold promises_on_construct.
        destruct (promise_settled w p) eqn:E; [|done].
        unfold promise_settled in E. by rewrite E. }
      split; [done|]. intros o. unfold jobs_on_construct. rewrite Hp, app_nil_r.
      intros Hin. pose proof (wf_jobs _ Hwf _ _ Hin). unfold n in *. lia.
    + rewrite lookup_insert_ne in Ht by done.
      assert (Hp : promise_settled w p = None).
      { destruct (decide (arg = JPromise p)) as [->|Harg]; [|by apply Hpend'].
        revert Hpend. unfold promises_on_construct.
        destruct (promise_settled w p) eqn:E; [|done].
        unfold promise_settled in E. by rewrite E. }
      destruct (wf_pending _ Hwf d t p Ht Hsrc Hp) as [Hpe Hno]. split; [done|].
      intros o. rewrite elem_of_app. intros [Hin|Hin]; [by apply (Hno o)|].
      by apply Hjobs in Hin.
Qed.

Lemma wf_resume this w c w' : wf w → State.retry_resume this w = Some (c, w') → wf w'.
Proof.
  intros Hwf. destruct (states w !! this) as [st|] eqn:Hs;
    [|by unfold State.retry_resume; rewrite Hs].
  rewrite (retry_resume_unfold _ _ _ Hs). cbv zeta.
  pose proof (wf_discard w this st Hwf Hs) as Hwf1.
  pose proof (discard_previous_states _ _ _ Hs) as Hs1.
  destruct (isDestroying _ (RefState this)); intros [= _ <-]; [done|].
  by eapply wf_construct.
Qed.

Lemma wf_on_settled w d o q :
  wf w → microtasks w = JobSettled d o :: q →
  wf (TrackedAsyncData.on_settled d o (with_microtasks (λ _, q) w)).
Proof.
  intros Hwf Hq.
  set (f := λ t, {| tdata := match o with
                             | Fulfilled v => IsResolved v
                             | Rejected e => IsRejected e
                             end;
                    tsource := tsource t |}).
  assert (Hsub : ∀ j, j ∈ q → j ∈ microtasks w).
  { intros j Hj. rewrite Hq. by right. }
  split; unfold data_at, isDestroying, promise_reactions, promise_settled; simpl;
    fold (promise_reactions w); fold (promise_settled w); fold (data_at w); fold f.
  - apply (wf_states _ Hwf).
  - intros d'. rewrite lookup_alter_is_Some. apply (wf_results _ Hwf).
  - intros i d' Hi. rewrite lookup_alter_is_Some. by apply (wf_data _ Hwf i).
  - apply (wf_unshared _ Hwf).
  - apply (wf_children _ Hwf).
  - apply (wf_fresh _ Hwf).
  - intros d' o' Hin. by apply (wf_jobs _ Hwf d' o'), Hsub.
  - intros p d' Hin. destruct (wf_reactions _ Hwf p d' Hin) as (t & Ht & Hsrc).
    destruct (decide (d = d')) as [->|Hne].
    + exists (f t). by rewrite lookup_alter_eq, Ht.
    + exists t. by rewrite lookup_alter_ne.
  - intros d' t p Ht Hsrc Hpend.
    destruct (decide (d = d')) as [->|Hne].
    + rewrite lookup_alter_eq in Ht.
      destruct (results w !! d') as [t0|] eqn:Ht0; [|done].
      injection Ht as <-. simpl in Hsrc.
      destruct (wf_pending _ Hwf d' t0 p Ht0 Hsrc Hpend) as [_ Hno].
      destruct (Hno o). rewrite Hq. by left.
    + rewrite lookup_alter_ne in Ht by done.
      destruct (wf_pending _ Hwf d' t p Ht Hsrc Hpend) as [Hpe Hno].
      split; [done|]. intros o' Hin. by apply (Hno o'), Hsub.
Qed.

Lemma wf_run_microtask w : wf w → wf (run_microtask w).
Proof.
  intros Hwf. unfold run_microtask.
  destruct (microtasks w) as [|[this|d o] q] eqn:Hq; [done| |].
  - assert (Hwf' : wf (with_microtasks (λ _, q) w)).
    { apply (wf_same_heap w); try done. intros d o Hin. rewrite Hq. by right. }
    simpl. destruct (State.retry_resume this _) as [[c w']|] eqn:Hres; [|done].
    by eapply wf_resume.
  - by apply wf_on_settled.
Qed.

(** A change of the destroyable graph that keeps every result's lifecycle
    and adds no result as a child. *)
Lemma wf_graph w (f : gmap Ref Destroyable.Meta → gmap Ref Destroyable.Meta) :
  wf w →
  (∀ d, Destroyable.isDestroying (f (destroyables w)) (RefTrackedAsyncData d)
        = isDestroying w (RefTrackedAsyncData d)) →
  (∀ k d, RefTrackedAsyncData d ∉ Destroyable.children_of (f (destroyables w)) k) →
  wf (with_destroyables f w).
Proof.
  intros Hwf Hlife Hchild.
  split; unfold data_at, isDestroying, promise_reactions, promise_settled; simpl;
    fold (promise_reactions w); fold (promise_settled w); fold (data_at w);
    rewrite ?Hlife; try apply Hwf.
  - intros i d Hi. rewrite Hlife. by apply (wf_data _ Hwf i).
  - done.
  - intros d Hge. rewrite Hlife. by apply (wf_fresh _ Hwf).
Qed.

Lemma wf_destroy w o : wf w → host_event (Destroy o) → wf (destroy o w).
Proof.
  intros Hwf Hhost. apply wf_graph; [done| |].
  - intros d. unfold isDestroying, Destroyable.isDestroying, Destroyable.destroy.
    rewrite destroy_from_frame; [done| |].
    + intros ->. exact Hhost.
    + intros k. apply (wf_children _ Hwf).
  - intros k d. unfold Destroyable.destroy. rewrite destroy_from_children.
    apply (wf_children _ Hwf).
Qed.

Lemma wf_finalize w : wf w → wf (with_destroyables Destroyable.finalize w).
Proof.
  intros Hwf. apply wf_graph; [done| |].
  - intros d. unfold isDestroying, Destroyable.isDestroying, Destroyable.lifecycle,
      Destroyable.finalize.
    rewrite lookup_fmap. destruct (destroyables w !! _) as [[[] ?]|]; done.
  - intros k d. unfold Destroyable.children_of, Destroyable.finalize.
    rewrite lookup_fmap.
    pose proof (wf_children _ Hwf k d) as H. unfold Destroyable.children_of in H.
    destruct (destroyables w !! k) as [[[] cs]|]; simpl in *; try done.
    intros Hin. by apply list_elem_of_filter in Hin as [_ Hin].
Qed.

Lemma wf_associate w parent child :
  wf w → (∀ d, child ≠ RefTrackedAsyncData d) →
  wf (associateDestroyableChild parent child w).
Proof.
  intros Hwf Hchild. apply wf_graph; [done| |].
  - intros d. unfold isDestroying, Destroyable.isDestroying, Destroyable.lifecycle,
      Destroyable.associateDestroyableChild.
    destruct (decide (parent = RefTrackedAsyncData d)) as [->|Hne].
    + by rewrite lookup_insert_eq.
    + by rewrite lookup_insert_ne.
  - intros k d. unfold Destroyable.associateDestroyableChild.
    unfold Destroyable.children_of at 1.
    destruct (decide (parent = k)) as [->|Hne].
    + rewrite lookup_insert_eq. simpl. rewrite elem_of_app.
      intros [Hin|Hin%list_elem_of_singleton].
      * by apply (wf_children _ Hwf k d).
      * by apply (Hchild d).
    + rewrite lookup_insert_ne by done. apply (wf_children _ Hwf k d).
Qed.

Lemma wf_new_state w f : wf w → wf (State.new f w).2.
Proof.
  intros Hwf. unfold State.new.
  set (st := {| data := None; promise := JUndefined; fn := f; calls := 0 |}).
  assert (Hdata : ∀ i d, data <$> <[next w := st]> (states w) !! i = Some (Some d) →
            data_at w i = Some (Some d)).
  { intros i d. destruct (decide (next w = i)) as [<-|Hne].
    - by rewrite lookup_insert_eq.
    - by rewrite lookup_insert_ne. }
  split; unfold data_at, isDestroying, promise_reactions, promise_settled; simpl;
    fold (promise_reactions w); fold (promise_settled w).
  - intros i. rewrite lookup_insert_is_Some. intros [<-|[_ Hi]]; [lia|].
    pose proof (wf_states _ Hwf i Hi). lia.
  - intros d Hd. pose proof (wf_results _ Hwf d Hd). lia.
  - intros i d Hi. by apply (wf_data _ Hwf i), Hdata.
  - intros i j d Hi Hj. by apply (wf_unshared _ Hwf i j d); apply Hdata.
  - apply (wf_children _ Hwf).
  - intros d Hge. apply (wf_fresh _ Hwf). lia.
  - intros d o Hin. pose proof (wf_jobs _ Hwf d o Hin). lia.
  - apply (wf_reactions _ Hwf).
  - apply (wf_pending _ Hwf).
Qed.

Lemma wf_resource w context f : wf w → wf (resource context f w).2.
Proof.
  intros Hwf. unfold resource. simpl. apply wf_associate; [|done].
  apply (wf_same_heap w); try done. simpl. lia.
Qed.

Lemma wf_trackedFunction w context f : wf w → wf (trackedFunction context f w).2.
Proof.
  intros Hwf. unfold trackedFunction.
  pose proof (wf_new_state w f Hwf) as H1.
  destruct (State.new f w) as [state w1]. simpl in H1.
  pose proof (wf_resource w1 context (RetryAndReturn state) H1) as H2.
  destruct (resource context (RetryAndReturn state) w1) as [h w2]. simpl in *.
  by apply wf_associate.
Qed.

Lemma wf_run_setup w f : wf w → wf (run_setup f w).2.
Proof.
  intros Hwf. destruct f as [state]. simpl.
  destruct (State.retry state w) as [[r w']|] eqn:H; [|done].
  by eapply wf_retry.
Qed.

Lemma run_setup_value f w : (run_setup f w).1 = match f with RetryAndReturn s => JObj (RefState s) end.
Proof. by destruct f. Qed.

Lemma wf_current w stale h v w' : wf w → current stale h w = Some (v, w') → wf w'.
Proof.
  intros Hwf. unfold current.
  destruct (resources w !! h) as [r|]; simpl; [|done].
  pose proof (wf_run_setup w (setup r) Hwf) as H1.
  pose proof (run_setup_value (setup r) w) as Hv.
  destruct (run_setup (setup r) w) as [v1 w1]. simpl in *.
  assert (Heval : ∀ w2,
    w2 = (match v1 with
          | JObj o => associateDestroyableChild (RefResource h) o
                        (with_resources <[h := {| owner := owner r; setup := setup r;
                                                  cache := Some v1 |}]> w1)
          | _ => with_resources <[h := {| owner := owner r; setup := setup r;
                                          cache := Some v1 |}]> w1
          end) → wf w2).
  { intros w2 ->. subst v1. destruct (setup r) as [s].
    apply wf_associate; [|done]. by apply (wf_same_heap w1). }
  destruct (cache r) as [c|]; [destruct stale|]; intros [= _ <-]; try done;
    by apply Heval.
Qed.

Lemma wf_step e w : wf w → host_event e → wf (step e w).
Proof.
  intros Hwf Hhost. destruct e as [this| |p o|o| |context f|h stale]; simpl.
  - destruct (State.retry this w) as [[r w']|] eqn:H; [|done]. by eapply wf_retry.
  - by apply wf_run_microtask.
  - by apply wf_settle.
  - by apply wf_destroy.
  - by apply wf_finalize.
  - by apply wf_trackedFunction.
  - destruct (current stale h w) as [[v w']|] eqn:H; [|done]. by eapply wf_current.
Qed.

Lemma wf_run es w : wf w → Forall host_event es → wf (run es w).
Proof.
  revert w. induction es as [|e es IH]; intros w Hwf Hhost; [done|].
  inversion Hhost as [|?? He Hes]; subst. simpl. apply IH; [|done].
  by apply wf_step.
Qed.

(** ** A superseded promise stays superseded *)

Lemma superseded_transfer w w' this p :
  superseded w this p →
  states w' !! this = states w !! this →
  (∀ d, data_at w this = Some (Some d) → results w' !! d = results w !! d) →
  (∃ l, microtasks w' = microtasks w ++ l) →
  superseded w' this p.
Proof.
  intros (st & Hs & Hp & Hfn & Hcur) Hs' Hr [l Hq].
  exists st. rewrite Hs'. split; [done|]. split; [done|]. split; [done|].
  intros d t Hd Ht Hsrc.
  rewrite Hr in Ht by (unfold data_at; by rewrite Hs, <- Hd).
  destruct (Hcur d t Hd Ht Hsrc) as (Hpe & q1 & q2 & Hq12 & Hno).
  split; [done|]. exists q1, (q2 ++ l). split; [|done].
  rewrite Hq, Hq12. by rewrite <- app_assoc.
Qed.

(** Removing the oldest job, when that is not a continuation for [this]. *)
Lemma superseded_pop w this p j q :
  superseded w this p →
  microtasks w = j :: q →
  j ≠ JobRetryResume this →
  superseded (with_microtasks (λ _, q) w) this p
  ∧ ∀ d t o, j = JobSettled d o → data_at w this = Some (Some d) →
      results w !! d = Some t → tsource t ≠ JPromise p.
Proof.
  intros (st & Hs & Hp & Hfn & Hcur) Hq Hj.
  assert (Hhead : ∀ d t, data st = Some d → results w !! d = Some t →
            tsource t = JPromise p →
            ∃ q1 q2, q = q1 ++ JobRetryResume this :: q2
                     ∧ (∀ o, JobSettled d o ∉ q1) ∧ ∀ o, j ≠ JobSettled d o).
  { intros d t Hd Ht Hsrc.
    destruct (Hcur d t Hd Ht Hsrc) as (_ & q1 & q2 & Hq12 & Hno).
    rewrite Hq in Hq12. destruct q1 as [|j' q1]; simpl in Hq12.
    - injection Hq12 as -> _. done.
    - injection Hq12 as <- ->. exists q1, q2. split; [done|]. split.
      + intros o Hin. apply (Hno o). by right.
      + intros o ->. apply (Hno o). by left. }
  split.
  - exists st. simpl. split; [done|]. split; [done|]. split; [done|].
    intros d t Hd Ht Hsrc. split; [by apply (Hcur d t)|].
    destruct (Hhead d t Hd Ht Hsrc) as (q1 & q2 & ? & ? & _). eauto.
  - intros d t o -> Hd Ht Hsrc. unfold data_at in Hd. rewrite Hs in Hd.
    injection Hd as Hd.
    destruct (Hhead d t Hd Ht Hsrc) as (_ & _ & _ & _ & Hne). by apply (Hne o).
Qed.

Lemma superseded_on_settled w this p d o q :
  superseded w this p →
  microtasks w = JobSettled d o :: q →
  superseded (TrackedAsyncData.on_settled d o (with_microtasks (λ _, q) w)) this p.
Proof.
  intros Hsup Hq.
  destruct (superseded_pop w this p _ q Hsup Hq) as [Hpop Hother]; [done|].
  destruct Hpop as (st & Hs & Hp & Hfn & Hcur). simpl in Hs.
  exists st. simpl. split; [done|]. split; [done|]. split; [done|].
  intros d' t Hd Ht Hsrc.
  destruct (decide (d = d')) as [->|Hne].
  - exfalso. rewrite lookup_alter_eq in Ht.
    destruct (results w !! d') as [t0|] eqn:Ht0; [|done].
    injection Ht as <-. simpl in Hsrc.
    apply (Hother d' t0 o eq_refl); [|done..].
    unfold data_at. by rewrite Hs, <- Hd.
  - rewrite lookup_alter_ne in Ht by done. by apply (Hcur d' t).
Qed.

(** What the continuation does to its own [State]. *)
Lemma resume_own_state w this st c w' :
  wf w → states w !! this = Some st →
  State.retry_resume this w = Some (c, w') →
  ∃ st', states w' !! this = Some st'
    ∧ promise st' = promise st ∧ fn st' = fn st ∧ calls st' = calls st
    ∧ (data st' = None
       ∨ data st' = Some (next w)
         ∧ ∃ t, results w' !! next w = Some t ∧ tsource t = promise st).
Proof.
  intros Hwf Hs. rewrite (retry_resume_unfold _ _ _ Hs). cbv zeta.
  pose proof (discard_previous_states _ _ _ Hs) as Hs1.
  destruct (discard_previous_frame w this st) as (_ & _ & _ & Hn & _).
  assert (Hdata : match data st with
                  | Some d => if isDestroying w (RefTrackedAsyncData d)
                              then Some d else None
                  | None => None
                  end = None).
  { destruct (data st) as [d|] eqn:Hd; [|done].
    destruct (wf_data _ Hwf this d) as [_ ->]; [|done].
    unfold data_at. by rewrite Hs, <- Hd. }
  rewrite Hdata in Hs1.
  destruct (isDestroying _ (RefState this)); intros [= _ <-].
  - eexists. split; [exact Hs1|]. simpl. auto.
  - destruct (new_frame (promise st) (State.discard_previous this st w))
      as (Hs2 & _ & _ & _ & _ & Hr2).
    simpl. rewrite lookup_alter_eq, Hs2, Hs1. simpl.
    eexists. split; [done|]. simpl. repeat split; try done.
    right. rewrite Hn. split; [done|]. rewrite Hr2, Hn, lookup_insert_eq. eauto.
Qed.

(** What it does to every other [State] and to the results that exist. *)
Lemma resume_frame w this c w' :
  State.retry_resume this w = Some (c, w') →
  (∀ i, i ≠ this → states w' !! i = states w !! i)
  ∧ (∀ d, d ≠ next w → results w' !! d = results w !! d)
  ∧ (∃ l, microtasks w' = microtasks w ++ l)
  ∧ resources w' = resources w
  ∧ next w ≤ next w'.
Proof.
  destruct (states w !! this) as [st|] eqn:Hs;
    [|by unfold State.retry_resume; rewrite Hs].
  rewrite (retry_resume_unfold _ _ _ Hs). cbv zeta.
  destruct (discard_previous_frame w this st) as (Hr & _ & Hq & Hn & _).
  assert (Hst : ∀ i, i ≠ this →
            states (State.discard_previous this st w) !! i = states w !! i).
  { intros i Hne. unfold State.discard_previous.
    destruct (data st) as [d|]; [|done]. destruct (negb _); [|done].
    simpl. by rewrite lookup_alter_ne. }
  assert (Hrs : resources (State.discard_previous this st w) = resources w).
  { unfold State.discard_previous.
    destruct (data st) as [d|]; [|done]. by destruct (negb _). }
  destruct (isDestroying _ (RefState this)); intros [= _ <-].
  - repeat split; try done; [by rewrite Hr| |lia].
    exists []. by rewrite Hq, app_nil_r.
  - destruct (new_frame (promise st) (State.discard_previous this st w))
      as (Hs2 & _ & _ & Hn2 & _ & Hr2).
    destruct (new_queue (promise st) (State.discard_previous this st w))
      as (Hq2 & _ & Hrs2).
    simpl. rewrite Hs2, Hr2, Hq2, Hrs2, Hn2, Hn, Hr, Hq. repeat split; try done.
    + intros i Hne. rewrite lookup_alter_ne by done. by apply Hst.
    + intros d Hne. by rewrite lookup_insert_ne.
    + eauto.
    + lia.
Qed.

Lemma superseded_resume_own w this p st c w' :
  wf w → states w !! this = Some st →
  promise st ≠ JPromise p →
  (∀ n, calls st ≤ n → outcome (fn st n) ≠ Normal (JPromise p)) →
  State.retry_resume this w = Some (c, w') →
  superseded w' this p.
Proof.
  intros Hwf Hs Hp Hfn Hres.
  destruct (resume_own_state w this st c w' Hwf Hs Hres)
    as (st' & Hs' & Hp' & Hf' & Hc' & Hdata).
  exists st'. split; [done|]. rewrite Hp', Hf', Hc'. split; [done|]. split; [done|].
  intros d t Hd Ht Hsrc. exfalso.
  destruct Hdata as [Hnone|[Hnew (t' & Ht' & Hsrc')]]; [congruence|].
  rewrite Hnew in Hd. injection Hd as <-. congruence.
Qed.

Lemma retry_resume_is_Some w this st :
  states w !! this = Some st → is_Some (State.retry_resume this w).
Proof.
  intros Hs. rewrite (retry_resume_unfold _ _ _ Hs). cbv zeta.
  by destruct (isDestroying _ _).
Qed.

Lemma superseded_run_microtask w this p :
  wf w → superseded w this p → superseded (run_microtask w) this p.
Proof.
  intros Hwf Hsup. unfold run_microtask.
  destruct (microtasks w) as [|[j|d o] q] eqn:Hq; [done| |].
  - assert (Hwf' : wf (with_microtasks (λ _, q) w)).
    { apply (wf_same_heap w); try done. intros d o Hin. rewrite Hq. by right. }
    destruct (decide (j = this)) as [->|Hne].
    + destruct Hsup as (st & Hs & Hp & Hfn & _).
      destruct (retry_resume_is_Some (with_microtasks (λ _, q) w) this st Hs)
        as [[c w'] Hres].
      simpl. rewrite Hres.
      by apply (superseded_resume_own _ _ _ st c w' Hwf').
    + destruct (superseded_pop w this p _ q Hsup Hq) as [Hpop _]; [congruence|].
      simpl. destruct (State.retry_resume j _) as [[c w']|] eqn:Hres; [|done].
      destruct (resume_frame _ _ _ _ Hres) as (Hst & Hr & Hl & _).
      apply (superseded_transfer _ _ _ _ Hpop); [by apply Hst| |done].
      intros d Hd. apply Hr.
      destruct (wf_data _ Hwf' this d Hd) as [Hin _].
      pose proof (wf_results _ Hwf' d Hin). lia.
  - by apply superseded_on_settled.
Qed.

Lemma retry_frame w this r w' :
  State.retry this w = Some (r, w') →
  (∀ i, i ≠ this → states w' !! i = states w !! i)
  ∧ ∃ l, microtasks w' = microtasks w ++ l.
Proof.
  intros Hretry. split; [|by destruct (retry_effect _ _ _ _ Hretry) as (_&_&_&_&_&_&?)].
  destruct (states w !! this) as [st|] eqn:Hs;
    [|by unfold State.retry in Hretry; rewrite Hs in Hretry].
  destruct (call_fn_frame this st w) as (_ & Hst & _).
  intros i Hne.
  destruct (retry_cases _ _ _ _ _ Hs Hretry)
    as [(_ & _ & ->)|[(_ & e & _ & _ & ->)|(_ & v & _ & _ & ->)]]; [done| |].
  - rewrite Hst. by apply lookup_alter_ne.
  - cbn -[State.call_fn]. rewrite lookup_alter_ne by done.
    rewrite Hst. by apply lookup_alter_ne.
Qed.

Lemma retry_own_state w this st r w' :
  states w !! this = Some st →
  State.retry this w = Some (r, w') →
  ∃ st', states w' !! this = Some st'
    ∧ data st' = data st ∧ fn st' = fn st
    ∧ (st' = st
       ∨ calls st' = S (calls st)
         ∧ (promise st' = promise st
            ∨ outcome (fn st (calls st)) = Normal (promise st'))).
Proof.
  intros Hs Hretry.
  destruct (call_fn_frame this st w) as (_ & Hst & _).
  destruct (retry_cases _ _ _ _ _ Hs Hretry)
    as [(_ & _ & ->)|[(_ & e & _ & _ & ->)|(_ & v & Hv & _ & ->)]].
  - eauto 10.
  - rewrite Hst, lookup_alter_eq, Hs. simpl. eexists. split; [done|]. simpl. eauto 10.
  - cbn -[State.call_fn]. rewrite lookup_alter_eq, Hst, lookup_alter_eq, Hs. simpl.
    eexists. split; [done|]. simpl. eauto 10.
Qed.

Lemma superseded_retry w this p j r w' :
  superseded w this p → State.retry j w = Some (r, w') → superseded w' this p.
Proof.
  intros Hsup Hretry.
  destruct (retry_effect _ _ _ _ Hretry) as (_ & Hr & _).
  destruct (retry_frame _ _ _ _ Hretry) as [Hst Hl].
  destruct (decide (j = this)) as [->|Hne].
  - destruct Hsup as (st & Hs & Hp & Hfn & Hcur).
    destruct (retry_own_state _ _ _ _ _ Hs Hretry) as (st' & Hs' & Hd' & Hf' & Hcase).
    exists st'. split; [done|].
    assert (Hcalls : calls st ≤ calls st').
    { destruct Hcase as [->|[-> _]]; lia. }
    split; [|split].
    + destruct Hcase as [->|[_ [->|Hret]]]; try done.
      intros E. rewrite E in Hret. by apply (Hfn (calls st)).
    + intros n Hn. rewrite Hf'. apply Hfn. lia.
    + intros d t. rewrite Hd', Hr. intros Hd Ht Hsrc.
      destruct (Hcur d t Hd Ht Hsrc) as (Hpe & q1 & q2 & Hq12 & Hno).
      split; [done|]. destruct Hl as [l Hl]. exists q1, (q2 ++ l).
      split; [|done]. rewrite Hl, Hq12. by rewrite <- app_assoc.
  - apply (superseded_transfer w); [done|by apply Hst| |done].
    intros d _. by rewrite Hr.
Qed.

Lemma trackedFunction_frame context f w :
  (trackedFunction context f w).1 = S (next w)
  ∧ states (trackedFunction context f w).2
    = <[next w := {| data := None; promise := JUndefined; fn := f; calls := 0 |}]>
        (states w)
  ∧ resources (trackedFunction context f w).2
    = <[S (next w) := {| owner := context; setup := RetryAndReturn (next w);
                         cache := None |}]> (resources w)
  ∧ results (trackedFunction context f w).2 = results w
  ∧ microtasks (trackedFunction context f w).2 = microtasks w
  ∧ next (trackedFunction context f w).2 = S (S (next w)).
Proof. done. Qed.

(** Either the cached value is handed out and nothing changes, or the
    callback runs and its result is stored as current. *)
Lemma current_cases stale h w v w' :
  current stale h w = Some (v, w') →
  ∃ r, resources w !! h = Some r
    ∧ (cache r = Some v ∧ w' = w
       ∨ v = (run_setup (setup r) w).1
         ∧ states w' = states (run_setup (setup r) w).2
         ∧ results w' = results (run_setup (setup r) w).2
         ∧ microtasks w' = microtasks (run_setup (setup r) w).2
         ∧ next w' = next (run_setup (setup r) w).2
         ∧ resources w'
           = <[h := {| owner := owner r; setup := setup r; cache := Some v |}]>
               (resources (run_setup (setup r) w).2)).
Proof.
  unfold current. destruct (resources w !! h) as [r|]; simpl; [|done].
  intros H. exists r. split; [done|].
  pose proof (run_setup_value (setup r) w) as Hv.
  destruct (run_setup (setup r) w) as [v1 w1]. simpl in *.
  assert (Heval : Some (v1,
            match v1 with
            | JObj o => associateDestroyableChild (RefResource h) o
                (with_resources <[h := {| owner := owner r; setup := setup r;
                                          cache := Some v1 |}]> w1)
            | _ => with_resources <[h := {| owner := owner r; setup := setup r;
                                            cache := Some v1 |}]> w1
            end) = Some (v, w') →
          v = v1 ∧ states w' = states w1 ∧ results w' = results w1
          ∧ microtasks w' = microtasks w1 ∧ next w' = next w1
          ∧ resources w' = <[h := {| owner := owner r; setup := setup r;
                                     cache := Some v |}]> (resources w1)).
  { intros [= <- <-]. subst v1. by destruct (setup r). }
  destruct (cache r) as [c|]; [destruct stale|]; try (right; by apply Heval).
  injection H as -> ->. by left.
Qed.

Lemma superseded_step w this p e :
  wf w → host_event e → superseded w this p → superseded (step e w) this p.
Proof.
  intros Hwf Hhost Hsup.
  destruct e as [j| |p' o|o| |context f|h stale]; unfold step.
  - destruct (State.retry j w) as [[r w']|] eqn:H; [|done].
    by eapply superseded_retry.
  - by apply superseded_run_microtask.
  - apply (superseded_transfer w); try done; unfold promise_settle;
      destruct (promise_settled w p'); simpl; try done; eauto.
    exists []. by rewrite app_nil_r.
  - apply (superseded_transfer w); try done. exists []. by rewrite app_nil_r.
  - apply (superseded_transfer w); try done. exists []. by rewrite app_nil_r.
  - destruct (trackedFunction_frame context f w) as (_ & Hs & _ & Hr & Hq & _).
    apply (superseded_transfer w); [done| | |].
    + rewrite Hs. apply lookup_insert_ne.
      destruct Hsup as (st & Hst & _).
      pose proof (wf_states _ Hwf this (mk_is_Some _ _ Hst)). lia.
    + intros d _. by rewrite Hr.
    + exists []. by rewrite Hq, app_nil_r.
  - destruct (current stale h w) as [[v w']|] eqn:H; [|done].
    destruct (current_cases _ _ _ _ _ H) as (r & _ & [[_ ->]|Heval]); [done|].
    destruct Heval as (_ & Hs & Hr & Hq & _).
    assert (Hsup1 : superseded (run_setup (setup r) w).2 this p).
    { destruct (setup r) as [j]. simpl.
      destruct (State.retry j w) as [[r' w1]|] eqn:Hretry; [|done].
      by eapply superseded_retry. }
    apply (superseded_transfer _ _ _ _ Hsup1); [by rewrite Hs| |].
    + intros d _. by rewrite Hr.
    + exists []. by rewrite Hq, app_nil_r.
Qed.

Lemma superseded_run w this p es :
  wf w → Forall host_event es → superseded w this p → superseded (run es w) this p.
Proof.
  revert w. induction es as [|e es IH]; intros w Hwf Hhost Hsup; [done|].
  inversion Hhost as [|?? He Hes]; subst. simpl.
  apply IH; [by apply wf_step|done|by apply superseded_step].
Qed.

(** A call of [retry] that returns something else supersedes a promise that
    is still pending when the synchronous part has run. *)
Lemma superseded_start w this p st v :
  wf w →
  states w !! this = Some st →
  isDestroying w (RefState this) = false →
  outcome (fn st (calls st)) = Normal v →
  (∀ n, calls st ≤ n → outcome (fn st n) ≠ Normal (JPromise p)) →
  promise_settled (step (CallRetry this) w) p = None →
  superseded (step (CallRetry this) w) this p.
Proof.
  intros Hwf Hs Hlive Hret Hfn.
  destruct (retry_suspends w this st v Hs Hlive Hret)
    as (w1 & Hretry & _ & Hq & Hst & Hr & _).
  pose proof (wf_retry _ _ _ _ Hwf Hretry) as Hwf1.
  rewrite (step_retry _ _ _ _ Hretry). intros Hpend.
  eexists. split; [by rewrite Hst, lookup_alter_eq, Hs|]. simpl.
  split; [|split].
  - intros ->. by apply (Hfn (calls st)).
  - intros n Hn. apply Hfn. lia.
  - intros d t Hd Ht Hsrc.
    destruct (wf_pending _ Hwf1 d t p Ht Hsrc Hpend) as [Hpe Hno].
    split; [done|]. eexists _, []. split; [exact Hq|].
    intros o Hin. apply (Hno o). rewrite Hq, elem_of_app. by left.
Qed.

Lemma superseded_not_reflected w this p : superseded w this p → ¬ reflects w this p.
Proof.
  intros (st & Hs & _ & _ & Hcur) (st' & d & t & Hs' & Hd & Ht & Hsrc & Hne).
  rewrite Hs in Hs'. injection Hs' as <-.
  by destruct (Hcur d t Hd Ht Hsrc) as [Hpe _].
Qed.

Lemma run_app es1 es2 w : run (es1 ++ es2) w = run es2 (run es1 w).
Proof. apply foldl_app. Qed.

Lemma run_cons e es w : run (e :: es) w = run es (step e w).
Proof. done. Qed.

(** ** Stale results *)

(** C1, as amended.  Take any history of host events and let [retry] be
    called on a live [State] (invocation B) whose source function returns
    something else than [pa], now and in every later call.  If [pa] is still
    pending once the synchronous part of B has run, then whatever host
    events follow, the [State] never shows the settlement of [pa]: if [data]
    still points at a result that was constructed from [pa], that result is
    pending, [state] reads PENDING and [value] is null.  The continuation of
    B is queued ahead of every callback that a later settlement of [pa]
    queues, and it replaces a result constructed from [pa]. *)
Theorem stale_settlement_never_shows
    (debug : bool) (before after : list Event) (this pa : nat)
    (st : StateObj) (pb : JsVal) :
  Forall host_event before →
  Forall host_event after →
  states (run before (empty_world debug)) !! this = Some st →
  isDestroying (run before (empty_world debug)) (RefState this) = false →
  outcome (fn st (calls st)) = Normal pb →
  (∀ n, calls st ≤ n → outcome (fn st n) ≠ Normal (JPromise pa)) →
  promise_settled (run (before ++ [CallRetry this]) (empty_world debug)) pa = None →
  let w' := run (before ++ CallRetry this :: after) (empty_world debug) in
  ¬ reflects w' this pa
  ∧ ∀ t, State.get_data w' this = Some (Some t) → tsource t = JPromise pa →
      State.state w' this = Some PENDING
      ∧ State.value w' this = Some (Normal JNull).
Proof.
  intros Hbefore Hafter Hs Hlive Hret Hfn Hpend w'.
  pose proof (wf_run before _ (wf_empty debug) Hbefore) as Hwf.
  rewrite run_app in Hpend. change (run [?e] ?x) with (step e x) in Hpend.
  assert (Hsup : superseded w' this pa).
  { unfold w'. rewrite run_app, run_cons.
    apply superseded_run; [by apply wf_step| done |].
    by eapply superseded_start. }
  pose proof (superseded_not_reflected _ _ _ Hsup) as Hnot.
  split; [done|]. intros t Hget Hsrc.
  assert (Hpe : tdata t = IsPending).
  { assert (Hne : tdata t ≠ IsPending → False); [|by destruct (tdata t); try done;
      destruct Hne].
    intros Hne. destruct Hnot. unfold State.get_data in Hget.
    destruct (states w' !! this) as [st'|] eqn:Hs'; [|done]. simpl in Hget.
    destruct (data st') as [d|] eqn:Hd; [|done].
    destruct (results w' !! d) as [t'|] eqn:Ht; [|done].
    injection Hget as ->. by exists st', d, t. }
  unfold State.state, State.value. rewrite Hget. simpl.
  unfold TrackedAsyncData.state, TrackedAsyncData.isResolved, TrackedAsyncData.state.
  by rewrite Hpe.
Qed.

Lemma stale_settlement_never_shows_witness :
  ¬ reflects (run (invocation_A ++ CallRetry 0 :: settlements) (empty_world true)) 0 10.
Proof.
  refine (proj1 (stale_settlement_never_shows true invocation_A settlements 0 10
            {| data := Some 2; promise := JPromise 10; fn := new_promise_each_call;
               calls := 1 |} (JPromise 11) _ _ _ _ _ _ _)).
  - repeat (constructor; [exact I|]). constructor.
  - repeat (constructor; [exact I|]). constructor.
  - vm_compute. reflexivity.
  - vm_compute. reflexivity.
  - vm_compute. reflexivity.
  - intros n Hn [= E]. simpl in Hn. lia.
  - vm_compute. reflexivity.
Defined.

(** C1, as the claim is written, fails when the call of the source function
    that starts invocation B is itself what settles the earlier promise.
    Promise 10 is pending when [retry] is called for B, and B returns promise
    11; but the function resolves promise 10 as it runs, so the callback of
    result 2 is queued ahead of the continuation of B.  After the next
    microtask [data] still points at result 2, and [state] and [value] show
    the outcome of promise 10.  (One microtask later the continuation of B
    replaces the result.) *)
Lemma stale_settlement_shows_for_one_microtask :
  Forall host_event (cancelling_A ++ [CallRetry 0; RunMicrotask])
  ∧ states (run cancelling_A (empty_world true)) !! 0
    = Some {| data := Some 2; promise := JPromise 10; fn := cancels_previous;
              calls := 1 |}
  ∧ isDestroying (run cancelling_A (empty_world true)) (RefState 0) = false
  ∧ promise_settled (run cancelling_A (empty_world true)) 10 = None
  ∧ outcome (cancels_previous 1) = Normal (JPromise 11)
  ∧ (∀ n, 1 ≤ n → outcome (cancels_previous n) ≠ Normal (JPromise 10))
  ∧ reflects (run (cancelling_A ++ [CallRetry 0; RunMicrotask]) (empty_world true)) 0 10
  ∧ State.state (run (cancelling_A ++ [CallRetry 0; RunMicrotask]) (empty_world true)) 0
    = Some RESOLVED
  ∧ State.value (run (cancelling_A ++ [CallRetry 0; RunMicrotask]) (empty_world true)) 0
    = Some (Normal (JStr "cancelled"))
  ∧ State.state
      (run (cancelling_A ++ [CallRetry 0; RunMicrotask; RunMicrotask]) (empty_world true))
      0
    = Some PENDING.
Proof.
  split; [repeat (constructor; [exact I|]); constructor|].
  split; [vm_compute; reflexivity|].
  split; [vm_compute; reflexivity|].
  split; [vm_compute; reflexivity|].
  split; [reflexivity|].
  split; [intros n Hn [= E]; lia|].
  split; [|split; [|split]]; try (vm_compute; reflexivity).
  exists {| data := Some 2; promise := JPromise 11; fn := cancels_previous; calls := 2 |},
    2, {| tdata := IsResolved (JStr "cancelled"); tsource := JPromise 10 |}.
  split; [vm_compute; reflexivity|]. split; [reflexivity|].
  split; [vm_compute; reflexivity|]. split; [reflexivity|]. discriminate.
Qed.

(** Why the host is taken not to destroy a result directly: [retry] leaves
    a previous result that is already in destruction where it is, and when
    the [State] is in destruction too it returns without replacing it; the
    result then stays current and shows the settlement of its promise. *)
Example destroyed_from_outside_stays_current :
  State.state (run destroyed_from_outside (empty_world true)) 0 = Some RESOLVED
  ∧ State.value (run destroyed_from_outside (empty_world true)) 0 = Some (Normal (JNum 1))
  ∧ data <$> states (run destroyed_from_outside (empty_world true)) !! 0 = Some (Some 2).
Proof. vm_compute. repeat split; reflexivity. Qed.

(** ** The steps of one call *)







(** ** Reference stability *)

Lemma serves_frame w w' h s :
  serves w h s → resources w' = resources w → next w ≤ next w' → serves w' h s.
Proof.
  intros [Hlt (r & Hr & Hrest)] Hrs Hn. split; [lia|]. exists r. by rewrite Hrs.
Qed.

Lemma run_setup_frame f w :
  resources (run_setup f w).2 = resources w ∧ next (run_setup f w).2 = next w
  ∧ ∀ i, is_Some (states (run_setup f w).2 !! i) ↔ is_Some (states w !! i).
Proof.
  destruct f as [s]. simpl.
  destruct (State.retry s w) as [[r w']|] eqn:H; [|done].
  destruct (retry_effect _ _ _ _ H) as (Hd & _ & _ & Hrs & _ & Hn & _).
  split; [done|]. split; [done|]. intros i. specialize (Hd i).
  unfold data_at in Hd. rewrite <- !fmap_is_Some with (f := data). by rewrite Hd.
Qed.

Lemma serves_step e w h s : serves w h s → serves (step e w) h s.
Proof.
  intros Hserves. destruct e as [j| |p o|o| |context f|h' stale]; unfold step.
  - destruct (State.retry j w) as [[r w']|] eqn:H; [|done].
    destruct (retry_effect _ _ _ _ H) as (_ & _ & _ & Hrs & _ & Hn & _).
    apply (serves_frame w); [done..|lia].
  - unfold run_microtask. destruct (microtasks w) as [|[j|d o'] q]; [done| |].
    + simpl. destruct (State.retry_resume j _) as [[c w']|] eqn:H; [|done].
      destruct (resume_frame _ _ _ _ H) as (_ & _ & _ & Hrs & Hn).
      by apply (serves_frame w).
    + by apply (serves_frame w).
  - apply (serves_frame w); [done| |]; unfold promise_settle;
      by destruct (promise_settled w p).
  - by apply (serves_frame w).
  - by apply (serves_frame w).
  - destruct (trackedFunction_frame context f w) as (_ & _ & Hrs & _ & _ & Hn).
    destruct Hserves as [Hlt (r & Hr & Hrest)]. split; [lia|].
    exists r. rewrite Hrs. split; [|done]. rewrite lookup_insert_ne; [done|lia].
  - destruct (current stale h' w) as [[v w']|] eqn:H; [|done].
    destruct (current_cases _ _ _ _ _ H) as (r' & Hr' & [[_ ->]|Heval]); [done|].
    destruct Heval as (Hv & _ & _ & _ & Hn & Hrs).
    destruct (run_setup_frame (setup r') w) as (Hrs1 & Hn1 & _).
    destruct Hserves as [Hlt (r & Hr & Hsetup & Hcache)].
    split; [lia|]. rewrite Hrs, Hrs1.
    destruct (decide (h' = h)) as [->|Hne].
    + rewrite lookup_insert_eq. eexists. split; [done|]. simpl.
      rewrite Hr in Hr'. injection Hr' as <-. split; [done|]. right.
      by rewrite Hv, run_setup_value, Hsetup.
    + rewrite lookup_insert_ne by done. eauto.
Qed.

Lemma serves_run es w h s : serves w h s → serves (run es w) h s.
Proof.
  revert w. induction es as [|e es IH]; intros w H; [done|].
  rewrite run_cons. by apply IH, serves_step.
Qed.

Lemma serves_current w h s stale :
  serves w h s → ∃ w', current stale h w = Some (JObj (RefState s), w').
Proof.
  intros [_ (r & Hr & Hsetup & Hcache)]. unfold current. rewrite Hr. simpl.
  pose proof (run_setup_value (setup r) w) as Hv. rewrite Hsetup in Hv.
  rewrite Hsetup.
  destruct (run_setup (RetryAndReturn s) w) as [v w1]. simpl in Hv. subst v.
  destruct Hcache as [-> | ->]; [|destruct stale]; eauto.
Qed.

(** C8. One call of [trackedFunction] constructs one [State]; the callback
    it gives to [resource] returns that same [State] at every evaluation and
    constructs no other; so whatever happens in between, and whether or not a
    dependency changed, every read of the resource yields the identical
    [State]. *)
Theorem trackedFunction_reference_stable
    (w : World) (context : Ref) (f : SourceFn) (es : list Event) (stale : bool) :
  let h := (trackedFunction context f w).1 in
  let w0 := (trackedFunction context f w).2 in
  let s := next w in
  states w0
  = <[s := {| data := None; promise := JUndefined; fn := f; calls := 0 |}]> (states w)
  ∧ (∃ r, resources w0 !! h = Some r ∧ setup r = RetryAndReturn s)
  ∧ (∀ w', (run_setup (RetryAndReturn s) w').1 = JObj (RefState s)
           ∧ ∀ i, is_Some (states (run_setup (RetryAndReturn s) w').2 !! i)
                  ↔ is_Some (states w' !! i))
  ∧ ∃ w', current stale h (run es w0) = Some (JObj (RefState s), w').
Proof.
  intros h w0 s.
  destruct (trackedFunction_frame context f w) as (Hh & Hs & Hrs & _ & _ & Hn).
  fold h in Hh. fold w0 in Hs, Hrs, Hn. fold s in Hh, Hs, Hrs, Hn.
  split; [done|]. split; [|split].
  - rewrite Hrs, Hh, lookup_insert_eq. eauto.
  - intros w'. split; [done|]. apply run_setup_frame.
  - apply serves_current, serves_run. split; [lia|].
    rewrite Hrs, Hh, lookup_insert_eq. eauto.
Qed.

(** * Further properties of [State] and [trackedFunction] *)

(** ** The accessors *)

(** X1. [isResolved], [isRejected] and its alias [isError] are functions
    of [state], each true in exactly one state; with [isPending] they divide
    the states between them, so exactly one of [isPending], [isResolved] and
    [isRejected] holds at any time. *)
Theorem flags_follow_state (w : World) (this : nat) :
  State.isResolved w this = (λ s, bool_decide (s = RESOLVED)) <$> State.state w this
  ∧ State.isRejected w this = (λ s, bool_decide (s = REJECTED)) <$> State.state w this
  ∧ State.isError w this = (λ s, bool_decide (s = REJECTED)) <$> State.state w this
  ∧ ∀ p r j, State.isPending w this = Some p → State.isResolved w this = Some r →
      State.isRejected w this = Some j →
      (p, r, j) = (true, false, false) ∨ (p, r, j) = (false, true, false)
      ∨ (p, r, j) = (false, false, true).
Proof.
  unfold State.isError, State.isResolved, State.isRejected, State.isPending, State.state.
  destruct (State.get_data w this) as [[[[|v|e] src]|]|]; simpl;
    repeat split; try done; intros p r j; intros [= <-] [= <-] [= <-];
    vm_compute; auto.
Qed.

Lemma flags_follow_state_witness :
  (false, true, false) = (true, false, false)
  ∨ (false, true, false) = (false, true, false)
  ∨ (false, true, false) = (false, false, true).
Proof.
  apply (proj2 (proj2 (proj2 (flags_follow_state resolved_world 0)))
           false true false);
    by vm_compute.
Defined.

(** X2. [isFinished], and so its alias [isSettled], holds exactly when
    [state] is resolved or rejected, which is exactly when [isPending], and
    so its alias [isLoading], does not: of finished and loading, one and
    only one is true at any time, also before the first call. *)
Theorem finished_is_not_pending (w : World) (this : nat) :
  State.isFinished w this
  = (λ s, bool_decide (s = RESOLVED ∨ s = REJECTED)) <$> State.state w this
  ∧ State.isFinished w this = negb <$> State.isPending w this
  ∧ State.isSettled w this = negb <$> State.isLoading w this
  ∧ State.isLoading w this = negb <$> State.isSettled w this.
Proof.
  unfold State.isSettled, State.isLoading, State.isFinished,
    State.isResolved, State.isRejected, State.isPending, State.state.
  by destruct (State.get_data w this) as [[[[|v|e] src]|]|].
Qed.

(** X3. With a result in [data], [value] is what a resolved result holds,
    passed through as it is, and [error] is the reason of a rejected one
    with null in place of a nullish reason; and conversely a value or error
    other than null is only ever read off a result in the matching state. *)
Theorem value_and_error_by_state (w : World) (this : nat) (t : TrackedAsyncDataObj) :
  State.get_data w this = Some (Some t) →
  (∀ v, tdata t = IsResolved v →
     State.state w this = Some RESOLVED
     ∧ State.value w this = Some (Normal v))
  ∧ (∀ e, tdata t = IsRejected e →
     State.state w this = Some REJECTED
     ∧ State.isError w this = Some true
     ∧ State.error w this = Some (Normal (nullish e JNull))
     ∧ State.value w this = Some (Normal JNull))
  ∧ (∀ v, State.value w this = Some (Normal v) → v ≠ JNull → tdata t = IsResolved v)
  ∧ (∀ e, State.error w this = Some (Normal e) → e ≠ JNull → tdata t = IsRejected e).
Proof.
  intros Hd.
  unfold State.state, State.value, State.error, State.isError, State.isRejected.
  rewrite Hd. simpl.
  unfold TrackedAsyncData.state, TrackedAsyncData.value, TrackedAsyncData.error,
    TrackedAsyncData.isResolved, TrackedAsyncData.isRejected, TrackedAsyncData.state.
  destruct t as [[|v0|e0] src]; simpl; (split; [|split; [|split]]).
  all: try (intros x Hx; discriminate Hx).
  all: try (intros x [= <-]; by repeat split).
  all: try (intros x Hx Hne; destruct (DEBUG w); simpl in Hx;
            by (try discriminate Hx; injection Hx as <-)).
  intros x Hx Hne. injection Hx as <-. destruct e0; simpl in *; congruence.
Qed.

Lemma value_and_error_by_state_witness :
  (State.state rejected_world 0 = Some REJECTED
   ∧ State.isError rejected_world 0 = Some true
   ∧ State.error rejected_world 0 = Some (Normal (JStr "no"))
   ∧ State.value rejected_world 0 = Some (Normal JNull))
  ∧ (State.state resolved_world 0 = Some RESOLVED
     ∧ State.value resolved_world 0 = Some (Normal (JNum 42))).
Proof.
  split.
  - apply (proj1 (proj2 (value_and_error_by_state rejected_world 0
             {| tdata := IsRejected (JStr "no"); tsource := JPromise 8 |} eq_refl))
             (JStr "no") eq_refl).
  - apply (proj1 (value_and_error_by_state resolved_world 0
             {| tdata := IsResolved (JNum 42); tsource := JPromise 7 |} eq_refl)
             (JNum 42) eq_refl).
Defined.

(** ** The destroyable graph: the cascade reaches every child *)

Section cascade_facts.
Import Destroyable.
Implicit Types (g : gmap Ref Meta) (o x : Ref).

Lemma foldl_destroy_monotone n cs g x :
  isDestroying g x = true →
  isDestroying (foldl (λ acc c, destroy_from n c acc) g cs) x = true.
Proof.
  intros H. apply (foldl_invariant (λ a, isDestroying a x = true)); [done|].
  intros a b _. apply destroy_from_monotone.
Qed.

Lemma foldl_destroys n cs g c :
  c ∈ cs → isDestroying (foldl (λ acc c, destroy_from (S n) c acc) g cs) c = true.
Proof.
  revert g. induction cs as [|x cs IH]; intros g Hin; [by apply elem_of_nil in Hin|].
  apply elem_of_cons in Hin as [->|Hin].
  - apply (foldl_destroy_monotone (S n) cs), destroy_from_self.
  - by apply IH.
Qed.

Lemma isDestroying_mark_ne o g x :
  o ≠ x → isDestroying (mark DESTROYING o g) x = isDestroying g x.
Proof. intros Hne. unfold isDestroying. by rewrite lifecycle_mark_ne. Qed.

(** Whatever one [destroy] newly puts in destruction has all its children
    in destruction when the call returns. *)
Lemma destroy_from_closed n :
  ∀ o g, live_entries g < n →
    ∀ k c, isDestroying g k = false →
           isDestroying (destroy_from n o g) k = true →
           c ∈ children_of g k →
           isDestroying (destroy_from n o g) c = true.
Proof.
  induction n as [|n IH]; intros o g Hn k c Hk Hk' Hc; [lia|].
  assert (Hfold : ∀ cs acc, live_entries acc < n →
            (∀ y, children_of acc y = children_of g y) →
            isDestroying acc k = false →
            isDestroying (foldl (λ a c, destroy_from n c a) acc cs) k = true →
            isDestroying (foldl (λ a c, destroy_from n c a) acc cs) c = true).
  { induction cs as [|y cs IHcs]; intros acc Hacc Hch Hb Ha; simpl in *;
      [congruence|].
    destruct (isDestroying (destroy_from n y acc) k) eqn:Hy.
    - apply foldl_destroy_monotone. apply (IH y acc Hacc k c Hb Hy).
      by rewrite Hch.
    - apply IHcs; [| |done|done].
      + pose proof (proj2 (destroy_from_fuel n y acc Hacc)). lia.
      + intros z. by rewrite destroy_from_children. }
  simpl in *. destruct (isDestroying g o) eqn:Ho; [congruence|].
  assert (Hlive : lifecycle g o = LIVE).
  { unfold isDestroying in Ho. by destruct (lifecycle g o). }
  destruct (live_entries_mark g o) as [Hle Hdec].
  destruct (g !! o) as [mt|] eqn:Hg.
  - specialize (Hdec (mk_is_Some _ _ eq_refl) Hlive).
    destruct (decide (o = k)) as [->|Hne].
    + destruct n as [|n']; [lia|]. by apply foldl_destroys.
    + apply Hfold; [lia| |by rewrite isDestroying_mark_ne|done].
      intros y. apply children_of_mark.
  - unfold children_of at 1 in Hk'. unfold children_of at 1. rewrite Hg in *.
    simpl in *. destruct (decide (o = k)) as [->|Hne].
    + unfold children_of in Hc. rewrite Hg in Hc. by apply elem_of_nil in Hc.
    + rewrite isDestroying_mark_ne in Hk' by done. congruence.
Qed.

(** A child that is in destruction whenever its parent is stays so
    across [destroy] of anything. *)
Lemma destroy_keeps_tied o g parent child :
  child ∈ children_of g parent →
  (isDestroying g parent = true → isDestroying g child = true) →
  isDestroying (destroy o g) parent = true →
  isDestroying (destroy o g) child = true.
Proof.
  intros Hc Ht Hp. destruct (isDestroying g parent) eqn:Hb.
  - by apply destroy_from_monotone, Ht.
  - pose proof (live_entries_le_size g).
    unfold destroy in *.
    apply (destroy_from_closed (S (size g)) o g) with (k := parent); [lia|done|done|done].
Qed.

Lemma lifecycle_associate parent child g x :
  lifecycle (associateDestroyableChild parent child g) x = lifecycle g x.
Proof.
  unfold associateDestroyableChild. unfold lifecycle at 1.
  destruct (decide (parent = x)) as [->|Hne].
  - by rewrite lookup_insert_eq.
  - by rewrite lookup_insert_ne.
Qed.

Lemma children_associate parent child g k c :
  c ∈ children_of g k → c ∈ children_of (associateDestroyableChild parent child g) k.
Proof.
  unfold associateDestroyableChild. unfold children_of at 2.
  destruct (decide (parent = k)) as [->|Hne].
  - rewrite lookup_insert_eq. simpl. intros H. apply elem_of_app. by left.
  - by rewrite lookup_insert_ne.
Qed.

Lemma children_associate_new parent child g :
  child ∈ children_of (associateDestroyableChild parent child g) parent.
Proof.
  unfold associateDestroyableChild, children_of at 1. rewrite lookup_insert_eq.
  simpl. apply elem_of_app. right. by left.
Qed.

Lemma lifecycle_finalize g x :
  lifecycle (finalize g) x
  = match lifecycle g x with LIVE => LIVE | _ => DESTROYED end.
Proof.
  unfold lifecycle, finalize. rewrite lookup_fmap. by destruct (g !! x) as [[[] ?]|].
Qed.

Lemma isDestroying_finalize g x : isDestroying (finalize g) x = isDestroying g x.
Proof. unfold isDestroying. rewrite lifecycle_finalize. by destruct (lifecycle g x). Qed.

(** Only what is being destroyed is unregistered. *)
Lemma children_finalize g k c :
  c ∈ children_of g k → isDestroying g c = false → c ∈ children_of (finalize g) k.
Proof.
  unfold children_of, finalize. rewrite lookup_fmap.
  destruct (g !! k) as [[[] cs]|]; simpl; try done.
  intros Hin Hlive. apply list_elem_of_filter. split; [|done].
  unfold isDestroying in Hlive. by destruct (lifecycle g c).
Qed.

End cascade_facts.

(** ** What one host event does to the graph, the trace and a [State] *)

Lemma current_shape stale h w v w' :
  current stale h w = Some (v, w') →
  w' = w
  ∨ ∃ s F, w' = associateDestroyableChild (RefResource h) (RefState s)
                  (with_resources F (step (CallRetry s) w)).
Proof.
  unfold current. destruct (resources w !! h) as [r|]; simpl; [|done].
  destruct (setup r) as [s]. simpl.
  destruct (cache r) as [c|]; [destruct stale|]; intros [= _ <-]; eauto.
Qed.

Lemma trackedFunction_graph context f w :
  destroyables (trackedFunction context f w).2
  = Destroyable.associateDestroyableChild (RefResource (S (next w))) (RefState (next w))
      (Destroyable.associateDestroyableChild context (RefResource (S (next w)))
         (destroyables w))
  ∧ trace (trackedFunction context f w).2 = trace w
  ∧ promises (trackedFunction context f w).2 = promises w
  ∧ DEBUG (trackedFunction context f w).2 = DEBUG w.
Proof. done. Qed.

Lemma discard_previous_graph w this st :
  destroyables (State.discard_previous this st w) = destroyables w
  ∨ ∃ d, destroyables (State.discard_previous this st w)
         = Destroyable.destroy (RefTrackedAsyncData d) (destroyables w).
Proof.
  unfold State.discard_previous. destruct (data st) as [d|]; [|by left].
  destruct (negb _); [|by left]. right. by exists d.
Qed.

Lemma resume_graph this w c w' :
  State.retry_resume this w = Some (c, w') →
  destroyables w' = destroyables w
  ∨ ∃ d, destroyables w' = Destroyable.destroy (RefTrackedAsyncData d) (destroyables w).
Proof.
  destruct (states w !! this) as [st|] eqn:Hs;
    [|by unfold State.retry_resume; rewrite Hs].
  rewrite (retry_resume_unfold _ _ _ Hs). cbv zeta.
  pose proof (discard_previous_graph w this st) as Hg.
  destruct (isDestroying _ (RefState this)); intros [= _ <-]; [done|].
  destruct (new_frame (promise st) (State.discard_previous this st w))
    as (_ & Hg2 & _).
  simpl. by rewrite Hg2.
Qed.

(** Every event leaves it as it is who is in destruction and unregisters
    no child that is not, or is one call of [destroy]. *)
Lemma step_graph e w :
  ((∀ x, isDestroying (step e w) x = isDestroying w x)
   ∧ ∀ k c, c ∈ Destroyable.children_of (destroyables w) k →
            isDestroying w c = false →
            c ∈ Destroyable.children_of (destroyables (step e w)) k)
  ∨ ∃ o, destroyables (step e w) = Destroyable.destroy o (destroyables w).
Proof.
  assert (Hretry : ∀ s, destroyables (step (CallRetry s) w) = destroyables w).
  { intros s. simpl. destruct (State.retry s w) as [[r w']|] eqn:H; [|done].
    by destruct (retry_effect _ _ _ _ H) as (_ & _ & _ & _ & ? & _). }
  assert (Hsame : ∀ w', destroyables w' = destroyables w →
            (∀ x, isDestroying w' x = isDestroying w x)
            ∧ ∀ k c, c ∈ Destroyable.children_of (destroyables w) k →
                     isDestroying w c = false →
                     c ∈ Destroyable.children_of (destroyables w') k).
  { intros w' Hg. unfold isDestroying. by rewrite Hg. }
  destruct e as [this| |p o|o| |context f|h stale].
  - left. apply Hsame, Hretry.
  - unfold step, run_microtask.
    destruct (microtasks w) as [|[this|d o] q]; [by left; apply Hsame| |].
    + simpl. destruct (State.retry_resume this _) as [[c w']|] eqn:H;
        [|by left; apply Hsame].
      destruct (resume_graph _ _ _ _ H) as [Hg|[d Hg]].
      * left. by apply Hsame.
      * right. by exists (RefTrackedAsyncData d).
    + by left; apply Hsame.
  - left. apply Hsame. simpl.
    by destruct (promise_settle_frame p o w) as (_ & _ & _ & ? & _).
  - right. by exists o.
  - left. simpl. split.
    + intros x. apply isDestroying_finalize.
    + intros k c. apply children_finalize.
  - left. unfold step. destruct (trackedFunction_graph context f w) as (Hg & _).
    unfold isDestroying, Destroyable.isDestroying. rewrite Hg. split.
    + intros x. by rewrite !lifecycle_associate.
    + intros k c Hc _. by do 2 apply children_associate.
  - left. unfold step. destruct (current stale h w) as [[v w']|] eqn:H;
      [|by apply Hsame].
    apply current_shape in H as [->|(s & F & ->)]; [by apply Hsame|].
    unfold isDestroying, Destroyable.isDestroying.
    change (destroyables (associateDestroyableChild ?p ?c (with_resources ?G ?w0)))
      with (Destroyable.associateDestroyableChild p c (destroyables w0)).
    rewrite Hretry. split.
    + intros x. by rewrite lifecycle_associate.
    + intros k c Hc _. by apply children_associate.
Qed.

(** Destruction is never undone. *)
Lemma isDestroying_step e w x :
  isDestroying w x = true → isDestroying (step e w) x = true.
Proof.
  intros H. destruct (step_graph e w) as [[Hl _]|[o Hg]].
  - by rewrite Hl.
  - unfold isDestroying. rewrite Hg. by apply destroy_from_monotone.
Qed.

Lemma isDestroying_run es w x :
  isDestroying w x = true → isDestroying (run es w) x = true.
Proof.
  revert w. induction es as [|e es IH]; intros w H; [done|].
  simpl. by apply IH, isDestroying_step.
Qed.

Lemma tied_step e w parent child : tied w parent child → tied (step e w) parent child.
Proof.
  intros [Ht Hc]. destruct (step_graph e w) as [[Hl Hk]|[o Hg]].
  - split; [by rewrite !Hl|]. rewrite Hl. intros Hlive. by apply Hk; [apply Hc|].
  - unfold tied, isDestroying. rewrite Hg. split.
    + intros Hp.
      destruct (Destroyable.isDestroying (destroyables w) child) eqn:Hchild;
        [by apply destroy_from_monotone|].
      apply (destroy_keeps_tied o (destroyables w) parent child); [by apply Hc| |done].
      intros Hp'. apply Ht in Hp'. unfold isDestroying in Hp'. congruence.
    + intros Hlive. unfold Destroyable.destroy. rewrite destroy_from_children.
      apply Hc. unfold isDestroying.
      destruct (Destroyable.isDestroying (destroyables w) child) eqn:Hchild; [|done].
      apply (destroy_from_monotone (S (size (destroyables w))) o) in Hchild.
      unfold Destroyable.destroy in Hlive. congruence.
Qed.

Lemma tied_run es w parent child : tied w parent child → tied (run es w) parent child.
Proof.
  revert w. induction es as [|e es IH]; intros w H; [done|].
  simpl. by apply IH, tied_step.
Qed.

(** X4. [trackedFunction] ties the [State] to the handle it returns:
    whatever happens afterwards, the [State] is in destruction whenever the
    handle is, and until it is in destruction itself it is registered as a
    destroyable child of the handle; so [destroy] of the handle, at any
    later time, leaves the [State] in destruction, and it stays so for
    good. *)
Theorem destroying_the_resource_destroys_the_state
    (w : World) (context : Ref) (f : SourceFn) (es es' : list Event) :
  isDestroying w (RefResource (S (next w))) = false →
  let h := (trackedFunction context f w).1 in
  let s := next w in
  let w1 := run es (trackedFunction context f w).2 in
  tied w1 (RefResource h) (RefState s)
  ∧ isDestroying (step (Destroy (RefResource h)) w1) (RefState s) = true
  ∧ isDestroying (run es' (step (Destroy (RefResource h)) w1)) (RefState s) = true.
Proof.
  intros Hfresh h s w1.
  assert (Htied : tied w1 (RefResource h) (RefState s)).
  { apply tied_run. destruct (trackedFunction_graph context f w) as (Hg & _).
    unfold tied, isDestroying, Destroyable.isDestroying. rewrite Hg. split.
    - rewrite !lifecycle_associate.
      unfold isDestroying, Destroyable.isDestroying in Hfresh.
      unfold h. rewrite (proj1 (trackedFunction_frame context f w)).
      by rewrite Hfresh.
    - intros _. apply children_associate_new. }
  assert (Hd : isDestroying (step (Destroy (RefResource h)) w1) (RefState s) = true).
  { apply (tied_step (Destroy (RefResource h))) in Htied as [Ht _].
    apply Ht. apply isDestroying_destroy_self. }
  split; [done|]. split; [done|]. by apply isDestroying_run.
Qed.

Lemma destroying_the_resource_destroys_the_state_witness :
  isDestroying
    (step (Destroy (RefResource 1))
       (run [ReadCurrent 1 false; RunMicrotask; RunMicrotask] tracked_world))
    (RefState 0) = true.
Proof.
  apply (destroying_the_resource_destroys_the_state world_with_42 (RefObject 0)
           returns_promise_7 [ReadCurrent 1 false; RunMicrotask; RunMicrotask] []).
  reflexivity.
Defined.

Lemma retry_step_effects s w :
  ∃ l, trace (step (CallRetry s) w) = trace w ++ l
       ∧ ∀ x i, x ∈ l → acts_on x i → isDestroying w (RefState i) = false.
Proof.
  unfold step. destruct (states w !! s) as [st|] eqn:Hs.
  - destruct (State.retry s w) as [[r w']|] eqn:H.
    + destruct (retry_cases _ _ _ _ _ Hs H)
        as [(_ & _ & ->)|[(Hlive & e & He & _ & ->)|(Hlive & v & Hv & _ & _)]].
      * exists []. split; [by rewrite app_nil_r|]. intros x i Hx. by apply elem_of_nil in Hx.
      * destruct (call_fn_frame s st w) as (_ & _ & _ & _ & _ & Ht & _).
        eexists. split; [exact Ht|]. intros x i Hx Hact.
        apply list_elem_of_singleton in Hx as ->. simpl in Hact. by subst.
      * destruct (retry_suspends w s st v Hs Hlive Hv) as (w1 & Hr & Ht & _).
        rewrite H in Hr. injection Hr as _ <-.
        eexists. split; [exact Ht|]. intros x i Hx Hact.
        repeat (apply elem_of_cons in Hx as [->|Hx]; [simpl in Hact; by subst|]).
        by apply elem_of_nil in Hx.
    + exists []. split; [by rewrite app_nil_r|]. intros x i Hx. by apply elem_of_nil in Hx.
  - unfold State.retry. rewrite Hs. simpl.
    exists []. split; [by rewrite app_nil_r|]. intros x i Hx. by apply elem_of_nil in Hx.
Qed.

Lemma resume_effects this w c w' :
  State.retry_resume this w = Some (c, w') →
  ∃ l, trace w' = trace w ++ l
       ∧ ∀ x i, x ∈ l → acts_on x i → isDestroying w (RefState i) = false.
Proof.
  destruct (states w !! this) as [st|] eqn:Hs;
    [|by unfold State.retry_resume; rewrite Hs].
  rewrite (retry_resume_unfold _ _ _ Hs). cbv zeta.
  destruct (discard_previous_frame w this st) as (_ & _ & _ & Hn & _ & Ht).
  assert (Hquiet : ∀ x i, x ∈ discard_effects w this st → ¬ acts_on x i).
  { intros x i. unfold discard_effects.
    destruct (data st) as [d|]; [|intros Hx; by apply elem_of_nil in Hx].
    destruct (isDestroying w (RefTrackedAsyncData d));
      intros Hx; [by apply elem_of_nil in Hx|].
    repeat (apply elem_of_cons in Hx as [->|Hx]; [by intros []|]).
    by apply elem_of_nil in Hx. }
  destruct (isDestroying _ (RefState this)) eqn:Hlive; intros [= _ <-].
  - eexists. split; [exact Ht|]. intros x i Hx Hact. by destruct (Hquiet x i).
  - destruct (new_frame (promise st) (State.discard_previous this st w))
      as (_ & _ & Ht2 & _).
    eexists. split.
    { simpl. rewrite Ht2, Ht, <- !app_assoc. done. }
    intros x i Hx Hact. apply elem_of_app in Hx as [Hx|Hx]; [by destruct (Hquiet x i)|].
    repeat (apply elem_of_cons in Hx as [->|Hx]; [simpl in Hact; try done; subst|]).
    + destruct (isDestroying w (RefState i)) eqn:Hw; [|done].
      by rewrite (discard_previous_monotone w i st _ Hw) in Hlive.
    + by apply elem_of_nil in Hx.
Qed.

(** Whatever a [State] does of its own accord, it does while it is not in
    destruction. *)
Lemma step_effects e w :
  ∃ l, trace (step e w) = trace w ++ l
       ∧ ∀ x i, x ∈ l → acts_on x i → isDestroying w (RefState i) = false.
Proof.
  assert (Hnil : ∀ w', trace w' = trace w →
            ∃ l, trace w' = trace w ++ l
                 ∧ ∀ x i, x ∈ l → acts_on x i → isDestroying w (RefState i) = false).
  { intros w' Ht. exists []. split; [by rewrite app_nil_r|].
    intros x i Hx. by apply elem_of_nil in Hx. }
  destruct e as [this| |p o|o| |context f|h stale].
  - apply retry_step_effects.
  - unfold step, run_microtask.
    destruct (microtasks w) as [|[this|d o] q]; [by apply Hnil| |by apply Hnil].
    simpl. destruct (State.retry_resume this _) as [[c w']|] eqn:H; [|by apply Hnil].
    apply (resume_effects _ _ _ _ H).
  - apply Hnil. simpl.
    by destruct (promise_settle_frame p o w) as (_ & _ & _ & _ & ? & _).
  - by apply Hnil.
  - by apply Hnil.
  - by apply Hnil.
  - unfold step. destruct (current stale h w) as [[v w']|] eqn:H; [|by apply Hnil].
    apply current_shape in H as [->|(s & F & ->)]; [by apply Hnil|].
    apply retry_step_effects.
Qed.

(** What one event does to a [State] that exists. *)
Lemma retry_step_state s w this st :
  states w !! this = Some st →
  ∃ st', states (step (CallRetry s) w) !! this = Some st'
    ∧ fn st' = fn st ∧ data st' = data st
    ∧ (isDestroying w (RefState this) = true → st' = st).
Proof.
  intros Hs. unfold step. destruct (State.retry s w) as [[r w']|] eqn:H; [|eauto].
  destruct (decide (s = this)) as [->|Hne].
  - destruct (retry_own_state _ _ _ _ _ Hs H) as (st' & Hs' & Hd & Hf & _).
    exists st'. repeat split; try done. intros Hdead.
    destruct (retry_cases _ _ _ _ _ Hs H)
      as [(_ & _ & ->)|[(Hlive & _)|(Hlive & _)]]; congruence.
  - destruct (retry_frame _ _ _ _ H) as [Hfr _]. rewrite Hfr by done. eauto.
Qed.

Lemma step_state e w this st :
  wf w → states w !! this = Some st →
  ∃ st', states (step e w) !! this = Some st'
    ∧ fn st' = fn st
    ∧ (isDestroying w (RefState this) = true →
       calls st' = calls st ∧ promise st' = promise st
       ∧ (data st' = data st ∨ data st' = None))
    ∧ (is_Some (data st) →
       is_Some (data st') ∨ isDestroying (step e w) (RefState this) = true).
Proof.
  intros Hwf Hs.
  assert (Hsame : ∀ w', states w' !! this = states w !! this →
            ∃ st', states w' !! this = Some st'
              ∧ fn st' = fn st
              ∧ (isDestroying w (RefState this) = true →
                 calls st' = calls st ∧ promise st' = promise st
                 ∧ (data st' = data st ∨ data st' = None))
              ∧ (is_Some (data st) →
                 is_Some (data st') ∨ isDestroying w' (RefState this) = true)).
  { intros w' E. exists st. rewrite E. repeat split; auto. }
  assert (Hretry : ∀ s,
            ∃ st', states (step (CallRetry s) w) !! this = Some st'
              ∧ fn st' = fn st
              ∧ (isDestroying w (RefState this) = true →
                 calls st' = calls st ∧ promise st' = promise st
                 ∧ (data st' = data st ∨ data st' = None))
              ∧ (is_Some (data st) → is_Some (data st'))).
  { intros s. destruct (retry_step_state s w this st Hs) as (st' & Hs' & Hf & Hd & Hdead).
    exists st'. repeat split; try done.
    - by rewrite (Hdead H).
    - by rewrite (Hdead H).
    - by left.
    - by rewrite Hd. }
  destruct e as [s| |p o|o| |context f|h stale].
  - destruct (Hretry s) as (st' & ? & ? & ? & ?). exists st'.
    split; [done|]. split; [done|]. split; [done|]. auto.
  - unfold step, run_microtask.
    destruct (microtasks w) as [|[j|d o] q] eqn:Hq; [by apply Hsame| |by apply Hsame].
    assert (Hwf' : wf (with_microtasks (λ _, q) w)).
    { apply (wf_same_heap w); try done. intros d o Hin. rewrite Hq. by right. }
    simpl. destruct (State.retry_resume j _) as [[c w']|] eqn:H; [|by apply Hsame].
    destruct (decide (j = this)) as [->|Hne].
    + revert H. rewrite (retry_resume_unfold (with_microtasks (λ _, q) w) this st Hs).
      cbv zeta.
      pose proof (discard_previous_states (with_microtasks (λ _, q) w) this st Hs) as Hs1.
      set (w1 := State.discard_previous this st (with_microtasks (λ _, q) w)) in *.
      destruct (isDestroying w1 (RefState this)) eqn:Hlive; intros [= _ <-].
      * eexists. split; [exact Hs1|]. simpl. split; [done|]. split; [|by right].
        intros _. split; [done|]. split; [done|].
        destruct (data st) as [d|]; [|by right].
        destruct (isDestroying _ (RefTrackedAsyncData d)); auto.
      * destruct (new_frame (promise st) w1) as (Hs2 & _).
        simpl. rewrite lookup_alter_eq, Hs2, Hs1. simpl.
        eexists. split; [done|]. simpl. split; [done|]. split; [|by eauto].
        intros Hdead.
        pose proof (discard_previous_monotone (with_microtasks (λ _, q) w)
                      this st _ Hdead) as Hm.
        unfold w1 in Hlive. congruence.
    + destruct (resume_frame _ _ _ _ H) as (Hfr & _).
      apply Hsame. by rewrite Hfr.
  - apply Hsame. simpl.
    by destruct (promise_settle_frame p o w) as (-> & _).
  - by apply Hsame.
  - by apply Hsame.
  - apply Hsame. unfold step.
    destruct (trackedFunction_frame context f w) as (_ & -> & _).
    rewrite lookup_insert_ne; [done|].
    pose proof (wf_states _ Hwf this (mk_is_Some _ _ Hs)). lia.
  - unfold step. destruct (current stale h w) as [[v w']|] eqn:H; [|by apply Hsame].
    apply current_shape in H as [->|(s & F & ->)]; [by apply Hsame|].
    destruct (Hretry s) as (st' & ? & ? & ? & ?). exists st'.
    split; [done|]. split; [done|]. split; [done|]. auto.
Qed.

(** The handle keeps no destroyed child: once the [State] alone has been
    destroyed and the destroy queue has run, the live handle no longer lists
    it, and the [State] stays destroyed. *)
Example destroyed_state_is_unregistered :
  isDestroyed (run [Destroy (RefState 0); FlushDestroyQueue] tracked_world) (RefState 0)
  = true
  ∧ isDestroying (run [Destroy (RefState 0); FlushDestroyQueue] tracked_world)
      (RefResource 1) = false
  ∧ Destroyable.children_of
      (destroyables (run [Destroy (RefState 0)] tracked_world)) (RefResource 1)
    = [RefState 0]
  ∧ Destroyable.children_of
      (destroyables (run [Destroy (RefState 0); FlushDestroyQueue] tracked_world))
      (RefResource 1)
    = [].
Proof. by vm_compute. Qed.

(** ** A [State] in destruction is inert *)

(** X5. Once a [State] is in destruction it never again calls its
    source function, assigns [promise], suspends or stores a result,
    whatever the host does: the number of calls and [promise] stay as they
    are, and [data] keeps its value or becomes null. *)
Theorem state_in_destruction_is_inert
    (debug : bool) (before after : list Event) (this : nat) (st : StateObj) :
  Forall host_event before →
  Forall host_event after →
  let w := run before (empty_world debug) in
  let w' := run after w in
  states w !! this = Some st →
  isDestroying w (RefState this) = true →
  (∃ st', states w' !! this = Some st'
     ∧ fn st' = fn st ∧ calls st' = calls st ∧ promise st' = promise st
     ∧ (data st' = data st ∨ data st' = None))
  ∧ isDestroying w' (RefState this) = true
  ∧ ∀ x, x ∈ effects_since w w' → ¬ acts_on x this.
Proof.
  intros Hb Ha w w' Hs Hdead.
  assert (Hwf : wf w) by (apply wf_run; [apply wf_empty|done]).
  unfold w'. clearbody w. clear w' Hb.
  assert (Hgen : ∃ st' l, states (run after w) !! this = Some st'
            ∧ fn st' = fn st ∧ calls st' = calls st ∧ promise st' = promise st
            ∧ (data st' = data st ∨ data st' = None)
            ∧ trace (run after w) = trace w ++ l
            ∧ ∀ x, x ∈ l → ¬ acts_on x this).
  { revert w st Hwf Hs Hdead.
    induction after as [|e es IH]; intros w st Hwf Hs Hdead.
    - exists st, []. rewrite app_nil_r. repeat split; auto.
      intros x Hx. by apply elem_of_nil in Hx.
    - inversion Ha as [|?? He Hes]; subst.
      destruct (step_state e w this st Hwf Hs) as (st1 & Hs1 & Hf1 & Hd1 & _).
      destruct (Hd1 Hdead) as (Hc1 & Hp1 & Hdata1).
      destruct (step_effects e w) as (l1 & Ht1 & Hq1).
      destruct (IH Hes (step e w) st1) as (st' & l & Hs' & Hf & Hc & Hp & Hd & Ht & Hq);
        [by apply wf_step|done|by apply isDestroying_step|].
      exists st', (l1 ++ l). rewrite run_cons. repeat split; try congruence.
      + destruct Hd as [Hd|Hd]; [|by right].
        destruct Hdata1 as [E|E]; rewrite Hd, E; auto.
      + by rewrite Ht, Ht1, app_assoc.
      + intros x Hx Hact. apply elem_of_app in Hx as [Hx|Hx].
        * pose proof (Hq1 x this Hx Hact). congruence.
        * by apply (Hq x). }
  destruct Hgen as (st' & l & Hs' & Hf & Hc & Hp & Hd & Ht & Hq).
  split; [by exists st'|]. split; [by apply isDestroying_run|].
  unfold effects_since. rewrite Ht, drop_app_length. done.
Qed.

Lemma state_in_destruction_is_inert_witness :
  ∃ st', states (run [CallRetry 0; RunMicrotask; ReadCurrent 1 true]
                   (run (invocation_A ++ [Destroy (RefObject 0)]) (empty_world true)))
         !! 0 = Some st'
    ∧ calls st' = 1 ∧ promise st' = JPromise 10.
Proof.
  destruct (state_in_destruction_is_inert true
              (invocation_A ++ [Destroy (RefObject 0)])
              [CallRetry 0; RunMicrotask; ReadCurrent 1 true] 0
              {| data := Some 2; promise := JPromise 10; fn := new_promise_each_call;
                 calls := 1 |})
    as ((st' & Hs & _ & Hc & Hp & _) & _).
  - repeat constructor.
  - repeat constructor.
  - by vm_compute.
  - by vm_compute.
  - exists st'. split; [exact Hs|]. split; [exact Hc|exact Hp].
Defined.

(** ** A live [State] never goes back to unstarted *)

(** X6. Once [data] holds a result, the [State] reads unstarted again
    only when it is in destruction: the continuation of [retry] sets the
    field to null and to the new result in one microtask, so as long as the
    [State] is live its [state] is that of some result. *)
Theorem live_state_keeps_a_result
    (debug : bool) (before after : list Event) (this : nat) (st : StateObj) :
  Forall host_event before →
  Forall host_event after →
  let w := run before (empty_world debug) in
  let w' := run after w in
  states w !! this = Some st →
  is_Some (data st) →
  isDestroying w' (RefState this) = false →
  ∃ s, State.state w' this = Some s ∧ s ≠ UNSTARTED
       ∧ State.isPending w' this = Some (bool_decide (s = PENDING)).
Proof.
  intros Hb Ha w w' Hs Hdata Hlive.
  assert (Hwf : wf w) by (apply wf_run; [apply wf_empty|done]).
  assert (Hwf' : wf w') by (by apply wf_run).
  assert (Hgen : ∃ st', states w' !! this = Some st'
            ∧ (is_Some (data st') ∨ isDestroying w' (RefState this) = true)).
  { assert (Hinv : is_Some (data st) ∨ isDestroying w (RefState this) = true)
      by (by left).
    unfold w'. clearbody w. clear w' Hb Hlive Hwf' Hdata. revert w st Hwf Hs Hinv.
    induction after as [|e es IH]; intros w st Hwf Hs Hinv; [by eauto|].
    inversion Ha as [|?? He Hes]; subst. rewrite run_cons.
    destruct (step_state e w this st Hwf Hs) as (st1 & Hs1 & _ & _ & Hd1).
    apply (IH Hes (step e w) st1); [by apply wf_step|done|].
    destruct Hinv as [Hsome|Hdead]; [by apply Hd1|].
    right. by apply isDestroying_step. }
  destruct Hgen as (st' & Hs' & [[d Hd]|Hdead]); [|congruence].
  destruct (wf_data _ Hwf' this d) as [[t Ht] _].
  { unfold data_at. by rewrite Hs', <- Hd. }
  unfold State.state, State.isPending.
  rewrite (get_data_some _ _ _ _ _ Hs' Hd Ht). simpl.
  exists (TrackedAsyncData.state t). unfold TrackedAsyncData.isPending.
  by destruct t as [[] ?].
Qed.

Lemma live_state_keeps_a_result_witness :
  ∃ s, State.state (run [CallRetry 0; RunMicrotask]
                      (run invocation_A (empty_world true))) 0 = Some s
       ∧ s ≠ UNSTARTED.
Proof.
  destruct (live_state_keeps_a_result true invocation_A [CallRetry 0; RunMicrotask] 0
              {| data := Some 2; promise := JPromise 10; fn := new_promise_each_call;
                 calls := 1 |})
    as (s & Hs & Hne & _).
  - repeat constructor.
  - repeat constructor.
  - by vm_compute.
  - by eexists.
  - by vm_compute.
  - exists s. split; [exact Hs|exact Hne].
Defined.

(** ** The result in [data] *)



(** ** Results, promises and the queue stay coherent *)

Lemma returned_mono f k v : returned f k v → returned f (S k) v.
Proof. intros (n & Hn & Hv). exists n. split; [lia|done]. Qed.

Lemma resume_in_app q l i :
  (∀ j, j ∈ l → ∃ d o, j = JobSettled d o) →
  JobRetryResume i ∈ q ++ l ↔ JobRetryResume i ∈ q.
Proof.
  intros Hl. rewrite elem_of_app. split; [|by left].
  intros [H|H]; [done|]. by destruct (Hl _ H) as (d & o & ?).
Qed.

Lemma promise_settle_fields p o w :
  (promise_settled w p = None
   ∧ promises (promise_settle p o w)
     = <[p := {| settled := Some o; reactions := [] |}]> (promises w)
   ∧ microtasks (promise_settle p o w)
     = microtasks w ++ ((λ d, JobSettled d o) <$> promise_reactions w p))
  ∨ (is_Some (promise_settled w p) ∧ promise_settle p o w = w).
Proof.
  unfold promise_settle. destruct (promise_settled w p) eqn:E; [right; eauto|by left].
Qed.

Lemma new_settled arg w p :
  promise_settled (TrackedAsyncData.new arg w).2 p = promise_settled w p.
Proof.
  unfold promise_settled at 1. rewrite (proj1 (proj2 (new_queue arg w))).
  unfold promises_on_construct. destruct arg as [| | | | |p0|]; try done.
  destruct (promise_settled w p0) eqn:E; [done|].
  destruct (decide (p0 = p)) as [->|Hne].
  - by rewrite lookup_insert_eq.
  - by rewrite lookup_insert_ne.
Qed.

Lemma promises_on_construct_settled w arg w' p :
  promises w' = promises_on_construct w arg →
  promise_settled w' p = promise_settled w p.
Proof.
  intros Hp. rewrite <- (new_settled arg w p). unfold promise_settled.
  by rewrite Hp, (proj1 (proj2 (new_queue arg w))).
Qed.

Lemma promises_on_construct_reactions w arg w' p d :
  promises w' = promises_on_construct w arg →
  (d ∈ promise_reactions w p → d ∈ promise_reactions w' p)
  ∧ (arg = JPromise p → promise_settled w p = None → next w ∈ promise_reactions w' p).
Proof.
  intros Hp. unfold promise_reactions at 2 3. rewrite Hp. unfold promises_on_construct.
  split.
  - intros Hd. destruct arg as [| | | | |p0|]; try done.
    destruct (promise_settled w p0) eqn:E; [done|].
    destruct (decide (p0 = p)) as [->|Hne].
    + rewrite lookup_insert_eq. simpl. apply elem_of_app. by left.
    + by rewrite lookup_insert_ne.
  - intros -> E. rewrite E, lookup_insert_eq. simpl. apply elem_of_app. right. by left.
Qed.

Lemma mirror_ext w w' src :
  (∀ p, promise_settled w' p = promise_settled w p) → mirror w' src = mirror w src.
Proof. intros H. unfold mirror. destruct src; try done. by rewrite H. Qed.

Lemma rc_same w w' :
  results_coherent w →
  results w' = results w →
  promises w' = promises w →
  (∀ d o, JobSettled d o ∈ microtasks w' ↔ JobSettled d o ∈ microtasks w) →
  results_coherent w'.
Proof.
  intros [H1 H2 H3] Hr Hp Hq.
  assert (Hs : ∀ p, promise_settled w' p = promise_settled w p).
  { intros p. unfold promise_settled. by rewrite Hp. }
  split.
  - intros d t p. unfold promise_reactions. rewrite Hr, Hs, Hp. apply H1.
  - intros d o Hin. rewrite Hr. setoid_rewrite Hs. by apply H2, Hq.
  - intros d t Ht. rewrite Hr in Ht. unfold shows_source.
    rewrite (mirror_ext w w') by done. setoid_rewrite Hs. setoid_rewrite Hq.
    by apply H3.
Qed.

Lemma rc_settle p o w :
  wf w → results_coherent w → results_coherent (promise_settle p o w).
Proof.
  intros Hwf Hrc. destruct (promise_settle_fields p o w) as [(Hpend & Hp & Hq)|[_ ->]];
    [|done].
  destruct (promise_settle_frame p o w) as (_ & Hr & _).
  destruct Hrc as [H1 H2 H3].
  assert (Hs : ∀ p', p' ≠ p →
            promise_settled (promise_settle p o w) p' = promise_settled w p').
  { intros p' Hne. unfold promise_settled. by rewrite Hp, lookup_insert_ne. }
  assert (Hsp : promise_settled (promise_settle p o w) p = Some o).
  { unfold promise_settled. by rewrite Hp, lookup_insert_eq. }
  split.
  - intros d t p' Ht Hsrc Hnone. rewrite Hr in Ht.
    destruct (decide (p' = p)) as [->|Hne]; [congruence|].
    rewrite Hs in Hnone by done.
    unfold promise_reactions. rewrite Hp, lookup_insert_ne by done.
    by apply (H1 d t).
  - intros d o' Hin. rewrite Hq in Hin. rewrite Hr.
    apply elem_of_app in Hin as [Hin|Hin].
    + destruct (H2 d o' Hin) as (t & p' & Ht & Hsrc & Hset).
      exists t, p'. split; [done|]. split; [done|].
      rewrite Hs; [done|]. intros ->. congruence.
    + apply list_elem_of_fmap in Hin as (d' & [= -> ->] & Hd).
      destruct (wf_reactions _ Hwf p d' Hd) as (t & Ht & Hsrc). eauto.
  - intros d t Ht. rewrite Hr in Ht. unfold shows_source. rewrite Hq.
    destruct (H3 d t Ht) as [Hm|(Hpe & p' & o' & Hsrc & Hset & Hin)].
    + destruct (decide (tsource t = JPromise p)) as [Hsrc|Hne].
      * right. rewrite Hsrc in Hm. simpl in Hm. rewrite Hpend in Hm.
        split; [done|]. exists p, o. split; [done|]. split; [done|].
        apply elem_of_app. right. apply list_elem_of_fmap. exists d. split; [done|].
        by apply (H1 d t).
      * left. rewrite Hm. unfold mirror. destruct (tsource t) as [| | | | |p'|]; try done.
        rewrite Hs; [done|]. congruence.
    + right. split; [done|]. exists p', o'. split; [done|]. split.
      * rewrite Hs; [done|]. intros ->. congruence.
      * apply elem_of_app. by left.
Qed.

Lemma rc_settle_all l w :
  wf w → results_coherent w → results_coherent (settle_all l w).
Proof.
  revert w. induction l as [|[p o] l IH]; intros w Hwf Hrc; [done|].
  simpl. apply IH; [by apply wf_settle|by apply rc_settle].
Qed.

Lemma rc_construct w w' arg :
  wf w → results_coherent w →
  results w'
  = <[next w := {| tdata := match arg with JPromise _ => IsPending | _ => IsResolved arg end;
                   tsource := arg |}]> (results w) →
  promises w' = promises_on_construct w arg →
  microtasks w' = microtasks w ++ jobs_on_construct w arg →
  results_coherent w'.
Proof.
  intros Hwf [H1 H2 H3] Hr Hp Hq.
  pose proof (λ p, promises_on_construct_settled w arg w' p Hp) as Hs.
  assert (Hold : ∀ d t, d ≠ next w → results w' !! d = Some t → results w !! d = Some t).
  { intros d t Hne. by rewrite Hr, lookup_insert_ne. }
  assert (Hfresh : results w !! next w = None).
  { destruct (results w !! next w) as [t0|] eqn:E; [|done].
    assert (Hsome : is_Some (results w !! next w)) by (by exists t0).
    pose proof (wf_results _ Hwf (next w) Hsome). lia. }
  split.
  - intros d t p Ht Hsrc Hnone. rewrite Hs in Hnone.
    destruct (decide (d = next w)) as [->|Hne].
    + rewrite Hr, lookup_insert_eq in Ht. injection Ht as <-. simpl in Hsrc.
      by apply (promises_on_construct_reactions w arg w' p (next w)).
    + apply (promises_on_construct_reactions w arg w' p d); [done|].
      apply (H1 d t); auto.
  - intros d o Hin. rewrite Hq in Hin. setoid_rewrite Hs.
    apply elem_of_app in Hin as [Hin|Hin].
    + destruct (H2 d o Hin) as (t & p & Ht & Hsrc & Hset).
      exists t, p. split; [|done]. rewrite Hr, lookup_insert_ne; [done|].
      intros <-. congruence.
    + unfold jobs_on_construct in Hin. destruct arg as [| | | | |p|];
        try (by apply elem_of_nil in Hin).
      destruct (promise_settled w p) as [o'|] eqn:E; [|by apply elem_of_nil in Hin].
      apply list_elem_of_singleton in Hin as [= -> ->].
      rewrite Hr, lookup_insert_eq. eauto.
  - intros d t Ht. unfold shows_source. rewrite (mirror_ext w w') by done.
    setoid_rewrite Hs. rewrite Hq.
    destruct (decide (d = next w)) as [->|Hne].
    + rewrite Hr, lookup_insert_eq in Ht. injection Ht as <-. simpl.
      destruct arg as [| | | | |p|]; try by left.
      unfold mirror, jobs_on_construct.
      destruct (promise_settled w p) as [o'|] eqn:E; [|by left].
      right. split; [done|]. exists p, o'. split; [done|]. split; [done|].
      apply elem_of_app. right. by left.
    + destruct (H3 d t (Hold d t Hne Ht)) as [Hm|(Hpe & p & o & Hsrc & Hset & Hin)];
        [by left|].
      right. split; [done|]. exists p, o. split; [done|]. split; [done|].
      apply elem_of_app. by left.
Qed.

Lemma rc_on_settled w d o q :
  results_coherent w → microtasks w = JobSettled d o :: q →
  results_coherent (TrackedAsyncData.on_settled d o (with_microtasks (λ _, q) w)).
Proof.
  intros [H1 H2 H3] Hq.
  set (f := λ t, {| tdata := match o with
                             | Fulfilled v => IsResolved v
                             | Rejected e => IsRejected e
                             end;
                    tsource := tsource t |}).
  assert (Hsub : ∀ j, j ∈ q → j ∈ microtasks w).
  { intros j Hj. rewrite Hq. by right. }
  assert (Hold : ∀ d' t', alter f d (results w) !! d' = Some t' →
            ∃ t, results w !! d' = Some t ∧ tsource t = tsource t'
                 ∧ (d' ≠ d → t' = t) ∧ (d' = d → t' = f t)).
  { intros d' t'. destruct (decide (d = d')) as [->|Hne].
    - rewrite lookup_alter_eq. destruct (results w !! d') as [t|]; [|done].
      intros [= <-]. exists t. by repeat split.
    - rewrite lookup_alter_ne by done. intros Ht. exists t'.
      split; [done|]. split; [done|]. split; [done|]. congruence. }
  split; unfold shows_source, promise_reactions, promise_settled; simpl;
    fold (promise_reactions w); fold (promise_settled w); fold f.
  - intros d' t' p Ht Hsrc Hnone.
    destruct (Hold d' t' Ht) as (t & Ht0 & Hsrc0 & _).
    apply (H1 d' t); [done|congruence|done].
  - intros d' o' Hin. destruct (H2 d' o' (Hsub _ Hin)) as (t & p & Ht & Hsrc & Hset).
    destruct (decide (d = d')) as [->|Hne].
    + exists (f t), p. by rewrite lookup_alter_eq, Ht.
    + exists t, p. by rewrite lookup_alter_ne.
  - intros d' t' Ht. destruct (Hold d' t' Ht) as (t & Ht0 & Hsrc0 & Hne & Heq).
    destruct (decide (d' = d)) as [->|Hdd].
    + left. rewrite (Heq eq_refl). simpl.
      destruct (H2 d o) as (t1 & p & Ht1 & Hsrc1 & Hset1); [rewrite Hq; by left|].
      assert (t1 = t) as -> by congruence.
      rewrite Hsrc1. unfold mirror, promise_settled. simpl.
      fold (promise_settled w p). rewrite Hset1. by destruct o.
    + rewrite (Hne Hdd).
      destruct (H3 d' t Ht0) as [Hm|(Hpe & p & o' & Hsrc & Hset & Hin)]; [by left|].
      right. split; [done|]. exists p, o'. split; [done|]. split; [done|].
      rewrite Hq in Hin. apply elem_of_cons in Hin as [[= ? ?]|Hin]; [congruence|done].
Qed.

(** [retry] on a [State] that exists, by the fields of the world it
    leaves. *)
Lemma retry_fields this w r w' st :
  states w !! this = Some st →
  State.retry this w = Some (r, w') →
  (isDestroying w (RefState this) = true ∧ w' = w)
  ∨ (isDestroying w (RefState this) = false
     ∧ results w' = results w
     ∧ promises w' = promises (settle_all (settles (fn st (calls st))) w)
     ∧ destroyables w' = destroyables w
     ∧ (∀ i, i ≠ this → states w' !! i = states w !! i)
     ∧ ∃ st' tail,
         states w' !! this = Some st'
         ∧ data st' = data st ∧ fn st' = fn st ∧ calls st' = S (calls st)
         ∧ microtasks w'
           = microtasks (settle_all (settles (fn st (calls st))) w) ++ tail
         ∧ ((∃ e, outcome (fn st (calls st)) = Throw e
                  ∧ promise st' = promise st ∧ tail = [])
            ∨ (outcome (fn st (calls st)) = Normal (promise st')
               ∧ tail = [JobRetryResume this]))).
Proof.
  intros Hs H. destruct (retry_frame _ _ _ _ H) as [Hfr _].
  destruct (retry_cases _ _ _ _ _ Hs H)
    as [(Hdead & _ & ->)|[(Hlive & e & He & _ & ->)|(Hlive & v & Hv & _ & _)]].
  - by left.
  - right. destruct (call_fn_frame this st w)
      as (_ & Hst & Hr & _ & Hg & _ & _ & _ & Hp & Hq).
    split; [done|]. split; [done|]. split; [done|]. split; [done|]. split; [done|].
    eexists _, []. rewrite Hst, lookup_alter_eq, Hs. simpl.
    split; [done|]. rewrite app_nil_r. repeat split; try done. left. eauto.
  - right. destruct (retry_suspends w this st v Hs Hlive Hv)
      as (w1 & Hr1 & _ & Hq & Hst & Hr & Hp & _ & Hg & _).
    rewrite H in Hr1. injection Hr1 as _ <-.
    split; [done|]. split; [done|]. split; [done|]. split; [done|]. split; [done|].
    eexists _, [JobRetryResume this]. rewrite Hst, lookup_alter_eq, Hs. simpl.
    split; [done|]. repeat split; try done. by right.
Qed.

Lemma rc_retry_step s w :
  wf w → results_coherent w → results_coherent (step (CallRetry s) w).
Proof.
  intros Hwf Hrc. unfold step.
  destruct (State.retry s w) as [[r w']|] eqn:H; [|done].
  destruct (states w !! s) as [st|] eqn:Hs;
    [|by unfold State.retry in H; rewrite Hs in H].
  destruct (retry_fields _ _ _ _ _ Hs H)
    as [[_ ->]|(_ & Hr & Hp & _ & _ & st' & tail & _ & _ & _ & _ & Hq & Htail)];
    [done|].
  destruct (settle_all_frame (settles (fn st (calls st))) w) as (_ & Hr2 & _).
  apply (rc_same (settle_all (settles (fn st (calls st))) w));
    [by apply rc_settle_all|by rewrite Hr, Hr2|done|].
  intros d o. rewrite Hq, elem_of_app.
  destruct Htail as [(e & _ & _ & ->)|[_ ->]].
  - split; [intros [?|?%elem_of_nil]; done|by left].
  - split; [intros [?|?%list_elem_of_singleton]; done|by left].
Qed.

Lemma rc_step e w :
  wf w → host_event e → results_coherent w → results_coherent (step e w).
Proof.
  intros Hwf Hhost Hrc.
  destruct e as [this| |p o|o| |context f|h stale].
  - by apply rc_retry_step.
  - unfold step, run_microtask.
    destruct (microtasks w) as [|[this|d o] q] eqn:Hq; [done| |by apply rc_on_settled].
    assert (Hwf' : wf (with_microtasks (λ _, q) w)).
    { apply (wf_same_heap w); try done. intros d o Hin. rewrite Hq. by right. }
    assert (Hrc' : results_coherent (with_microtasks (λ _, q) w)).
    { apply (rc_same w); try done. intros d o. simpl. rewrite Hq.
      split; [by right|]. intros [[=]|?]%elem_of_cons. done. }
    simpl. destruct (State.retry_resume this _) as [[c w']|] eqn:H; [|done].
    destruct (states w !! this) as [st|] eqn:Hs;
      [|by unfold State.retry_resume in H; simpl in H; rewrite Hs in H].
    destruct (discard_previous_frame (with_microtasks (λ _, q) w) this st)
      as (Hr1 & Hp1 & Hq1 & _).
    destruct (isDestroying (State.discard_previous this st (with_microtasks (λ _, q) w))
                (RefState this)) eqn:Hlive.
    + rewrite (retry_resume_unfold (with_microtasks (λ _, q) w) this st Hs) in H.
      cbv zeta in H. rewrite Hlive in H. injection H as _ <-.
      apply (rc_same (with_microtasks (λ _, q) w)); try done.
      intros d o. by rewrite Hq1.
    + destruct (resume_constructs (with_microtasks (λ _, q) w) this st Hs Hlive)
        as (w2 & Hres2 & _ & Hr2 & Hq2 & Hp2 & _).
      rewrite H in Hres2. injection Hres2 as _ <-.
      by apply (rc_construct (with_microtasks (λ _, q) w) w' (promise st)).
  - by apply rc_settle.
  - by apply (rc_same w).
  - by apply (rc_same w).
  - unfold step. destruct (trackedFunction_frame context f w) as (_ & _ & _ & Hr & Hq & _).
    destruct (trackedFunction_graph context f w) as (_ & _ & Hp & _).
    apply (rc_same w); try done.
  - unfold step. destruct (current stale h w) as [[v w']|] eqn:H; [|done].
    apply current_shape in H as [->|(s & F & ->)]; [done|].
    by apply (rc_same (step (CallRetry s) w)); [apply rc_retry_step|..].
Qed.

(** ** A [State] stays coherent with its source function and the queue *)

Lemma sc_at_transfer w w' i st :
  state_coherent_at w i st →
  (∀ d t', data st = Some d → results w' !! d = Some t' →
     ∃ t, results w !! d = Some t ∧ tsource t = tsource t') →
  (JobRetryResume i ∈ microtasks w' ↔ JobRetryResume i ∈ microtasks w) →
  (isDestroying w (RefState i) = true → isDestroying w' (RefState i) = true) →
  state_coherent_at w' i st.
Proof.
  intros [H1 H2 H3 H4 H5] Hr Hq Hg. split.
  - done.
  - intros Hin. by apply H2, Hq.
  - intros d t' Hd Ht'. destruct (Hr d t' Hd Ht') as (t & Ht & <-). by apply (H3 d).
  - intros d t' Hd Ht'. destruct (Hr d t' Hd Ht') as (t & Ht & <-).
    destruct (H4 d t Hd Ht); [by left|]. right. by apply Hq.
  - intros Hd. destruct (H5 Hd) as [?|[?|?]]; auto. right. left. by apply Hq.
Qed.

Lemma sc_transfer w w' :
  state_coherent w →
  states w' = states w →
  (∀ d t', results w' !! d = Some t' →
     ∃ t, results w !! d = Some t ∧ tsource t = tsource t') →
  (∀ i, JobRetryResume i ∈ microtasks w' ↔ JobRetryResume i ∈ microtasks w) →
  (∀ x, isDestroying w x = true → isDestroying w' x = true) →
  state_coherent w'.
Proof.
  intros [Hsc Hst] Hs Hr Hq Hg. split.
  - intros i Hin. rewrite Hs. by apply Hsc, Hq.
  - intros i st Hi. rewrite Hs in Hi.
    apply (sc_at_transfer w); [by apply Hst| |done|by apply Hg].
    intros d t' _. apply Hr.
Qed.

Lemma sc_retry_step s w :
  state_coherent w → state_coherent (step (CallRetry s) w).
Proof.
  intros Hsc. unfold step.
  destruct (State.retry s w) as [[r w']|] eqn:H; [|done].
  destruct (states w !! s) as [st|] eqn:Hs;
    [|by unfold State.retry in H; rewrite Hs in H].
  destruct (retry_fields _ _ _ _ _ Hs H)
    as [[_ ->]|(Hlive & Hr & _ & Hg & Hfr & st' & tail & Hs' & Hd & Hf & Hc & Hq & Htail)];
    [done|].
  destruct (settle_all_frame (settles (fn st (calls st))) w)
    as (_ & _ & _ & _ & _ & _ & _ & q0 & Hq0 & Hjobs).
  rewrite Hq0 in Hq.
  assert (Hin : ∀ i, JobRetryResume i ∈ microtasks w' ↔
                     JobRetryResume i ∈ microtasks w ∨ JobRetryResume i ∈ tail).
  { intros i. rewrite Hq, elem_of_app. by rewrite (resume_in_app _ _ _ Hjobs). }
  destruct Hsc as [Hscoped Hst]. split.
  - intros i [Hi|Hi]%Hin.
    + destruct (decide (i = s)) as [->|Hne]; [by rewrite Hs'|].
      rewrite Hfr by done. by apply Hscoped.
    + destruct Htail as [(e & _ & _ & ->)|[_ ->]]; [by apply elem_of_nil in Hi|].
      apply list_elem_of_singleton in Hi as [= ->]. by rewrite Hs'.
  - intros i sti Hi. destruct (decide (i = s)) as [->|Hne].
    + rewrite Hs' in Hi. injection Hi as <-.
      destruct (Hst s st Hs) as [H1 H2 H3 H4 H5].
      destruct Htail as [(e & He & Hp & ->)|[Hv ->]].
      * split.
        -- rewrite Hp, Hf, Hc. simpl. by rewrite He.
        -- intros [Hi|Hi]%Hin; [|by apply elem_of_nil in Hi].
           rewrite Hp, Hf, Hc. by apply returned_mono, H2.
        -- intros d t. rewrite Hd, Hr, Hf, Hc. intros ? ?.
           by apply returned_mono, (H3 d).
        -- intros d t. rewrite Hd, Hr, Hp. intros Hdd Ht.
           destruct (H4 d t Hdd Ht); [by left|]. right. apply Hin. by left.
        -- rewrite Hd. intros Hnone. destruct (H5 Hnone) as [Hx|[Hx|Hx]].
           ++ unfold isDestroying in *. rewrite Hg. by left.
           ++ right. left. apply Hin. by left.
           ++ right. right. rewrite Hf, Hc. intros n Hn.
              destruct (decide (n = calls st)) as [->|Hnc]; [eauto|].
              apply Hx. lia.
      * split.
        -- rewrite Hf, Hc. simpl. by rewrite Hv.
        -- intros _. rewrite Hf, Hc. exists (calls st). split; [lia|done].
        -- intros d t. rewrite Hd, Hr, Hf, Hc. intros ? ?.
           by apply returned_mono, (H3 d).
        -- intros d t _ _. right. apply Hin. right. by left.
        -- intros _. right. left. apply Hin. right. by left.
    + rewrite Hfr in Hi by done.
      apply (sc_at_transfer w); [by apply Hst| | |].
      * intros d t' _. rewrite Hr. eauto.
      * rewrite Hin. split; [|by left]. intros [?|Hi']; [done|].
        destruct Htail as [(e & _ & _ & ->)|[_ ->]]; [by apply elem_of_nil in Hi'|].
        apply list_elem_of_singleton in Hi' as [= ->]. done.
      * unfold isDestroying. by rewrite Hg.
Qed.

(** The continuation of [retry], by the fields of the world it leaves. *)
Lemma resume_fields w this st c w' :
  wf w → states w !! this = Some st →
  State.retry_resume this w = Some (c, w') →
  (∀ i, i ≠ this → states w' !! i = states w !! i)
  ∧ (∀ d, d ≠ next w → results w' !! d = results w !! d)
  ∧ (∃ l, microtasks w' = microtasks w ++ l
          ∧ length l ≤ 1 ∧ ∀ j, j ∈ l → ∃ d o, j = JobSettled d o)
  ∧ (∀ p, promise_settled w' p = promise_settled w p)
  ∧ ∃ st', states w' !! this = Some st'
      ∧ promise st' = promise st ∧ fn st' = fn st ∧ calls st' = calls st
      ∧ ((data st' = None ∧ isDestroying w' (RefState this) = true)
         ∨ (data st' = Some (next w) ∧ isDestroying w' (RefState this) = false
            ∧ ∃ t, results w' !! next w = Some t ∧ tsource t = promise st
                   ∧ (tdata t = IsPending ∨ tdata t = IsResolved (promise st)))).
Proof.
  intros Hwf Hs Hres.
  destruct (resume_frame _ _ _ _ Hres) as (Hfr & Hrs & _).
  split; [done|]. split; [done|].
  pose proof (discard_previous_states _ _ _ Hs) as Hs1.
  destruct (discard_previous_frame w this st) as (_ & Hp1 & Hq1 & Hn & _).
  assert (Hdata : match data st with
                  | Some d => if isDestroying w (RefTrackedAsyncData d)
                              then Some d else None
                  | None => None
                  end = None).
  { destruct (data st) as [d|] eqn:Hd; [|done].
    destruct (wf_data _ Hwf this d) as [_ ->]; [|done].
    unfold data_at. by rewrite Hs, <- Hd. }
  rewrite Hdata in Hs1.
  destruct (isDestroying (State.discard_previous this st w) (RefState this)) eqn:Hlive.
  - rewrite (retry_resume_unfold _ _ _ Hs) in Hres. cbv zeta in Hres.
    rewrite Hlive in Hres. injection Hres as _ <-.
    split; [|split].
    + exists []. rewrite app_nil_r. split; [done|]. split; [simpl; lia|].
      intros j Hj. by apply elem_of_nil in Hj.
    + intros p. unfold promise_settled. by rewrite Hp1.
    + eexists. split; [exact Hs1|]. simpl. repeat split; try done. by left.
  - destruct (resume_constructs w this st Hs Hlive)
      as (w2 & Hres2 & Hst2 & Hr2 & Hq2 & Hp2 & _ & Hg2 & _).
    rewrite Hres in Hres2. injection Hres2 as _ <-.
    split; [|split].
    + exists (jobs_on_construct w (promise st)). split; [done|].
      unfold jobs_on_construct. destruct (promise st) as [| | | | |p|];
        try (split; [simpl; lia|intros j Hj; by apply elem_of_nil in Hj]).
      destruct (promise_settled w p) as [o|];
        [|split; [simpl; lia|intros j Hj; by apply elem_of_nil in Hj]].
      split; [simpl; lia|]. intros j Hj%list_elem_of_singleton. eauto.
    + intros p. by apply (promises_on_construct_settled w (promise st)).
    + eexists. rewrite Hst2, lookup_alter_eq, Hs. simpl. split; [done|]. simpl.
      repeat split; try done. right. split; [done|]. split.
      { unfold isDestroying in *. by rewrite Hg2. }
      rewrite Hr2, lookup_insert_eq. eexists. split; [done|]. simpl.
      split; [done|]. destruct (promise st); auto.
Qed.

Lemma sc_run_microtask w :
  wf w → state_coherent w → state_coherent (run_microtask w).
Proof.
  intros Hwf Hsc.
  pose proof (isDestroying_step RunMicrotask w) as Hmono.
  unfold step in Hmono. unfold run_microtask in *.
  destruct (microtasks w) as [|[this|d o] q] eqn:Hq; [done| |].
  - assert (Hwf' : wf (with_microtasks (λ _, q) w)).
    { apply (wf_same_heap w); try done. intros d o Hin. rewrite Hq. by right. }
    destruct Hsc as [Hscoped Hst].
    destruct (Hscoped this) as [st Hs]; [rewrite Hq; by left|].
    simpl in *. destruct (State.retry_resume this _) as [[c w']|] eqn:H;
      [|destruct (retry_resume_is_Some (with_microtasks (λ _, q) w) this st Hs)
          as [x Hx]; congruence].
    destruct (resume_fields _ _ _ _ _ Hwf' Hs H)
      as (Hfr & Hrs & (l & Hq' & _ & Hl) & _ & st' & Hs' & Hp & Hf & Hc & Hdata).
    simpl in Hfr, Hrs, Hq'.
    change (next (with_microtasks (λ _, q) w)) with (next w) in Hdata.
    assert (Hin : ∀ i, JobRetryResume i ∈ microtasks w' → JobRetryResume i ∈ microtasks w).
    { intros i. rewrite Hq', (resume_in_app _ _ _ Hl), Hq. by right. }
    split.
    + intros i Hi%Hin. destruct (decide (i = this)) as [->|Hne]; [by rewrite Hs'|].
      rewrite Hfr by done. by apply Hscoped.
    + intros i sti Hi. destruct (decide (i = this)) as [->|Hne].
      * rewrite Hs' in Hi. injection Hi as <-.
        destruct (Hst this st Hs) as [H1 H2 H3 H4 H5].
        assert (Hret : returned (fn st) (calls st) (promise st)).
        { apply H2. rewrite Hq. by left. }
        split.
        -- by rewrite Hp, Hf, Hc.
        -- intros _. by rewrite Hp, Hf, Hc.
        -- intros d t Hd Ht. rewrite Hf, Hc.
           destruct Hdata as [[Hnone _]|(Hnew & _ & t' & Ht' & Hsrc & _)]; [congruence|].
           assert (d = next w) as -> by congruence.
           assert (t = t') as -> by congruence. by rewrite Hsrc.
        -- intros d t Hd Ht. left.
           destruct Hdata as [[Hnone _]|(Hnew & _ & t' & Ht' & Hsrc & _)]; [congruence|].
           assert (d = next w) as -> by congruence.
           assert (t = t') as -> by congruence. by rewrite Hsrc, Hp.
        -- intros Hnone. left.
           destruct Hdata as [[_ Hdead]|(Hnew & _)]; [done|congruence].
      * rewrite Hfr in Hi by done.
        apply (sc_at_transfer w); [by apply Hst| | |by apply Hmono].
        -- intros d t' Hd Ht'. exists t'. split; [|done]. rewrite <- Hrs; [done|].
           destruct (wf_data _ Hwf i d) as [Hsome _].
           { unfold data_at. by rewrite Hi, <- Hd. }
           pose proof (wf_results _ Hwf d Hsome). lia.
        -- rewrite Hq', (resume_in_app _ _ _ Hl), Hq. split; [by right|].
           intros [[= ?]|?]%elem_of_cons; done.
  - apply (sc_transfer w); try done.
    + intros d' t'. simpl. destruct (decide (d = d')) as [->|Hne].
      * rewrite lookup_alter_eq. destruct (results w !! d') as [t|]; [|done].
        intros [= <-]. by exists t.
      * rewrite lookup_alter_ne by done. eauto.
    + intros i. simpl. rewrite Hq. split; [by right|].
      intros [[=]|?]%elem_of_cons; done.
Qed.

Lemma sc_step e w :
  wf w → host_event e → state_coherent w → state_coherent (step e w).
Proof.
  intros Hwf Hhost Hsc. pose proof (isDestroying_step e w) as Hmono.
  destruct e as [this| |p o|o| |context f|h stale].
  - by apply sc_retry_step.
  - by apply sc_run_microtask.
  - simpl in *. destruct (promise_settle_frame p o w)
      as (Hs & Hr & _ & _ & _ & _ & _ & q0 & Hq0 & Hjobs).
    apply (sc_transfer w); try done.
    + intros d t'. rewrite Hr. eauto.
    + intros i. rewrite Hq0. apply resume_in_app.
      intros j Hj. destruct (Hjobs j Hj) as [d ->]. eauto.
  - apply (sc_transfer w); try done. intros d t'. simpl. eauto.
  - apply (sc_transfer w); try done. intros d t'. simpl. eauto.
  - unfold step in *.
    destruct (trackedFunction_frame context f w) as (_ & Hs & _ & Hr & Hq & _).
    destruct Hsc as [Hscoped Hst]. split.
    + intros i. rewrite Hq, Hs. intros Hi. rewrite lookup_insert_is_Some'. right.
      by apply Hscoped.
    + intros i st. rewrite Hs. destruct (decide (next w = i)) as [<-|Hne].
      * rewrite lookup_insert_eq. intros [= <-]. split; [done| | | |].
        -- rewrite Hq. intros Hi. apply Hscoped, (wf_states _ Hwf) in Hi. lia.
        -- intros d t Hd. by simpl in Hd.
        -- intros d t Hd. by simpl in Hd.
        -- intros _. right. right. intros n Hn. simpl in Hn. lia.
      * rewrite lookup_insert_ne by done. intros Hi.
        apply (sc_at_transfer w); [by apply Hst| |by rewrite Hq|by apply Hmono].
        intros d t' _. rewrite Hr. eauto.
  - unfold step in *. destruct (current stale h w) as [[v w']|] eqn:H; [|done].
    apply current_shape in H as [->|(s & F & ->)]; [done|].
    apply (sc_transfer (step (CallRetry s) w)); [by apply sc_retry_step|done| |done|].
    + intros d t'. simpl. eauto.
    + intros x. unfold isDestroying, Destroyable.isDestroying.
      change (destroyables (associateDestroyableChild ?p ?c (with_resources ?G ?w0)))
        with (Destroyable.associateDestroyableChild p c (destroyables w0)).
      by rewrite lifecycle_associate.
Qed.

Lemma coherent_empty debug :
  results_coherent (empty_world debug) ∧ state_coherent (empty_world debug).
Proof.
  split; split; simpl; try (intros *; rewrite ?lookup_empty; by intros [? ?]).
  - intros d t p. by rewrite lookup_empty.
  - intros d o H. by apply elem_of_nil in H.
  - intros d t. by rewrite lookup_empty.
  - intros i H. by apply elem_of_nil in H.
  - intros i st. by rewrite lookup_empty.
Qed.

Lemma coherent_run es w :
  wf w → Forall host_event es →
  results_coherent w ∧ state_coherent w →
  results_coherent (run es w) ∧ state_coherent (run es w).
Proof.
  revert w. induction es as [|e es IH]; intros w Hwf Hhost [Hrc Hsc]; [done|].
  inversion Hhost as [|?? He Hes]; subst. simpl. apply IH; [by apply wf_step|done|].
  split; [by apply rc_step|by apply sc_step].
Qed.

(** ** What the accessors show, over every run of the host *)

Lemma get_data_inv w this t :
  State.get_data w this = Some (Some t) →
  ∃ st d, states w !! this = Some st ∧ data st = Some d ∧ results w !! d = Some t.
Proof.
  unfold State.get_data. destruct (states w !! this) as [st|]; simpl; [|done].
  destruct (data st) as [d|] eqn:Hd; [|done].
  destruct (results w !! d) as [t'|] eqn:Ht; simpl; [|done].
  intros [= <-]. by exists st, d.
Qed.

Lemma value_inv w this t v :
  State.get_data w this = Some (Some t) →
  State.value w this = Some (Normal v) → v ≠ JNull → tdata t = IsResolved v.
Proof.
  intros Hd. unfold State.value. rewrite Hd. simpl.
  unfold TrackedAsyncData.isResolved, TrackedAsyncData.value, TrackedAsyncData.state.
  destruct (tdata t) as [|v0|e0]; simpl; intros [= <-] Hne; congruence.
Qed.

Lemma error_inv w this t e :
  State.get_data w this = Some (Some t) →
  State.error w this = Some (Normal e) → e ≠ JNull →
  ∃ e', tdata t = IsRejected e' ∧ e = nullish e' JNull.
Proof.
  intros Hd. unfold State.error. rewrite Hd. simpl. unfold TrackedAsyncData.error.
  destruct (tdata t) as [|v0|e0]; simpl.
  - destruct (DEBUG w); simpl; congruence.
  - destruct (DEBUG w); simpl; congruence.
  - intros [= <-] _. eauto.
Qed.

Lemma returned_not_never f k v : returned f k v → ¬ never_returned f k.
Proof. intros (n & Hn & Hv) Hnever. destruct (Hnever n Hn) as [e He]. congruence. Qed.

(** X8. What a [State] shows is never made up.  In every world the host
    can reach, the result in [data] was constructed from a value that some
    invocation of the source function returned; once it is no longer pending
    it holds exactly what that value has come to, so a [value] other than
    null is that value itself or what its promise was fulfilled with, and an
    [error] other than null is what its promise was rejected with; and
    while it is still pending although the promise has settled, the callback
    that will store the outcome is in the microtask queue. *)
Theorem shown_outcome_is_real
    (debug : bool) (es : list Event) (this : nat) (t : TrackedAsyncDataObj) :
  Forall host_event es →
  let w := run es (empty_world debug) in
  State.get_data w this = Some (Some t) →
  (∃ st, states w !! this = Some st ∧ returned (fn st) (calls st) (tsource t))
  ∧ (tdata t ≠ IsPending → tdata t = mirror w (tsource t))
  ∧ (∀ v, State.value w this = Some (Normal v) → v ≠ JNull →
       mirror w (tsource t) = IsResolved v)
  ∧ (∀ e, State.error w this = Some (Normal e) → e ≠ JNull →
       ∃ e', mirror w (tsource t) = IsRejected e' ∧ e = nullish e' JNull)
  ∧ (tdata t = IsPending → mirror w (tsource t) ≠ IsPending →
       ∃ d o, data_at w this = Some (Some d) ∧ JobSettled d o ∈ microtasks w
              ∧ mirror w (tsource t)
                = match o with Fulfilled v => IsResolved v | Rejected e => IsRejected e end).
Proof.
  intros Hes w Hget.
  assert (Hwf : wf w) by (apply wf_run; [apply wf_empty|done]).
  destruct (coherent_run es (empty_world debug) (wf_empty debug) Hes
              (coherent_empty debug)) as [Hrc Hsc].
  fold w in Hrc, Hsc.
  destruct (get_data_inv _ _ _ Hget) as (st & d & Hs & Hd & Ht).
  pose proof (rc_shown _ Hrc d t Ht) as Hshown.
  assert (Hnp : tdata t ≠ IsPending → tdata t = mirror w (tsource t)).
  { intros Hne. by destruct Hshown as [Hm|[Hpe _]]. }
  split; [|split; [done|split; [|split]]].
  - exists st. split; [done|]. by apply (sc_origin _ _ _ (sc_states _ Hsc this st Hs) d).
  - intros v Hv Hne. pose proof (value_inv _ _ _ _ Hget Hv Hne) as Hres.
    rewrite <- Hnp; [done|congruence].
  - intros e He Hne. destruct (error_inv _ _ _ _ Hget He Hne) as (e' & Hrej & ->).
    exists e'. split; [|done]. rewrite <- Hnp; [done|congruence].
  - intros Hpe Hm. destruct Hshown as [Hm'|(_ & p & o & Hsrc & Hset & Hin)];
      [congruence|].
    exists d, o. split; [unfold data_at; by rewrite Hs, <- Hd|]. split; [done|].
    rewrite Hsrc. unfold mirror. rewrite Hset. by destruct o.
Qed.

Lemma shown_outcome_is_real_witness :
  mirror (run (invocation_A ++ [Settle 10 (Fulfilled (JNum 5)); RunMicrotask])
            (empty_world true)) (JPromise 10)
  = IsResolved (JNum 5).
Proof.
  apply (proj1 (proj2 (proj2 (shown_outcome_is_real true
           (invocation_A ++ [Settle 10 (Fulfilled (JNum 5)); RunMicrotask]) 0
           {| tdata := IsResolved (JNum 5); tsource := JPromise 10 |}
           ltac:(repeat constructor) ltac:(by vm_compute))))).
  - by vm_compute.
  - discriminate.
Defined.

(** X9. The [promise] field always holds what the latest invocation that
    returned has returned, and is undefined while none has; and as long as
    every invocation has thrown, the [State] reads unstarted, with no value
    and no error. *)
Theorem promise_is_latest_returned
    (debug : bool) (es : list Event) (this : nat) (st : StateObj) :
  Forall host_event es →
  let w := run es (empty_world debug) in
  states w !! this = Some st →
  promise st = last_returned (fn st) (calls st)
  ∧ (never_returned (fn st) (calls st) →
       promise st = JUndefined
       ∧ data st = None
       ∧ State.state w this = Some UNSTARTED
       ∧ State.value w this = Some (Normal JNull)
       ∧ State.error w this = Some (Normal JNull)).
Proof.
  intros Hes w Hs.
  assert (Hwf : wf w) by (apply wf_run; [apply wf_empty|done]).
  destruct (coherent_run es (empty_world debug) (wf_empty debug) Hes
              (coherent_empty debug)) as [Hrc Hsc].
  fold w in Hrc, Hsc.
  destruct (sc_states _ Hsc this st Hs) as [H1 _ H3 _ _].
  split; [done|]. intros Hnever.
  assert (Hundef : last_returned (fn st) (calls st) = JUndefined).
  { revert Hnever. generalize (calls st) as k. induction k as [|k IH]; intros Hnever;
      [done|].
    simpl. destruct (Hnever k) as [e ->]; [lia|]. apply IH. intros n Hn. apply Hnever. lia. }
  assert (Hnone : data st = None).
  { destruct (data st) as [d|] eqn:Hd; [|done].
    destruct (wf_data _ Hwf this d) as [[t Ht] _].
    { unfold data_at. by rewrite Hs, <- Hd. }
    destruct (returned_not_never _ _ _ (H3 d t eq_refl Ht) Hnever). }
  pose proof (get_data_null _ _ _ Hs Hnone) as Hget.
  unfold State.state, State.value, State.error. rewrite Hget. simpl.
  split; [congruence|]. done.
Qed.

Lemma promise_is_latest_returned_witness :
  last_returned new_promise_each_call 2 = JPromise 11
  ∧ State.state (run throwing_twice (empty_world true)) 0 = Some UNSTARTED.
Proof.
  split; [reflexivity|].
  apply (proj2 (promise_is_latest_returned true throwing_twice 0
           {| data := None; promise := JUndefined; fn := throws_boom; calls := 2 |}
           ltac:(repeat constructor) ltac:(by vm_compute))).
  intros n Hn. by exists (JStr "boom").
Defined.

(** ** When the queue is empty *)

Lemma quiescent_core w this st :
  wf w → results_coherent w → state_coherent w →
  states w !! this = Some st → microtasks w = [] →
  (∀ t, State.get_data w this = Some (Some t) →
     t = {| tdata := mirror w (promise st); tsource := promise st |})
  ∧ (∀ v, returned (fn st) (calls st) v → isDestroying w (RefState this) = false →
       State.get_data w this
       = Some (Some {| tdata := mirror w (promise st); tsource := promise st |})).
Proof.
  intros Hwf Hrc Hsc Hs Hq.
  destruct (sc_states _ Hsc this st Hs) as [_ _ _ H4 H5].
  assert (Hone : ∀ t, State.get_data w this = Some (Some t) →
            t = {| tdata := mirror w (promise st); tsource := promise st |}).
  { intros t Hget. destruct (get_data_inv _ _ _ Hget) as (st' & d & Hs' & Hd & Ht).
    assert (st' = st) as -> by congruence.
    destruct (H4 d t Hd Ht) as [Hsrc|Hin]; [|rewrite Hq in Hin; by apply elem_of_nil in Hin].
    destruct (rc_shown _ Hrc d t Ht) as [Hm|(_ & p & o & _ & _ & Hin)];
      [|rewrite Hq in Hin; by apply elem_of_nil in Hin].
    destruct t as [td ts]. simpl in *. by subst. }
  split; [done|]. intros v Hv Hlive.
  destruct (data st) as [d|] eqn:Hd.
  - destruct (wf_data _ Hwf this d) as [[t Ht] _].
    { unfold data_at. by rewrite Hs, <- Hd. }
    pose proof (get_data_some _ _ _ _ _ Hs Hd Ht) as Hget.
    by rewrite Hget, (Hone t Hget).
  - destruct (H5 eq_refl) as [Hx|[Hx|Hx]].
    + congruence.
    + rewrite Hq in Hx. by apply elem_of_nil in Hx.
    + destruct (returned_not_never _ _ _ Hv Hx).
Qed.

(** X10. With no microtask left to run, a [State] shows the value its
    source function returned last: whatever has happened before, a result in
    [data] was constructed from the [promise] field and holds what that has
    come to, pending, fulfilled or rejected; and a live [State] whose source
    function has returned at least once has such a result. *)
Theorem quiescent_state_mirrors_latest_call
    (debug : bool) (es : list Event) (this : nat) (st : StateObj) :
  Forall host_event es →
  let w := run es (empty_world debug) in
  let shown := {| tdata := mirror w (promise st); tsource := promise st |} in
  states w !! this = Some st →
  microtasks w = [] →
  (∀ t, State.get_data w this = Some (Some t) → t = shown)
  ∧ (∀ v, returned (fn st) (calls st) v → isDestroying w (RefState this) = false →
       State.get_data w this = Some (Some shown)
       ∧ State.state w this = Some (TrackedAsyncData.state shown)
       ∧ (∀ x, mirror w (promise st) = IsResolved x →
            State.value w this = Some (Normal x))
       ∧ (∀ e, mirror w (promise st) = IsRejected e →
            State.error w this = Some (Normal (nullish e JNull)))).
Proof.
  intros Hes w shown Hs Hq.
  assert (Hwf : wf w) by (apply wf_run; [apply wf_empty|done]).
  destruct (coherent_run es (empty_world debug) (wf_empty debug) Hes
              (coherent_empty debug)) as [Hrc Hsc].
  fold w in Hrc, Hsc.
  destruct (quiescent_core w this st Hwf Hrc Hsc Hs Hq) as [Hone Hhas].
  split; [done|]. intros v Hv Hlive. specialize (Hhas v Hv Hlive). fold shown in Hhas.
  split; [done|]. unfold State.state, State.value, State.error. rewrite Hhas. simpl.
  split; [done|]. split.
  - intros x Hx. unfold TrackedAsyncData.isResolved, TrackedAsyncData.value,
      TrackedAsyncData.state. simpl. by rewrite Hx.
  - intros e He. unfold TrackedAsyncData.error. simpl. by rewrite He.
Qed.

Lemma quiescent_state_mirrors_latest_call_witness :
  State.value (run (invocation_A ++ [Settle 10 (Fulfilled (JNum 5)); RunMicrotask])
                 (empty_world true)) 0
  = Some (Normal (JNum 5)).
Proof.
  apply (proj1 (proj2 (proj2 (proj2 (quiescent_state_mirrors_latest_call true
           (invocation_A ++ [Settle 10 (Fulfilled (JNum 5)); RunMicrotask]) 0
           {| data := Some 2; promise := JPromise 10; fn := new_promise_each_call;
              calls := 1 |}
           ltac:(repeat constructor) ltac:(by vm_compute) ltac:(by vm_compute))
           (JPromise 10) (ex_intro _ 0 (conj (le_n 1) eq_refl)) ltac:(by vm_compute))))).
  by vm_compute.
Defined.

(** ** The microtask queue drains *)

Lemma jobs_weight_app q l : jobs_weight (q ++ l) = jobs_weight q + jobs_weight l.
Proof. induction q as [|j q IH]; simpl; [done|]. rewrite IH. lia. Qed.

Lemma resume_queue this w c w' :
  State.retry_resume this w = Some (c, w') →
  ∃ l, microtasks w' = microtasks w ++ l ∧ jobs_weight l ≤ 1.
Proof.
  destruct (states w !! this) as [st|] eqn:Hs;
    [|by unfold State.retry_resume; rewrite Hs].
  rewrite (retry_resume_unfold _ _ _ Hs). cbv zeta.
  destruct (discard_previous_frame w this st) as (_ & Hp1 & Hq1 & Hn1 & _).
  destruct (isDestroying _ (RefState this)); intros [= _ <-].
  - exists []. rewrite app_nil_r. split; [done|]. simpl. lia.
  - destruct (new_queue (promise st) (State.discard_previous this st w)) as (Hq2 & _).
    eexists. split; [simpl; rewrite Hq2, Hq1; done|].
    unfold jobs_on_construct. destruct (promise st) as [| | | | |p|]; simpl; try lia.
    destruct (promise_settled _ p); simpl; lia.
Qed.

Lemma run_microtask_weight w :
  microtasks w ≠ [] → queue_weight (run_microtask w) < queue_weight w.
Proof.
  unfold run_microtask, queue_weight.
  destruct (microtasks w) as [|[this|d o] q] eqn:Hq; [done| |]; intros _.
  - simpl. destruct (State.retry_resume this _) as [[c w']|] eqn:H.
    + destruct (resume_queue _ _ _ _ H) as (l & -> & Hl). simpl.
      rewrite jobs_weight_app. lia.
    + simpl. lia.
  - simpl. lia.
Qed.

Lemma drain_empties n : ∀ w, queue_weight w ≤ n → microtasks (drain n w) = [].
Proof.
  induction n as [|n IH]; intros w Hn; simpl.
  - unfold queue_weight in Hn. destruct (microtasks w) as [|[|] q]; [done| |];
      simpl in Hn; lia.
  - destruct (microtasks w) as [|j q] eqn:Hq; [done|].
    apply IH. assert (microtasks w ≠ []) as Hne by (by rewrite Hq).
    pose proof (run_microtask_weight w Hne). lia.
Qed.

Lemma drain_more n : ∀ w m, microtasks (drain n w) = [] → n ≤ m → drain m w = drain n w.
Proof.
  induction n as [|n IH]; intros w m He Hm; simpl in *.
  - by apply drain_done.
  - destruct m as [|m]; [lia|]. simpl.
    destruct (microtasks w) as [|j q] eqn:Hq; [done|]. apply IH; [done|lia].
Qed.

Lemma drain_is_run n : ∀ w, ∃ k, drain n w = run (replicate k RunMicrotask) w.
Proof.
  induction n as [|n IH]; intros w; simpl; [by exists 0|].
  destruct (microtasks w) as [|j q]; [by exists 0|].
  destruct (IH (run_microtask w)) as [k Hk]. exists (S k). by rewrite Hk.
Qed.

(** X11. Draining always ends: a continuation of [retry] queues at most
    one callback and a callback queues nothing, so after at most two jobs
    per job now queued the microtask queue is empty, and running on changes
    nothing. *)
Theorem microtask_queue_drains (w : World) :
  microtasks (drain (queue_weight w) w) = []
  ∧ queue_weight w ≤ 2 * length (microtasks w)
  ∧ ∀ n, queue_weight w ≤ n → drain n w = drain (queue_weight w) w.
Proof.
  split; [by apply drain_empties|]. split.
  - unfold queue_weight. induction (microtasks w) as [|[|] q IH]; simpl in *; lia.
  - intros n Hn. apply drain_more; [by apply drain_empties|done].
Qed.

Lemma microtask_queue_drains_witness :
  drain 7 retried_world = drain (queue_weight retried_world) retried_world.
Proof.
  apply (proj2 (proj2 (microtask_queue_drains retried_world)) 7).
  vm_compute. lia.
Defined.

Lemma microtask_frame w this st :
  wf w → states w !! this = Some st →
  (∃ st', states (run_microtask w) !! this = Some st'
     ∧ promise st' = promise st ∧ fn st' = fn st ∧ calls st' = calls st)
  ∧ ∀ p, promise_settled (run_microtask w) p = promise_settled w p.
Proof.
  intros Hwf Hs.
  assert (Hsame : ∀ w', states w' = states w → promises w' = promises w →
            (∃ st', states w' !! this = Some st'
               ∧ promise st' = promise st ∧ fn st' = fn st ∧ calls st' = calls st)
            ∧ ∀ p, promise_settled w' p = promise_settled w p).
  { intros w' E1 E2. split; [exists st; by rewrite E1|].
    intros p. unfold promise_settled. by rewrite E2. }
  unfold run_microtask.
  destruct (microtasks w) as [|[j|d o] q] eqn:Hq;
    [by apply Hsame| |by apply Hsame].
  assert (Hwf' : wf (with_microtasks (λ _, q) w)).
  { apply (wf_same_heap w); try done. intros d o Hin. rewrite Hq. by right. }
  simpl. destruct (State.retry_resume j _) as [[c w']|] eqn:H; [|by apply Hsame].
  destruct (states w !! j) as [stj|] eqn:Hsj;
    [|by unfold State.retry_resume in H; simpl in H; rewrite Hsj in H].
  destruct (resume_fields _ _ _ _ _ Hwf' Hsj H)
    as (Hfr & _ & _ & Hset & st' & Hs' & Hp & Hf & Hc & _).
  split; [|done]. destruct (decide (this = j)) as [->|Hne].
  - exists st'. assert (stj = st) as -> by congruence. done.
  - exists st. rewrite Hfr by done. done.
Qed.

Lemma drain_frame n : ∀ w this st,
  wf w → states w !! this = Some st →
  (∃ st', states (drain n w) !! this = Some st'
     ∧ promise st' = promise st ∧ fn st' = fn st ∧ calls st' = calls st)
  ∧ ∀ p, promise_settled (drain n w) p = promise_settled w p.
Proof.
  induction n as [|n IH]; intros w this st Hwf Hs; simpl;
    [split; [by exists st|done]|].
  destruct (microtasks w) as [|j q] eqn:Hq; [split; [by exists st|done]|].
  destruct (microtask_frame w this st Hwf Hs) as [(st1 & Hs1 & Hp1 & Hf1 & Hc1) Hset1].
  destruct (IH (run_microtask w) this st1 (wf_run_microtask w Hwf) Hs1)
    as [(st' & Hs' & Hp & Hf & Hc) Hset].
  split.
  - exists st'. repeat split; congruence.
  - intros p. by rewrite Hset.
Qed.

(** X12. Whatever has happened, once the microtask queue has drained a
    live [State] whose source function has returned at least once shows the
    value it returned last: a result constructed from it, pending while that
    promise is pending, and holding its outcome once it has settled. *)
Theorem drained_state_shows_latest_call
    (debug : bool) (es : list Event) (this : nat) (st : StateObj) (v : JsVal) :
  Forall host_event es →
  let w := run es (empty_world debug) in
  let w' := drain (queue_weight w) w in
  let shown := {| tdata := mirror w (promise st); tsource := promise st |} in
  states w !! this = Some st →
  returned (fn st) (calls st) v →
  isDestroying w' (RefState this) = false →
  promise st = last_returned (fn st) (calls st)
  ∧ microtasks w' = []
  ∧ State.get_data w' this = Some (Some shown)
  ∧ State.state w' this = Some (TrackedAsyncData.state shown)
  ∧ (∀ x, mirror w (promise st) = IsResolved x →
       State.value w' this = Some (Normal x))
  ∧ (∀ e, mirror w (promise st) = IsRejected e →
       State.error w' this = Some (Normal (nullish e JNull))).
Proof.
  intros Hes w w' shown Hs Hv Hlive.
  assert (Hwf : wf w) by (apply wf_run; [apply wf_empty|done]).
  destruct (coherent_run es (empty_world debug) (wf_empty debug) Hes
              (coherent_empty debug)) as [Hrc Hsc].
  fold w in Hrc, Hsc.
  destruct (drain_is_run (queue_weight w) w) as [k Hk]. fold w' in Hk.
  assert (Hhost : Forall host_event (replicate k RunMicrotask))
    by (by apply Forall_replicate).
  assert (Hwf' : wf w') by (rewrite Hk; by apply wf_run).
  destruct (coherent_run _ w Hwf Hhost (conj Hrc Hsc)) as [Hrc' Hsc'].
  rewrite <- Hk in Hrc', Hsc'.
  assert (Hq : microtasks w' = []) by (by apply drain_empties).
  destruct (drain_frame (queue_weight w) w this st Hwf Hs)
    as [(st' & Hs' & Hp & Hf & Hc) Hset].
  fold w' in Hs', Hset.
  destruct (quiescent_core w' this st' Hwf' Hrc' Hsc' Hs' Hq) as [_ Hhas].
  rewrite Hf, Hc, Hp in Hhas. specialize (Hhas v Hv Hlive).
  rewrite (mirror_ext w w') in Hhas by done. fold shown in Hhas.
  split; [by apply (sc_promise _ _ _ (sc_states _ Hsc this st Hs))|].
  split; [done|]. split; [done|].
  unfold State.state, State.value, State.error. rewrite Hhas. simpl.
  split; [done|]. split.
  - intros x Hx. unfold TrackedAsyncData.isResolved, TrackedAsyncData.value,
      TrackedAsyncData.state. simpl. by rewrite Hx.
  - intros e He. unfold TrackedAsyncData.error. simpl. by rewrite He.
Qed.

Lemma drained_state_shows_latest_call_witness :
  State.value
    (drain (queue_weight (run second_call_fulfilled (empty_world true)))
       (run second_call_fulfilled (empty_world true))) 0
  = Some (Normal (JNum 9)).
Proof.
  apply (proj1 (proj2 (proj2 (proj2 (proj2 (drained_state_shows_latest_call true
           second_call_fulfilled 0
           {| data := Some 2; promise := JPromise 11; fn := new_promise_each_call;
              calls := 2 |}
           (JPromise 10)
           ltac:(repeat constructor) ltac:(by vm_compute)
           (ex_intro _ 0 (conj (le_S _ _ (le_n 1)) eq_refl))
           ltac:(by vm_compute))))))).
  by vm_compute.
Defined.

(** ** A settled result does not change *)

Lemma results_step e w d t :
  wf w → results_coherent w →
  results w !! d = Some t → tdata t ≠ IsPending →
  results (step e w) !! d = Some t.
Proof.
  intros Hwf Hrc Ht Hne.
  assert (Hretry : ∀ s, results (step (CallRetry s) w) = results w).
  { intros s. simpl. destruct (State.retry s w) as [[r w']|] eqn:H; [|done].
    by destruct (retry_effect _ _ _ _ H) as (_ & ? & _). }
  destruct e as [this| |p o|o| |context f|h stale].
  - by rewrite Hretry.
  - unfold step, run_microtask.
    destruct (microtasks w) as [|[this|d' o] q] eqn:Hq; [done| |].
    + simpl. destruct (State.retry_resume this _) as [[c w']|] eqn:H; [|done].
      destruct (resume_frame _ _ _ _ H) as (_ & Hrs & _). rewrite Hrs; [done|].
      simpl. assert (Hsome : is_Some (results w !! d)) by (by exists t).
      pose proof (wf_results _ Hwf d Hsome). lia.
    + simpl. destruct (decide (d' = d)) as [->|Hdd]; [|by rewrite lookup_alter_ne].
      rewrite lookup_alter_eq, Ht. simpl. f_equal.
      destruct (rc_jobs _ Hrc d o) as (t1 & p & Ht1 & Hsrc & Hset); [rewrite Hq; by left|].
      assert (t1 = t) as -> by congruence.
      destruct (rc_shown _ Hrc d t Ht) as [Hm|[Hpe _]]; [|done].
      rewrite Hsrc in Hm. simpl in Hm. rewrite Hset in Hm.
      destruct t as [td ts]. simpl in *. subst. by destruct o.
  - simpl. by destruct (promise_settle_frame p o w) as (_ & -> & _).
  - done.
  - done.
  - unfold step. by destruct (trackedFunction_frame context f w) as (_ & _ & _ & -> & _).
  - unfold step. destruct (current stale h w) as [[v w']|] eqn:H; [|done].
    apply current_shape in H as [->|(s & F & ->)]; [done|].
    change (results (associateDestroyableChild ?p ?c (with_resources ?G ?w0)))
      with (results w0).
    by rewrite Hretry.
Qed.

Lemma DEBUG_step e w : DEBUG (step e w) = DEBUG w.
Proof.
  assert (Hretry : ∀ s, DEBUG (step (CallRetry s) w) = DEBUG w).
  { intros s. simpl. destruct (State.retry s w) as [[r w']|] eqn:H; [|done].
    by destruct (retry_effect _ _ _ _ H) as (_ & _ & ? & _). }
  destruct e as [this| |p o|o| |context f|h stale].
  - apply Hretry.
  - unfold step, run_microtask. destruct (microtasks w) as [|[this|d o] q]; [done| |done].
    simpl. destruct (State.retry_resume this _) as [[c w']|] eqn:H; [|done].
    destruct (states w !! this) as [st|] eqn:Hs;
      [|by unfold State.retry_resume in H; simpl in H; rewrite Hs in H].
    rewrite (retry_resume_unfold (with_microtasks (λ _, q) w) this st Hs) in H.
    cbv zeta in H.
    destruct (discard_previous_frame (with_microtasks (λ _, q) w) this st)
      as (_ & _ & _ & _ & Hdb & _).
    destruct (isDestroying _ (RefState this)); injection H as _ <-; [done|].
    destruct (new_frame (promise st)
                (State.discard_previous this st (with_microtasks (λ _, q) w)))
      as (_ & _ & _ & _ & Hdb2 & _).
    simpl. by rewrite Hdb2.
  - simpl. by destruct (promise_settle_frame p o w) as (_ & _ & _ & _ & _ & _ & -> & _).
  - done.
  - done.
  - unfold step. by destruct (trackedFunction_graph context f w) as (_ & _ & _ & ->).
  - unfold step. destruct (current stale h w) as [[v w']|] eqn:H; [|done].
    apply current_shape in H as [->|(s & F & ->)]; [done|]. apply Hretry.
Qed.

Lemma DEBUG_run es w : DEBUG (run es w) = DEBUG w.
Proof.
  revert w. induction es as [|e es IH]; intros w; [done|].
  by rewrite run_cons, IH, DEBUG_step.
Qed.

(** X13. A result that has settled keeps what it holds for good: a
    later callback for it can only store the same outcome again.  So what a
    [State] shows of a settled result stays as it is for as long as [data]
    points at that result. *)
Theorem settled_result_never_changes
    (debug : bool) (before after : list Event) (this d : nat) (t : TrackedAsyncDataObj) :
  Forall host_event before →
  Forall host_event after →
  let w := run before (empty_world debug) in
  let w' := run after w in
  results w !! d = Some t →
  tdata t ≠ IsPending →
  results w' !! d = Some t
  ∧ (data_at w this = Some (Some d) → data_at w' this = Some (Some d) →
       State.state w' this = State.state w this
       ∧ State.value w' this = State.value w this
       ∧ State.error w' this = State.error w this).
Proof.
  intros Hb Ha w w' Ht Hne.
  assert (Hwf : wf w) by (apply wf_run; [apply wf_empty|done]).
  destruct (coherent_run before (empty_world debug) (wf_empty debug) Hb
              (coherent_empty debug)) as [Hrc _].
  fold w in Hrc.
  assert (Hres : results w' !! d = Some t).
  { unfold w'. clearbody w. clear w' Hb. revert w Hwf Hrc Ht.
    induction after as [|e es IH]; intros w Hwf Hrc Ht; [done|].
    inversion Ha as [|?? He Hes]; subst. rewrite run_cons.
    apply IH; [done|by apply wf_step|by apply rc_step|by apply results_step]. }
  split; [done|]. intros Hd Hd'.
  assert (Hdebug : DEBUG w' = DEBUG w) by apply DEBUG_run.
  assert (Hget : State.get_data w' this = State.get_data w this).
  { unfold data_at in Hd, Hd'. unfold State.get_data.
    destruct (states w !! this) as [st|]; [|done].
    destruct (states w' !! this) as [st'|]; [|done].
    simpl in *. injection Hd as Hd. injection Hd' as Hd'.
    by rewrite Hd, Hd', Hres, Ht. }
  unfold State.state, State.value, State.error. by rewrite Hget, Hdebug.
Qed.

Lemma settled_result_never_changes_witness :
  results (run [Settle 10 (Rejected (JStr "late")); CallRetry 0; RunMicrotask]
             (run first_call_fulfilled (empty_world true))) !! 2
  = Some {| tdata := IsResolved (JNum 5); tsource := JPromise 10 |}.
Proof.
  apply (proj1 (settled_result_never_changes true first_call_fulfilled
           [Settle 10 (Rejected (JStr "late")); CallRetry 0; RunMicrotask] 0 2
           {| tdata := IsResolved (JNum 5); tsource := JPromise 10 |}
           ltac:(repeat constructor) ltac:(repeat constructor)
           ltac:(by vm_compute) ltac:(discriminate))).
Defined.

(** ** Between the call and the continuation *)



(** X15. Right after the continuation of [retry] has run on a live
    [State], the [State] shows the new result and nothing of the previous
    one: for a promise it reads pending with no value, also when that
    promise is already settled, because the callback is yet to run; for any
    other returned value it reads resolved with that value at once. *)
Theorem resume_shows_the_new_result
    (w : World) (this : nat) (st : StateObj) :
  states w !! this = Some st →
  isDestroying (State.discard_previous this st w) (RefState this) = false →
  ∃ w2, State.retry_resume this w = Some (Normal (promise st), w2)
    ∧ State.get_data w2 this
      = Some (Some {| tdata := match promise st with
                               | JPromise _ => IsPending
                               | _ => IsResolved (promise st)
                               end;
                      tsource := promise st |})
    ∧ (∀ p, promise st = JPromise p →
         State.state w2 this = Some PENDING
         ∧ State.isPending w2 this = Some true
         ∧ State.value w2 this = Some (Normal JNull))
    ∧ ((∀ p, promise st ≠ JPromise p) →
         State.state w2 this = Some RESOLVED
         ∧ State.isResolved w2 this = Some true
         ∧ State.value w2 this = Some (Normal (promise st))
         ∧ microtasks w2 = microtasks w).
Proof.
  intros Hs Hlive.
  destruct (resume_constructs w this st Hs Hlive)
    as (w2 & Hres & Hst & Hr & Hq & _).
  exists w2. split; [done|].
  assert (Hget : State.get_data w2 this
            = Some (Some {| tdata := match promise st with
                                     | JPromise _ => IsPending
                                     | _ => IsResolved (promise st)
                                     end;
                            tsource := promise st |})).
  { eapply get_data_some.
    - by rewrite Hst, lookup_alter_eq, Hs.
    - done.
    - by rewrite Hr, lookup_insert_eq. }
  split; [done|].
  unfold State.state, State.isPending, State.isResolved, State.value.
  rewrite Hget. simpl. split.
  - intros p ->. done.
  - intros Hnp. rewrite Hq.
    unfold TrackedAsyncData.isResolved, TrackedAsyncData.value, TrackedAsyncData.state.
    destruct (promise st) as [| | | | |p|] eqn:Hp; simpl;
      try (by rewrite app_nil_r).
    by destruct (Hnp p).
Qed.

Lemma resume_shows_the_new_result_witness :
  ∃ w2, State.retry_resume 0 retried_world = Some (Normal (JPromise 7), w2)
    ∧ State.state w2 0 = Some PENDING
    ∧ State.value w2 0 = Some (Normal JNull).
Proof.
  destruct (resume_shows_the_new_result retried_world 0
              {| data := Some 1; promise := JPromise 7; fn := returns_promise_7;
                 calls := 2 |})
    as (w2 & Hres & _ & Hp & _).
  - by vm_compute.
  - by vm_compute.
  - exists w2. split; [exact Hres|].
    destruct (Hp 7 eq_refl) as (H1 & _ & H3). split; [exact H1|exact H3].
Defined.
